(** * html-to-images.js: a shallow embedding and its verified properties

    The development follows [src/html-to-images.js]:
    - JavaScript strings and the few [String]/[path] primitives the script
      calls ([String(n)], [padStart], [sort]'s order, [path.basename],
      [path.join]);
    - parsed JSON values, property access, object spread and [||];
    - [loadConfig];
    - a state-and-exception monad over the outside world (browser handles,
      disk, console, the calls made so far) in which [scanHtmlFiles],
      [ensureOutputDir], [convertHtmlToImages] and [main] are written;
    - the theorems. *)

From Stdlib Require Import Ascii QArith DecimalString DecimalNat.
From stdpp Require Import base decidable option list sorting strings gmap.

(* ===================================================================== *)
(** ** JavaScript strings *)
(* ===================================================================== *)

(** A JavaScript string is held as a [string]: the bytes of its UTF-8
    encoding.  The characters the script looks for (the slash, the dot,
    the characters of [.html], decimal digits) are single bytes that occur
    nowhere inside the encoding of another character, so searching and
    cutting work on the bytes; [units] counts and [compare_units] orders
    by UTF-16 code units, as [length] and [<] do in JavaScript. *)

Module JsString.

Definition chars (s : string) : list ascii := String.list_ascii_of_string s.
Definition of_chars (l : list ascii) : string := String.string_of_list_ascii l.

(** [String(n)] for a non-negative integer: its decimal numeral. *)
Definition of_nat (n : nat) : string :=
  NilZero.string_of_uint (Nat.to_uint n).

(** The inverse reading of a decimal numeral (leading zeros allowed);
    only used to state and prove that names are distinct. *)
Definition to_nat (s : string) : option nat :=
  Nat.of_uint <$> NilZero.uint_of_string s.

(** [k] characters taken cyclically from [fill], continuing at [cur]. *)
Fixpoint fill_chars (fill cur : string) (k : nat) : string :=
  match k with
  | O => ""
  | S k' =>
      match cur with
      | String c cur' => String c (fill_chars fill cur' k')
      | EmptyString =>
          match fill with
          | String c fill' => String c (fill_chars fill fill' k')
          | EmptyString => ""
          end
      end
  end.

(** [s.padStart(target, fill)]: [s] unchanged when it is already
    [target] long or [fill] is empty, else [fill] repeated (and cut) in
    front of [s] up to length [target].  The script pads decimal
    numerals with ["0"], where bytes and code units are the same. *)
Definition padStart (target : nat) (fill : string) (s : string) : string :=
  let n := String.length s in
  if (target <=? n)%nat || String.eqb fill "" then s
  else fill_chars fill fill (target - n) +:+ s.

(** The UTF-16 code units a byte of UTF-8 accounts for: a continuation
    byte (10xxxxxx) none, the first byte of a character one, and two when
    the character lies outside the Basic Multilingual Plane (first byte
    11110xxx), which UTF-16 writes as a surrogate pair. *)
Definition units_of_byte (c : ascii) : nat :=
  let b := N_of_ascii c in
  if (b <? 128)%N then 1
  else if (b <? 192)%N then 0
  else if (b <? 240)%N then 1
  else 2.

Definition units_of_bytes (l : list ascii) : nat :=
  foldr (λ c n, units_of_byte c + n) 0 l.

(** [s.length]. *)
Definition units (s : string) : nat := units_of_bytes (chars s).

(** The rank of a byte in the order of UTF-16 code units.  The bytes of
    UTF-8 order strings by code point; UTF-16 differs in one place: the
    characters outside the Basic Multilingual Plane (first byte 0xF0 to
    0xF4, surrogates 0xD800 to 0xDFFF in UTF-16) come before the
    characters U+E000 to U+FFFF (first byte 0xEE or 0xEF). *)
Definition rank (c : ascii) : N :=
  let b := N_of_ascii c in
  if (b =? 238)%N || (b =? 239)%N then (b + 256)%N else b.

(** The comparison of two strings by code units: at the first place
    where they differ, or the shorter first. *)
Fixpoint compare_units (a b : string) : comparison :=
  match a, b with
  | EmptyString, EmptyString => Eq
  | EmptyString, String _ _ => Lt
  | String _ _, EmptyString => Gt
  | String x a', String y b' =>
      match (rank x ?= rank y)%N with
      | Eq => compare_units a' b'
      | c => c
      end
  end.

(** [a] does not come after [b]. *)
Definition ordered (a b : string) : Prop := compare_units a b ≠ Gt.

#[global] Instance ordered_dec : RelDecision ordered.
Proof.
  intros a b. unfold ordered.
  destruct (compare_units a b); [left|left|right]; congruence.
Defined.

(** What the bytes stand for.  A text is a list of characters (Unicode
    scalar values); [utf8] gives the bytes that hold a character here,
    [utf16] the code units that hold it in JavaScript. *)
Definition scalar (u : Z) : Prop :=
  (0 ≤ u < 55296 ∨ 57344 ≤ u < 1114112)%Z.

Definition utf8 (u : Z) : list Z :=
  if (u <? 128)%Z then [u]
  else if (u <? 2048)%Z then [192 + u / 64; 128 + u mod 64]%Z
  else if (u <? 65536)%Z then
    [224 + u / 4096; 128 + (u / 64) mod 64; 128 + u mod 64]%Z
  else
    [240 + u / 262144; 128 + (u / 4096) mod 64; 128 + (u / 64) mod 64;
     128 + u mod 64]%Z.

Definition utf16 (u : Z) : list Z :=
  if (u <? 65536)%Z then [u]
  else [55296 + (u - 65536) / 1024; 56320 + (u - 65536) mod 1024]%Z.

Definition byte (b : Z) : ascii := ascii_of_N (Z.to_N b).

(** The string that holds a text. *)
Definition encode (text : list Z) : string := of_chars (byte <$> text ≫= utf8).

(** The code units of a text. *)
Definition code_units (text : list Z) : list Z := text ≫= utf16.

(** Lists of numbers compared at the first place where they differ, or
    the shorter first. *)
Fixpoint compare_lists (a b : list Z) : comparison :=
  match a, b with
  | [], [] => Eq
  | [], _ :: _ => Lt
  | _ :: _, [] => Gt
  | x :: a', y :: b' =>
      match (x ?= y)%Z with
      | Eq => compare_lists a' b'
      | c => c
      end
  end.

(** The rank of the byte with number [b]. *)
Definition byte_rank (b : Z) : Z := Z.of_N (rank (byte b)).

(** The place of a character in the order of code units: the characters
    outside the Basic Multilingual Plane come between U+D7FF and
    U+E000. *)
Definition place (u : Z) : Z :=
  if (u <? 55296)%Z then u
  else if (u <? 65536)%Z then (u + 1048576)%Z
  else (u - 10240)%Z.

End JsString.

(** Node's [path] module (POSIX flavour), as far as the script uses it. *)
Module path.
Import JsString.

Definition slash : ascii := "/"%char.

(** [s.slice(from, to)]: a negative index counts from the end, an index
    beyond the end is the end. *)
Definition slice (s : list ascii) (from to : Z) : list ascii :=
  let len := Z.of_nat (length s) in
  let clamp (k : Z) := if (k <? 0)%Z then Z.max (len + k) 0 else Z.min k len in
  take (Z.to_nat (clamp to - clamp from)) (drop (Z.to_nat (clamp from)) s).

(** The variables of the loops of [basename], [-1] standing for "not yet"
    as in Node. *)
Record scan : Type := Scan {
  start : Z;
  end_ : Z;
  matchedSlash : bool;
  extIdx : Z;
  firstNonSlashEnd : Z
}.

(** The loop of [basename] when a suffix is given,
    [for (let i = path.length - 1; i >= 0; --i)]: [codes] are
    [path[i]], [path[i-1]], ..., [path[0]]; the [break] is the branch
    that does not go on. *)
Fixpoint suffix_loop (suffix : list ascii) (codes : list ascii) (i : Z) (st : scan)
  : scan :=
  match codes with
  | [] => st
  | code :: codes' =>
      if Ascii.eqb code slash then
        if negb (matchedSlash st) then
          Scan (i + 1) (end_ st) (matchedSlash st) (extIdx st) (firstNonSlashEnd st)
        else suffix_loop suffix codes' (i - 1) st
      else
        let st1 :=
          if (firstNonSlashEnd st =? -1)%Z
          then Scan (start st) (end_ st) false (extIdx st) (i + 1)
          else st in
        let st2 :=
          if (0 <=? extIdx st1)%Z then
            if decide (suffix !! Z.to_nat (extIdx st1) = Some code) then
              if (extIdx st1 - 1 =? -1)%Z
              then Scan (start st1) i (matchedSlash st1) (extIdx st1 - 1)
                     (firstNonSlashEnd st1)
              else Scan (start st1) (end_ st1) (matchedSlash st1) (extIdx st1 - 1)
                     (firstNonSlashEnd st1)
            else Scan (start st1) (firstNonSlashEnd st1) (matchedSlash st1) (-1)
                   (firstNonSlashEnd st1)
          else st1 in
        suffix_loop suffix codes' (i - 1) st2
  end.

(** The loop of [basename] without a suffix. *)
Fixpoint plain_loop (codes : list ascii) (i : Z) (st : scan) : scan :=
  match codes with
  | [] => st
  | code :: codes' =>
      if Ascii.eqb code slash then
        if negb (matchedSlash st) then
          Scan (i + 1) (end_ st) (matchedSlash st) (extIdx st) (firstNonSlashEnd st)
        else plain_loop codes' (i - 1) st
      else if (end_ st =? -1)%Z then
        plain_loop codes' (i - 1)
          (Scan (start st) (i + 1) false (extIdx st) (firstNonSlashEnd st))
      else plain_loop codes' (i - 1) st
  end.

(** [path.basename(p, suffix)], after Node's [posix.basename]; an empty
    [suffix] also stands for a call without the second argument. *)
Definition basename (p suffix : string) : string :=
  let len := Z.of_nat (length (chars p)) in
  if (0 <? units suffix)%nat && (units suffix <=? units p)%nat then
    if String.eqb suffix p then ""
    else
      let st := suffix_loop (chars suffix) (rev (chars p)) (len - 1)
                  (Scan 0 (-1) true (Z.of_nat (length (chars suffix)) - 1) (-1)) in
      let end' :=
        if (start st =? end_ st)%Z then firstNonSlashEnd st
        else if (end_ st =? -1)%Z then len
        else end_ st in
      of_chars (slice (chars p) (start st) end')
  else
    let st := plain_loop (rev (chars p)) (len - 1) (Scan 0 (-1) true (-1) (-1)) in
    if (end_ st =? -1)%Z then ""
    else of_chars (slice (chars p) (start st) (end_ st)).

(** What stands between the slashes of a path. *)
Fixpoint segments (p : list ascii) : list (list ascii) :=
  match p with
  | [] => [[]]
  | c :: p' =>
      if Ascii.eqb c slash then [] :: segments p'
      else
        match segments p' with
        | seg :: rest => (c :: seg) :: rest
        | [] => [[c]]
        end
  end.

Definition dot : list ascii := ["."%char].
Definition dotdot : list ascii := ["."%char; "."%char].

(** One segment of [normalizeString]; [res] holds the segments kept so
    far, the last one first.  An empty segment and [.] are dropped; [..]
    removes the last segment kept, unless there is none or it is [..]
    itself, in which case [..] is kept when the path is relative; any
    other segment is kept. *)
Definition resolve (allowAboveRoot : bool) (res : list (list ascii))
  (seg : list ascii) : list (list ascii) :=
  if decide (seg = [] ∨ seg = dot) then res
  else if decide (seg = dotdot) then
    match res with
    | top :: rest =>
        if decide (top = dotdot) then (if allowAboveRoot then seg :: res else res)
        else rest
    | [] => if allowAboveRoot then [seg] else []
    end
  else seg :: res.

(** Segments joined by slashes. *)
Fixpoint joined (segs : list (list ascii)) : list ascii :=
  match segs with
  | [] => []
  | [seg] => seg
  | seg :: rest => seg ++ slash :: joined rest
  end.

Definition normalizeString (p : list ascii) (allowAboveRoot : bool) : list ascii :=
  joined (rev (foldl (resolve allowAboveRoot) [] (segments p))).

(** [path.normalize(p)]. *)
Definition normalize (p : list ascii) : list ascii :=
  match p with
  | [] => dot
  | _ =>
      let isAbsolute := bool_decide (head p = Some slash) in
      let trailingSeparator := bool_decide (last p = Some slash) in
      match normalizeString p (negb isAbsolute) with
      | [] =>
          if isAbsolute then [slash]
          else if trailingSeparator then dot ++ [slash] else dot
      | q =>
          (if isAbsolute then [slash] else [])
          ++ q ++ (if trailingSeparator then [slash] else [])
      end
  end.

(** [path.join(a, b)]: the arguments that are not empty, joined by a
    slash and normalised. *)
Definition join (a b : string) : string :=
  of_chars
    (normalize
       (match chars a, chars b with
        | [], l | l, [] => l
        | la, lb => la ++ slash :: lb
        end)).

End path.

(* ===================================================================== *)
(** ** Parsed JSON values and the JavaScript operators applied to them *)
(* ===================================================================== *)

(** What [JSON.parse] returns.  Numbers are rationals (every finite double
    is one); an object is the list of its properties, the first binding of
    a key being the key's value. *)
#[warnings="-register-all"]
Inductive value : Type :=
| Null
| Bool (b : bool)
| Num (q : Q)
| Str (s : string)
| Arr (items : list value)
| Obj (props : list (string * value)).

(** What the script throws or catches. *)
Inductive exn : Type :=
| TypeError (message : string)
| Error (message : string).

Definition message (e : exn) : string :=
  match e with TypeError m | Error m => m end.

Inductive result (A : Type) : Type :=
| Return (a : A)
| Throw (e : exn).
Arguments Return {A} a.
Arguments Throw {A} e.

Module Js.

(** The first binding of [k] in a property list; [None] is [undefined]. *)
Fixpoint lookup (k : string) (props : list (string * value)) : option value :=
  match props with
  | [] => None
  | (k', v) :: rest => if String.eqb k k' then Some v else lookup k rest
  end.

(** [v.k] for the keys the script reads ([viewport], [imageFormat],
    [imageQuality], [width], [height], [deviceScaleFactor]), none of
    which is a built-in property of a string, number, boolean or array:
    reading a property of [null] throws, reading one of a primitive or
    an array gives [undefined]. *)
Definition get (v : value) (k : string) : result (option value) :=
  match v with
  | Null => Throw (TypeError "Cannot read properties of null")
  | Obj props => Return (lookup k props)
  | Bool _ | Num _ | Str _ | Arr _ => Return None
  end.

(** Index keys [i], [i+1], ... paired with the items of a list. *)
Fixpoint indexed {A} (f : A → value) (i : nat) (l : list A)
  : list (string * value) :=
  match l with
  | [] => []
  | x :: l' => (JsString.of_nat i, f x) :: indexed f (S i) l'
  end.

(** The own enumerable properties that [...v] copies: none for
    [undefined], [null], a boolean or a number; the indexed characters
    of a string (numerals as keys, which the script never reads); the
    indexed items of an array; the properties of an object. *)
Definition own_props (v : option value) : list (string * value) :=
  match v with
  | None | Some Null | Some (Bool _) | Some (Num _) => []
  | Some (Str s) =>
      indexed (λ c, Str (String c EmptyString)) 0 (String.list_ascii_of_string s)
  | Some (Arr items) => indexed id 0 items
  | Some (Obj props) => props
  end.

(** [{ ...a, ...v }] for an object [a]: the properties of [v] take
    precedence over those of [a]. *)
Definition spread (a : list (string * value)) (v : option value)
  : list (string * value) :=
  own_props v ++ a.

(** JavaScript truthiness. *)
Definition truthy (v : option value) : bool :=
  match v with
  | None | Some Null => false
  | Some (Bool b) => b
  | Some (Num q) => negb (Qeq_bool q 0)
  | Some (Str s) => negb (String.eqb s "")
  | Some (Arr _) | Some (Obj _) => true
  end.

(** [a || b] with a defined right operand. *)
Definition or (a : option value) (b : value) : value :=
  match a with
  | Some v => if truthy a then v else b
  | None => b
  end.

End Js.

(* ===================================================================== *)
(** ** The configuration *)
(* ===================================================================== *)

(** What the script finds at [html-to-images-config.json]. *)
Inductive config_file : Type :=
| Absent                   (* existsSync is false *)
| Unreadable (e : exn)     (* readFileSync throws *)
| Malformed (e : exn)      (* JSON.parse throws *)
| Parsed (v : value).      (* JSON.parse returns v *)

Record config : Type := Config {
  outputDir : string;
  scanPatterns : list string;
  excludePatterns : list string;
  viewport : list (string * value);
  imageFormat : value;
  imageQuality : value
}.

(** Console lines; each constructor stands for one message template of
    the script and carries the values the template interpolates.
    [EffectiveDpi] carries the scale (the script prints 300 times it) and
    [Listed] the path of the file (the script prints it relative to the
    project directory). *)
Inductive line : Type :=
| LoadedCustomConfiguration
| UsingDefaultConfiguration
| Started
| Resolution (width height scale : option value)
| EffectiveDpi (scale : option value)
| OutputDirectoryReady (dir : string)
| ErrorCreatingOutputDirectory (e : exn)
| Scanning
| ErrorScanningPattern (pattern msg : string)
| NoHtmlFilesFound
| PleaseAddHtmlFiles
| FoundHtmlFiles (n : nat)
| Listed (index : nat) (file : string)
| Processing (fileName : string)
| FoundPages (n : nat)
| PageDone (index total : nat) (name : string)
| ErrorProcessing (file msg : string)
| ConversionComplete
| Processed (successCount failCount : nat)
| TotalPages (n : nat)
| OutputDirectory (dir : string).

Section LoadConfig.

(** The project directory, [path.join(__dirname, '..')]; joining [x] to
    it gives what the script gets by joining [../x] to [__dirname]. *)
Variable project : string.

Definition defaultViewport : list (string * value) :=
  [("width", Num 1122); ("height", Num 794); ("deviceScaleFactor", Num 3)].

Definition defaultConfig : config :=
  {| outputDir := path.join project "output/images";
     scanPatterns := [path.join project "*.html";
                      path.join project "**/*.html"];
     excludePatterns := ["**/node_modules/**"; "**/output/**"; "**/.git/**";
                         "**/dist/**"; "**/build/**"; "**/frontend/**"];
     viewport := defaultViewport;
     imageFormat := Str "png";
     imageQuality := Num 100 |}.

(** The [try] block of [loadConfig]: the custom configuration and what
    is printed. *)
Definition readCustomConfig (file : config_file) : value * list line :=
  match file with
  | Absent => (Obj [], [])
  | Unreadable _ | Malformed _ => (Obj [], [UsingDefaultConfiguration])
  | Parsed v => (v, [LoadedCustomConfiguration])
  end.

(** The merge of [loadConfig]. *)
Definition mergeConfig (customConfig : value) : result config :=
  match Js.get customConfig "viewport" with
  | Throw e => Throw e
  | Return customViewport =>
      match Js.get customConfig "imageFormat" with
      | Throw e => Throw e
      | Return customFormat =>
          match Js.get customConfig "imageQuality" with
          | Throw e => Throw e
          | Return customQuality =>
              Return
                {| outputDir := outputDir defaultConfig;
                   scanPatterns := scanPatterns defaultConfig;
                   excludePatterns := excludePatterns defaultConfig;
                   viewport := Js.spread (viewport defaultConfig) customViewport;
                   imageFormat := Js.or customFormat (imageFormat defaultConfig);
                   imageQuality := Js.or customQuality (imageQuality defaultConfig) |}
          end
      end
  end.

Definition loadConfig (file : config_file) : result config * list line :=
  let '(customConfig, printed) := readCustomConfig file in
  (mergeConfig customConfig, printed).

End LoadConfig.

(** [CONFIG.viewport.width] and its siblings. *)
Definition viewportWidth (c : config) : option value := Js.lookup "width" (viewport c).
Definition viewportHeight (c : config) : option value := Js.lookup "height" (viewport c).
Definition viewportScale (c : config) : option value :=
  Js.lookup "deviceScaleFactor" (viewport c).

(** A positive number. *)
Definition positive_number (v : option value) : Prop :=
  match v with
  | Some (Num q) => (0 < q)%Q
  | _ => False
  end.

(* ===================================================================== *)
(** ** The outside world *)
(* ===================================================================== *)

(** Browsers, contexts and pages are known by handles. *)
Definition handle : Type := nat.

(** A locator returned by [page.locator(sel).all()]: the [nth] match, in
    document order, inside a page. *)
Record locator : Type := Locator { loc_page : handle; loc_nth : nat }.

(** The calls the script makes to its libraries, with the arguments it
    passes. *)
Inductive call : Type :=
| Mkdir (dir : string)
| Glob (pattern : string) (ignore : list string)
| Launch
| NewContext (browser : handle) (width height scale : option value)
| NewPage (context : handle)
| Goto (page : handle) (url waitUntil : string) (timeout : Z)
| WaitForTimeout (page : handle) (ms : Z)
| LocatorAll (page : handle) (selector : string)
| ScrollIntoViewIfNeeded (element : locator)
| Screenshot (element : locator) (file : string) (type : value)
| ClosePage (page : handle)
| CloseContext (context : handle)
| CloseBrowser (browser : handle).

(** A call together with the exception it ended in, if any. *)
Definition event : Type := call * option exn.

(** What a screenshot shows: which match of which document. *)
Record image : Type := Image { img_url : string; img_nth : nat }.

Record world : Type := World {
  fresh : handle;                     (* the next unused handle *)
  browsers : list handle;             (* launched and not closed *)
  contexts : list handle;             (* created and not closed *)
  pages : list handle;                (* opened and not closed *)
  loaded : gmap handle string;        (* the document each page shows *)
  disk : gmap string image;           (* the image files *)
  console : list line;                (* what was printed, oldest first *)
  trace : list event                  (* the calls made, oldest first *)
}.

(** The behaviour of the libraries: whether a call throws, what a glob
    pattern matches and how many elements a selector matches, each as a
    function of everything that happened before. *)
Record env : Type := Env {
  fault : list event → call → option exn;
  matched : list event → string → list string → list string;
  located : list event → handle → string → nat
}.

Definition record (ev : event) (w : world) : world :=
  {| fresh := fresh w; browsers := browsers w; contexts := contexts w;
     pages := pages w; loaded := loaded w; disk := disk w;
     console := console w; trace := trace w ++ [ev] |}.

Definition print (l : line) (w : world) : world :=
  {| fresh := fresh w; browsers := browsers w; contexts := contexts w;
     pages := pages w; loaded := loaded w; disk := disk w;
     console := console w ++ [l]; trace := trace w |}.

Definition open_browser (w : world) : world :=
  {| fresh := S (fresh w); browsers := fresh w :: browsers w;
     contexts := contexts w; pages := pages w; loaded := loaded w;
     disk := disk w; console := console w; trace := trace w |}.

Definition open_context (w : world) : world :=
  {| fresh := S (fresh w); browsers := browsers w;
     contexts := fresh w :: contexts w; pages := pages w; loaded := loaded w;
     disk := disk w; console := console w; trace := trace w |}.

Definition open_page (w : world) : world :=
  {| fresh := S (fresh w); browsers := browsers w; contexts := contexts w;
     pages := fresh w :: pages w; loaded := loaded w;
     disk := disk w; console := console w; trace := trace w |}.

Definition show (p : handle) (url : string) (w : world) : world :=
  {| fresh := fresh w; browsers := browsers w; contexts := contexts w;
     pages := pages w; loaded := <[p := url]> (loaded w); disk := disk w;
     console := console w; trace := trace w |}.

Definition url_of (p : handle) (w : world) : string :=
  default "about:blank" (loaded w !! p).

Definition write_image (file : string) (el : locator) (w : world) : world :=
  {| fresh := fresh w; browsers := browsers w; contexts := contexts w;
     pages := pages w; loaded := loaded w;
     disk := <[file := Image (url_of (loc_page el) w) (loc_nth el)]> (disk w);
     console := console w; trace := trace w |}.

Definition shut_page (p : handle) (w : world) : world :=
  {| fresh := fresh w; browsers := browsers w; contexts := contexts w;
     pages := filter (λ h, h ≠ p) (pages w); loaded := loaded w;
     disk := disk w; console := console w; trace := trace w |}.

Definition shut_context (c : handle) (w : world) : world :=
  {| fresh := fresh w; browsers := browsers w;
     contexts := filter (λ h, h ≠ c) (contexts w); pages := pages w;
     loaded := loaded w; disk := disk w; console := console w;
     trace := trace w |}.

Definition shut_browser (b : handle) (w : world) : world :=
  {| fresh := fresh w; browsers := filter (λ h, h ≠ b) (browsers w);
     contexts := contexts w; pages := pages w; loaded := loaded w;
     disk := disk w; console := console w; trace := trace w |}.

(** The world before the script runs. *)
Definition initial : world :=
  {| fresh := 0; browsers := []; contexts := []; pages := []; loaded := ∅;
     disk := ∅; console := []; trace := [] |}.

(* ===================================================================== *)
(** ** Computations: state and exceptions *)
(* ===================================================================== *)

(** An [async] function body run to completion: it changes the world and
    either returns or throws; what it did before throwing stays done. *)
Definition io (A : Type) : Type := world → result A * world.

#[global] Instance io_ret : MRet io := λ A a w, (Return a, w).

#[global] Instance io_bind : MBind io := λ A B f m w,
  match m w with
  | (Return a, w') => f a w'
  | (Throw e, w') => (Throw e, w')
  end.

Definition throw {A} (e : exn) : io A := λ w, (Throw e, w).

(** [try { body } catch (error) { handler error }]. *)
Definition try_catch {A} (body : io A) (handler : exn → io A) : io A := λ w,
  match body w with
  | (Return a, w') => (Return a, w')
  | (Throw e, w') => handler e w'
  end.

Definition gets {A} (f : world → A) : io A := λ w, (Return (f w), w).
Definition modify (f : world → world) : io unit := λ w, (Return tt, f w).

(** [console.log] and [console.error]. *)
Definition log (l : line) : io unit := modify (print l).

(* ===================================================================== *)
(** ** The script *)
(* ===================================================================== *)

(** [[...new Set(allFiles)]]: the members in the order of their first
    insertion. *)
Definition set_add (acc : list string) (x : string) : list string :=
  if decide (x ∈ acc) then acc else acc ++ [x].
Definition unique (l : list string) : list string := foldl set_add [] l.

(** [Array.prototype.sort()] without a comparator, on strings: ascending
    by UTF-16 code units. *)
Definition sort (l : list string) : list string :=
  merge_sort JsString.ordered l.

(** The name of the image of the match with index [i] (0-based). *)
Definition imageName (fileName : string) (i : nat) : string :=
  fileName +:+ "_page_"
  +:+ JsString.padStart 2 "0" (JsString.of_nat (i + 1)) +:+ ".png".

Section Script.

Variable E : env.
Variable CONFIG : config.

(** A library call: it is recorded, and throws when the libraries say so. *)
Definition perform (c : call) : io unit := λ w,
  match fault E (trace w) c with
  | Some e => (Throw e, record (c, Some e) w)
  | None => (Return tt, record (c, None) w)
  end.

Definition fs_mkdir (dir : string) : io unit := perform (Mkdir dir).

Definition glob (pattern : string) (ignore : list string) : io (list string) :=
  before ← gets trace;
  perform (Glob pattern ignore);;
  mret (matched E before pattern ignore).

Definition chromium_launch : io handle :=
  perform Launch;;
  b ← gets fresh;
  modify open_browser;;
  mret b.

Definition newContext (browser : handle) (width height scale : option value)
  : io handle :=
  perform (NewContext browser width height scale);;
  c ← gets fresh;
  modify open_context;;
  mret c.

Definition newPage (context : handle) : io handle :=
  perform (NewPage context);;
  p ← gets fresh;
  modify open_page;;
  mret p.

Definition goto (page : handle) (url waitUntil : string) (timeout : Z) : io unit :=
  perform (Goto page url waitUntil timeout);;
  modify (show page url).

Definition waitForTimeout (page : handle) (ms : Z) : io unit :=
  perform (WaitForTimeout page ms).

Definition locator_all (page : handle) (selector : string) : io (list locator) :=
  before ← gets trace;
  perform (LocatorAll page selector);;
  mret (Locator page <$> seq 0 (located E before page selector)).

Definition scrollIntoViewIfNeeded (element : locator) : io unit :=
  perform (ScrollIntoViewIfNeeded element).

Definition screenshot (element : locator) (file : string) (type : value) : io unit :=
  perform (Screenshot element file type);;
  modify (write_image file element).

Definition page_close (page : handle) : io unit :=
  perform (ClosePage page);; modify (shut_page page).

Definition context_close (context : handle) : io unit :=
  perform (CloseContext context);; modify (shut_context context).

Definition browser_close (browser : handle) : io unit :=
  perform (CloseBrowser browser);; modify (shut_browser browser).

(** The [for (const pattern of CONFIG.scanPatterns)] loop of
    [scanHtmlFiles], from the patterns still to scan. *)
Fixpoint scanLoop (patterns : list string) (allFiles : list string)
  : io (list string) :=
  match patterns with
  | [] => mret allFiles
  | pattern :: rest =>
      allFiles' ←
        try_catch
          (files ← glob pattern (excludePatterns CONFIG);
           mret (allFiles ++ files))
          (λ error,
             log (ErrorScanningPattern pattern (message error));;
             mret allFiles);
      scanLoop rest allFiles'
  end.

Definition scanHtmlFiles : io (list string) :=
  allFiles ← scanLoop (scanPatterns CONFIG) [];
  mret (sort (unique allFiles)).

Definition ensureOutputDir : io unit :=
  try_catch
    (fs_mkdir (outputDir CONFIG);;
     log (OutputDirectoryReady (outputDir CONFIG)))
    (λ error,
       log (ErrorCreatingOutputDirectory error);;
       throw error).

Definition outputPath (fileName : string) (i : nat) : string :=
  path.join (outputDir CONFIG) (imageName fileName i).

(** The [for (let i = 0; i < pageElements.length; i++)] loop of
    [convertHtmlToImages], from index [i] on; [elements] are
    [pageElements[i]], [pageElements[i+1]], ... and [total] is
    [pageElements.length]. *)
Fixpoint screenshotLoop (page : handle) (fileName : string) (total : nat)
  (elements : list locator) (i : nat) : io unit :=
  match elements with
  | [] => mret tt
  | element :: rest =>
      scrollIntoViewIfNeeded element;;
      waitForTimeout page 500;;
      screenshot element (outputPath fileName i) (imageFormat CONFIG);;
      log (PageDone (i + 1) total (path.basename (outputPath fileName i) ""));;
      screenshotLoop page fileName total rest (i + 1)
  end.

Definition convertHtmlToImages (htmlFilePath : string) : io nat :=
  let fileName := path.basename htmlFilePath ".html" in
  log (Processing fileName);;
  browser ← chromium_launch;
  context ← newContext browser (viewportWidth CONFIG) (viewportHeight CONFIG)
                       (viewportScale CONFIG);
  page ← newPage context;
  let fileUrl := "file://" +:+ htmlFilePath in
  goto page fileUrl "networkidle" 60000;;
  waitForTimeout page 3000;;
  pageElements ← locator_all page ".page";
  log (FoundPages (length pageElements));;
  screenshotLoop page fileName (length pageElements) pageElements 0;;
  page_close page;;
  context_close context;;
  browser_close browser;;
  mret (length pageElements).

(** The [htmlFiles.forEach] listing of [main]. *)
Fixpoint listFiles (htmlFiles : list string) (index : nat) : io unit :=
  match htmlFiles with
  | [] => mret tt
  | file :: rest => log (Listed (index + 1) file);; listFiles rest (index + 1)
  end.

(** The [for (const htmlFile of htmlFiles)] loop of [main], with its three
    counters. *)
Fixpoint convertLoop (htmlFiles : list string)
  (totalPages successCount failCount : nat) : io (nat * nat * nat) :=
  match htmlFiles with
  | [] => mret (totalPages, successCount, failCount)
  | htmlFile :: rest =>
      counters ←
        try_catch
          (pageCount ← convertHtmlToImages htmlFile;
           mret (totalPages + pageCount, successCount + 1, failCount))
          (λ error,
             log (ErrorProcessing htmlFile (message error));;
             mret (totalPages, successCount, failCount + 1));
      convertLoop rest counters.1.1 counters.1.2 counters.2
  end.

(** Lines 209-227 of [main]: the counters, the loop and the summary. *)
Definition convertAll (htmlFiles : list string) : io unit :=
  counters ← convertLoop htmlFiles 0 0 0;
  log ConversionComplete;;
  log (Processed counters.1.2 counters.2);;
  log (TotalPages counters.1.1);;
  log (OutputDirectory (outputDir CONFIG)).

Definition main : io unit :=
  log Started;;
  log (Resolution (viewportWidth CONFIG) (viewportHeight CONFIG)
                  (viewportScale CONFIG));;
  log (EffectiveDpi (viewportScale CONFIG));;
  ensureOutputDir;;
  log Scanning;;
  htmlFiles ← scanHtmlFiles;
  if decide (length htmlFiles = 0) then
    log NoHtmlFilesFound;;
    log PleaseAddHtmlFiles
  else
    log (FoundHtmlFiles (length htmlFiles));;
    listFiles htmlFiles 0;;
    convertAll htmlFiles.

End Script.


(* ===================================================================== *)
(** ** Properties of traces and consoles *)
(* ===================================================================== *)

(** The events added to the trace, and the lines printed, between two
    worlds. *)
Definition since (w w' : world) : list event :=
  drop (length (trace w)) (trace w').
Definition printed (w w' : world) : list line :=
  drop (length (console w)) (console w').

(** What the waits of the script ask of an event [ev] that comes right
    after [prev] ([None]: nothing came before): a navigation that
    succeeded is followed at once by the 3000 ms wait on its page; a
    capture comes right after a completed 500 ms wait on its page; a
    navigation waits for the network to be idle, at most 60000 ms; a wait
    lasts 3000 or 500 ms. *)
Definition ok_next (prev : option event) (ev : event) : Prop :=
  (∀ p url wu t, prev = Some (Goto p url wu t, None) →
     ∃ r, ev = (WaitForTimeout p 3000, r))
  ∧ (∀ el file ty r, ev = (Screenshot el file ty, r) →
       prev = Some (WaitForTimeout (loc_page el) 500, None))
  ∧ (∀ p url wu t r, ev = (Goto p url wu t, r) →
       wu = "networkidle" ∧ t = 60000%Z)
  ∧ (∀ p ms r, ev = (WaitForTimeout p ms, r) → ms = 3000%Z ∨ ms = 500%Z).

Fixpoint timed (prev : option event) (tr : list event) : Prop :=
  match tr with
  | [] => True
  | ev :: tr' => ok_next prev ev ∧ timed (Some ev) tr'
  end.

(** The last event of [tr], or [prev] when [tr] is empty. *)
Definition last_event (prev : option event) (tr : list event) : option event :=
  match last tr with
  | Some ev => Some ev
  | None => prev
  end.

(** No successful navigation is left waiting for its 3000 ms. *)
Definition settled (prev : option event) : Prop :=
  ∀ p url wu t, prev ≠ Some (Goto p url wu t, None).

(** A trace without navigations. *)
Definition no_goto (tr : list event) : Prop :=
  ∀ p url wu t r, (Goto p url wu t, r) ∉ tr.

(** The events of a capture loop in which nothing throws. *)
Fixpoint captures (CONFIG : config) (page : handle) (fileName : string)
  (elements : list locator) (i : nat) : list event :=
  match elements with
  | [] => []
  | element :: rest =>
      (ScrollIntoViewIfNeeded element, None)
      :: (WaitForTimeout page 500, None)
      :: (Screenshot element (outputPath CONFIG fileName i) (imageFormat CONFIG), None)
      :: captures CONFIG page fileName rest (i + 1)
  end.

(** The disk after such a loop. *)
Fixpoint written (CONFIG : config) (url fileName : string)
  (elements : list locator) (i : nat) (d : gmap string image)
  : gmap string image :=
  match elements with
  | [] => d
  | element :: rest =>
      written CONFIG url fileName rest (i + 1)
        (<[outputPath CONFIG fileName i := Image url (loc_nth element)]> d)
  end.

(** The successful captures of a trace, oldest first: which element went
    to which file. *)
Fixpoint screenshots (tr : list event) : list (locator * string) :=
  match tr with
  | [] => []
  | (Screenshot el file _, None) :: tr' => (el, file) :: screenshots tr'
  | _ :: tr' => screenshots tr'
  end.

(** The files named in [Processing] lines and in [ErrorProcessing] lines. *)
Fixpoint processing (lines : list line) : list string :=
  match lines with
  | [] => []
  | Processing fileName :: rest => fileName :: processing rest
  | _ :: rest => processing rest
  end.

Fixpoint errors (lines : list line) : list string :=
  match lines with
  | [] => []
  | ErrorProcessing file _ :: rest => file :: errors rest
  | _ :: rest => errors rest
  end.

(** What the successful [glob] calls of a trace returned, oldest first;
    [h] is what happened before the trace. *)
Fixpoint harvest (E : env) (h : list event) (tr : list event) : list string :=
  match tr with
  | [] => []
  | (Glob pattern ignore, None) :: tr' =>
      matched E h pattern ignore
      ++ harvest E (h ++ [(Glob pattern ignore, None)]) tr'
  | ev :: tr' => harvest E (h ++ [ev]) tr'
  end.

(** The error line of each [glob] call of a trace that threw. *)
Fixpoint scan_errors (tr : list event) : list line :=
  match tr with
  | [] => []
  | (Glob pattern _, Some e) :: tr' =>
      ErrorScanningPattern pattern (message e) :: scan_errors tr'
  | _ :: tr' => scan_errors tr'
  end.

(** An absolute path starts with a slash. *)
Definition is_absolute (file : string) : Prop :=
  ∃ rest, file = String "/"%char rest.

(** The keys of [viewport] that the script reads. *)
Definition viewport_keys : list string := ["width"; "height"; "deviceScaleFactor"].

(** A string without a slash. *)
Definition no_slash (s : string) : Prop :=
  Forall (λ c, c ≠ "/"%char) (String.list_ascii_of_string s).

(** A segment [g] without the extension [e]: cut when [g] ends with [e]
    and is longer than it. *)
Definition chop (g e : list ascii) : list ascii :=
  if decide (e `suffix_of` g ∧ length e < length g)
  then take (length g - length e) g else g.

(** The conversions of a trace that ran to their end: the last call of a
    conversion closes its browser, and a conversion returns when that
    call does. *)
Fixpoint completed (tr : list event) : nat :=
  match tr with
  | [] => 0
  | (CloseBrowser _, None) :: tr' => S (completed tr')
  | _ :: tr' => completed tr'
  end.

(** The events before the page-marker query of a conversion that got
    that far. *)
Definition opening (CONFIG : config) (htmlFilePath : string) (w : world) : list event :=
  [(Launch, None);
   (NewContext (fresh w) (viewportWidth CONFIG) (viewportHeight CONFIG)
      (viewportScale CONFIG), None);
   (NewPage (S (fresh w)), None);
   (Goto (S (S (fresh w))) ("file://" +:+ htmlFilePath) "networkidle" 60000, None);
   (WaitForTimeout (S (S (fresh w))) 3000, None)].

(** The events of its teardown. *)
Definition teardown (w : world) : list event :=
  [(ClosePage (S (S (fresh w))), None);
   (CloseContext (S (fresh w)), None);
   (CloseBrowser (fresh w), None)].


(* ===================================================================== *)
(** ** Example environments *)
(* ===================================================================== *)

(** A simple pattern matcher: [*] stands for any run of characters, every
    other character for itself. *)
Fixpoint wild (pattern file : list ascii) {struct pattern} : bool :=
  match pattern with
  | [] => match file with [] => true | _ => false end
  | c :: pattern' =>
      if Ascii.eqb c "*"%char then
        (fix star (file : list ascii) : bool :=
           wild pattern' file
           || match file with
              | [] => false
              | _ :: file' => star file'
              end) file
      else
        match file with
        | d :: file' => Ascii.eqb c d && wild pattern' file'
        | [] => false
        end
  end.

Definition wild_match (pattern file : string) : bool :=
  wild (String.list_ascii_of_string pattern) (String.list_ascii_of_string file).

(** A project whose files are [tree], each document of which has [count]
    page markers; [glob] rejects the patterns in [invalid], and loading a
    document in [unreachable] times out. *)
Definition project_env (tree : list string) (count : nat)
  (invalid unreachable : list string) : env :=
  {| fault := λ _ c,
       match c with
       | Glob pattern _ =>
           if decide (pattern ∈ invalid)
           then Some (Error "Invalid glob pattern") else None
       | Goto _ url _ _ =>
           if decide (url ∈ (λ file, "file://" +:+ file) <$> unreachable)
           then Some (Error "page.goto: Timeout 60000ms exceeded.") else None
       | _ => None
       end;
     matched := λ _ pattern ignore,
       List.filter
         (λ file, wild_match pattern file
                  && forallb (λ e, negb (wild_match e file)) ignore)
         tree;
     located := λ _ _ _, count |}.

(** The default configuration of a project at [/srv]. *)
Definition srv : config := defaultConfig "/srv".

(** What the libraries promise about [glob] with [absolute: true] and an
    [ignore] list, for a notion [matches] of a pattern matching a path. *)
Definition glob_sound (matches : string → string → Prop) (E : env) : Prop :=
  ∀ h pattern ignore file,
    file ∈ matched E h pattern ignore →
    is_absolute file ∧ matches pattern file
    ∧ ∀ e, e ∈ ignore → ¬ matches e file.

(** The directory tree does not change: whenever it is asked, [glob] fails
    on the same patterns and matches the same files, in whatever order. *)
Definition glob_stable (E : env) : Prop :=
  ∀ h1 h2 pattern ignore,
    (fault E h1 (Glob pattern ignore) = None
     ↔ fault E h2 (Glob pattern ignore) = None)
    ∧ ∀ file, file ∈ matched E h1 pattern ignore
              ↔ file ∈ matched E h2 pattern ignore.

(* ===================================================================== *)
(** ** More of the script: the entry point *)
(* ===================================================================== *)



(** The world in which [main] starts to scan, when the output directory
    could be made. *)
Definition scanning (CONFIG : config) (w : world) : world :=
  print Scanning
    (print (OutputDirectoryReady (outputDir CONFIG))
       (record (Mkdir (outputDir CONFIG), None)
          (print (EffectiveDpi (viewportScale CONFIG))
             (print (Resolution (viewportWidth CONFIG) (viewportHeight CONFIG)
                       (viewportScale CONFIG))
                (print Started w))))).

(** Every open handle was handed out before: it is below the next one. *)
Definition handles_fresh (w : world) : Prop :=
  Forall (λ h, h < fresh w) (browsers w)
  ∧ Forall (λ h, h < fresh w) (contexts w)
  ∧ Forall (λ h, h < fresh w) (pages w).

(** Two configurations alike in all that a conversion reads. *)
Definition same_render_config (C1 C2 : config) : Prop :=
  outputDir C1 = outputDir C2
  ∧ viewportWidth C1 = viewportWidth C2
  ∧ viewportHeight C1 = viewportHeight C2
  ∧ viewportScale C1 = viewportScale C2
  ∧ imageFormat C1 = imageFormat C2.

(** A change of the disk at [file]: either none, or [file] is an image of
    one of the documents and it exists afterwards. *)
Definition image_written (CONFIG : config) (documents : string → Prop)
  (w w' : world) (file : string) : Prop :=
  disk w' !! file = disk w !! file
  ∨ (is_Some (disk w' !! file)
     ∧ ∃ document i,
         documents document
         ∧ file = path.join (outputDir CONFIG)
                    (imageName (path.basename document ".html") i)).

(* ===================================================================== *)
(** ** convert.sh *)
(* ===================================================================== *)

Module ConvertSh.

Record flags : Type := Flags { IMAGES_ONLY : bool; PPT_ONLY : bool }.

(** The [while [[ $# -gt 0 ]]] loop over the arguments; [inr option] when
    it meets an unknown option (the script then exits with status 1). *)
Fixpoint parse (args : list string) (fl : flags) : flags + string :=
  match args with
  | [] => inl fl
  | arg :: rest =>
      if String.eqb arg "--images-only" then
        parse rest (Flags true (PPT_ONLY fl))
      else if String.eqb arg "--ppt-only" then
        parse rest (Flags (IMAGES_ONLY fl) true)
      else inr arg
  end.

(** An option the script knows. *)
Definition known (arg : string) : Prop :=
  arg = "--images-only" ∨ arg = "--ppt-only".

(** The commands of the script that do work. *)
Inductive job : Type :=
| NpmInstall       (* npm install *)
| PipInstall       (* pip3 install -q -r requirements.txt *)
| HtmlToImages     (* node src/html-to-images.js *)
| ImagesToPpt.     (* python3 src/images-to-ppt.py *)

#[global] Instance job_eq_dec : EqDecision job.
Proof. solve_decision. Defined.

(** The machine the script runs on: which tools [command -v] finds,
    whether the directory [node_modules] exists, and the exit status of
    each job. *)
Record machine : Type := Machine {
  installed : string → bool;
  node_modules : bool;
  status : job → nat
}.

(** A piece of the script either goes on or exits with a status. *)
Inductive step (A : Type) : Type :=
| Go (a : A)
| Exit (code : nat).
Arguments Go {A} a.
Arguments Exit {A} code.

(** Shell code: it adds to the jobs that were run. *)
Definition sh (A : Type) : Type := list job → step A * list job.

#[global] Instance sh_ret : MRet sh := λ A a ran, (Go a, ran).

#[global] Instance sh_bind : MBind sh := λ A B f m ran,
  match m ran with
  | (Go a, ran') => f a ran'
  | (Exit code, ran') => (Exit code, ran')
  end.

(** A command under [set -e]: a status other than 0 ends the script with
    that status. *)
Definition run (m : machine) (j : job) : sh unit := λ ran,
  if decide (status m j = 0) then (Go (), ran ++ [j])
  else (Exit (status m j), ran ++ [j]).

(** [if ! command -v tool; then ... exit 1; fi]. *)
Definition require (m : machine) (tool : string) : sh unit := λ ran,
  if installed m tool then (Go (), ran) else (Exit 1, ran).

Definition check_dependencies (m : machine) : sh unit :=
  require m "node";;
  require m "npm";;
  require m "python3";;
  require m "pip3".

Definition install_node_deps (m : machine) : sh unit :=
  if node_modules m then mret () else run m NpmInstall.

Definition install_python_deps (m : machine) : sh unit := run m PipInstall.

Definition html_to_images (m : machine) : sh unit := run m HtmlToImages.

Definition images_to_ppt (m : machine) : sh unit := run m ImagesToPpt.

(** The function [main] of the script; its closing summary only prints. *)
Definition main (m : machine) (fl : flags) : sh unit :=
  check_dependencies m;;
  (if PPT_ONLY fl then mret () else install_node_deps m);;
  (if IMAGES_ONLY fl then mret () else install_python_deps m);;
  (if PPT_ONLY fl then mret () else html_to_images m);;
  (if IMAGES_ONLY fl then mret () else images_to_ppt m).

(** The whole script: its exit status and the jobs it ran, in order. *)
Definition convert_sh (m : machine) (args : list string) : nat * list job :=
  match parse args (Flags false false) with
  | inr _ => (1, [])
  | inl fl =>
      match main m fl [] with
      | (Go _, ran) => (0, ran)
      | (Exit code, ran) => (code, ran)
      end
  end.

End ConvertSh.

(* ===================================================================== *)
(** ** Tactics *)
(* ===================================================================== *)

(** Unfolds the library calls down to [perform]ed events. *)
Ltac io_unfold :=
  unfold chromium_launch, newContext, newPage, goto, waitForTimeout,
    locator_all, scrollIntoViewIfNeeded, screenshot, page_close,
    context_close, browser_close, fs_mkdir, glob, log, gets, modify,
    throw, try_catch, mbind, mret, io_bind, io_ret in *.

(** Runs a computation symbolically, splitting on each possible fault. *)
Ltac io_split :=
  match goal with
  | |- context [fault ?E ?h ?c] =>
      let e := fresh "e" in
      let He := fresh "He" in
      destruct (fault E h c) as [e|] eqn:He
  end.
Ltac io_run := io_unfold; unfold perform in *; repeat (io_split; cbn beta iota).

(** The same, without keeping the equations. *)
Ltac io_split_quiet :=
  match goal with
  | |- context [fault ?E ?h ?c] =>
      let e := fresh "e" in destruct (fault E h c) as [e|]
  end.
Ltac io_run_quiet :=
  io_unfold; unfold perform in *; repeat (io_split_quiet; cbn beta iota).

(** Closes [ok_next] goals between two given events. *)
Ltac ok_next_tac :=
  repeat split; intros; simplify_eq; eauto;
  try match goal with H : settled _ |- _ => by edestruct H end.


(** Closes [no_goto] goals over a given list of events. *)
Ltac no_goto_tac :=
  let Hin := fresh "Hin" in
  intros ????? Hin;
  repeat first
    [ apply elem_of_cons in Hin as [Hin|Hin]; [by simplify_eq|]
    | apply elem_of_app in Hin as [Hin|Hin] ];
  try (by apply elem_of_nil in Hin);
  try match goal with H : no_goto _ |- _ => by eapply H end.


(** Closes goals about the navigations in a given list of events. *)
Ltac goto_in_tac :=
  let Hin := fresh "Hin" in
  intros ????? Hin;
  repeat first
    [ apply elem_of_cons in Hin as [Hin|Hin]; [by simplify_eq|]
    | apply elem_of_app in Hin as [Hin|Hin] ];
  try (by apply elem_of_nil in Hin);
  try match goal with H : no_goto _ |- _ => by edestruct H end.

(** Closes equations between two runs of a loop of [basename] and the
    arithmetic side conditions on its variables. *)
Ltac scan_eq := cbn [length]; f_equal; try lia; f_equal; lia.
Ltac scan_side :=
  cbn [path.start path.end_ path.extIdx path.firstNonSlashEnd path.matchedSlash];
  rewrite ?length_rev, ?length_app; cbn [length] in *; lia.

(** Splits on the comparisons of a goal, and closes by arithmetic. *)
Ltac place_cases :=
  repeat match goal with
    | |- context [Z.ltb ?a ?b] => destruct (Z.ltb_spec a b); try lia
    | |- context [Z.eqb ?a ?b] => destruct (Z.eqb_spec a b); try lia
    end;
  cbn [orb];
  repeat match goal with
    | |- context [Z.compare ?a ?b] =>
        destruct (Z.compare_spec a b); try lia; try done
    end.

(** Names the world in which the capture loop starts and splits on how the
    loop ends. *)
Ltac loop_cases k :=
  match goal with
  | |- context [screenshotLoop ?E ?CONFIG ?p ?f ?t ?els ?i ?w1] =>
      k p f t els i w1;
      let r := fresh "r" in
      let w2 := fresh "w" in
      let Hloop := fresh "Hloop" in
      destruct (screenshotLoop E CONFIG p f t els i w1) as [r w2] eqn:Hloop;
      destruct r as [[]|?]; cbn [fst snd] in *
  end.


(* ===================================================================== *)
(** ** The model at a few inputs *)
(* ===================================================================== *)

Example basename_report :
  path.basename "/srv/reports/q3/report.html" ".html" = "report".
Proof. reflexivity. Qed.

Example basename_dot_html :
  path.basename "/srv/.html" ".html" = ".html".
Proof. reflexivity. Qed.

(** Trailing slashes are skipped, except behind a segment that is a
    proper end of the extension, where Node leaves them in the result;
    a path of slashes only is returned whole. *)
Example basename_trailing_slash :
  path.basename "/srv/report.html/" ".html" = "report"
  ∧ path.basename "/srv/tml/" ".html" = "tml/"
  ∧ path.basename "/////" ".html" = "/////"
  ∧ path.basename "/srv/html" ".html" = "html"
  ∧ path.basename ".html" ".html" = ""
  ∧ path.basename "/srv/output/images/report_page_01.png" ""
    = "report_page_01.png".
Proof. repeat split; reflexivity. Qed.

Example join_normalises :
  path.join "/srv" "output/images" = "/srv/output/images"
  ∧ path.join "/" "output/images" = "/output/images"
  ∧ path.join "/" "*.html" = "/*.html"
  ∧ path.join "/srv/src" "../**/*.html" = "/srv/**/*.html"
  ∧ path.join "/srv/output/images" "tml/_page_01.png"
    = "/srv/output/images/tml/_page_01.png"
  ∧ path.join "" "" = ".".
Proof. repeat split; reflexivity. Qed.

(** The order of [sort]: by code units, so a character outside the Basic
    Multilingual Plane (here U+1F600, in UTF-16 0xD83D 0xDE00) comes
    before U+FF61, although its code point and its UTF-8 bytes are
    larger. *)
Example sort_by_code_units :
  sort ["/srv/｡.html"; "/srv/😀.html"; "/srv/é.html"; "/srv/z.html";
        "/srv/Z.html"; "/srv/a/b.html"; "/srv/a.html"]
  = ["/srv/Z.html"; "/srv/a.html"; "/srv/a/b.html"; "/srv/z.html";
     "/srv/é.html"; "/srv/😀.html"; "/srv/｡.html"].
Proof. vm_compute. reflexivity. Qed.

Example units_of_names :
  JsString.units "report.html" = 11 ∧ JsString.units "é｡😀" = 4.
Proof. split; reflexivity. Qed.

Example padStart_7 : JsString.padStart 2 "0" (JsString.of_nat 7) = "07".
Proof. reflexivity. Qed.

Example padStart_123 : JsString.padStart 2 "0" (JsString.of_nat 123) = "123".
Proof. reflexivity. Qed.

Example loadConfig_absent :
  loadConfig "/srv" Absent = (Return (defaultConfig "/srv"), []).
Proof. reflexivity. Qed.

Example loadConfig_null :
  fst (loadConfig "/srv" (Parsed Null))
  = Throw (TypeError "Cannot read properties of null").
Proof. reflexivity. Qed.
(* ===================================================================== *)
(** ** Strings: the order of code units *)
(* ===================================================================== *)

Section Order.
Import JsString.

Lemma rank_inj x y : rank x = rank y → x = y.
Proof.
  unfold rank. intros H.
  pose proof (N_ascii_bounded x) as Hx. pose proof (N_ascii_bounded y) as Hy.
  assert (N_of_ascii x = N_of_ascii y) as Heq.
  { destruct (N.eqb_spec (N_of_ascii x) 238), (N.eqb_spec (N_of_ascii x) 239),
      (N.eqb_spec (N_of_ascii y) 238), (N.eqb_spec (N_of_ascii y) 239);
      simpl in H; lia. }
  apply (f_equal ascii_of_N) in Heq. by rewrite !ascii_N_embedding in Heq.
Qed.

Lemma compare_units_refl a : compare_units a a = Eq.
Proof. induction a as [|x a IH]; simpl; [done|]. by rewrite N.compare_refl. Qed.

Lemma compare_units_eq a b : compare_units a b = Eq → a = b.
Proof.
  revert b. induction a as [|x a IH]; intros [|y b]; simpl; try done.
  destruct (rank x ?= rank y)%N eqn:Hxy; try done.
  apply N.compare_eq in Hxy. apply rank_inj in Hxy as ->.
  by intros ->%IH.
Qed.

Lemma compare_units_opp a b : compare_units b a = CompOpp (compare_units a b).
Proof.
  revert b. induction a as [|x a IH]; intros [|y b]; simpl; try done.
  rewrite (N.compare_antisym (rank x) (rank y)).
  destruct (rank x ?= rank y)%N; simpl; [apply IH|done|done].
Qed.

Lemma compare_units_lt_trans a b c :
  compare_units a b = Lt → compare_units b c = Lt → compare_units a c = Lt.
Proof.
  revert b c. induction a as [|x a IH]; intros [|y b] [|z c]; simpl; try done.
  destruct (N.compare_spec (rank x) (rank y)) as [Hxy|Hxy|Hxy]; try done;
    destruct (N.compare_spec (rank y) (rank z)) as [Hyz|Hyz|Hyz]; try done;
    intros Hab Hbc.
  - rewrite Hxy, Hyz, N.compare_refl. by eapply IH.
  - rewrite Hxy. by apply N.compare_lt_iff in Hyz as ->.
  - rewrite <- Hyz. by apply N.compare_lt_iff in Hxy as ->.
  - assert (rank x < rank z)%N as Hxz by lia.
    by apply N.compare_lt_iff in Hxz as ->.
Qed.

Lemma ordered_refl : Reflexive ordered.
Proof. intros a. unfold ordered. by rewrite compare_units_refl. Qed.

Lemma ordered_trans : Transitive ordered.
Proof.
  intros a b c. unfold ordered. intros Hab Hbc.
  destruct (compare_units a b) eqn:Eab; [|clear Hab|done].
  { by apply compare_units_eq in Eab as ->. }
  destruct (compare_units b c) eqn:Ebc; [|clear Hbc|done].
  { apply compare_units_eq in Ebc as <-. by rewrite Eab. }
  by rewrite (compare_units_lt_trans a b c).
Qed.

Lemma ordered_antisym : AntiSymm (=) ordered.
Proof.
  intros a b. unfold ordered. rewrite (compare_units_opp a b).
  destruct (compare_units a b) eqn:Eab; simpl; try done.
  by apply compare_units_eq in Eab.
Qed.

Lemma ordered_total : Total ordered.
Proof.
  intros a b. unfold ordered. rewrite (compare_units_opp a b).
  destruct (compare_units a b); simpl; auto.
Qed.

End Order.

(* ===================================================================== *)
(** ** Paths: [basename] and [join] *)
(* ===================================================================== *)

Section BasenameLoops.
Import JsString path.

Local Open Scope Z_scope.

Lemma eqb_slash c : c ≠ slash → Ascii.eqb c slash = false.
Proof. intros H. by destruct (Ascii.eqb_spec c slash). Qed.

(** Once the extension is settled, the characters of a segment change
    nothing. *)
Lemma suffix_loop_done e r rest i st :
  Forall (λ c, c ≠ slash) r → firstNonSlashEnd st ≠ -1 → extIdx st < 0 →
  suffix_loop e (r ++ rest) i st = suffix_loop e rest (i - Z.of_nat (length r)) st.
Proof.
  intros Hr. revert i. induction Hr as [|c r Hc Hr IH]; intros i Hf Hx; simpl.
  { f_equal. lia. }
  rewrite (eqb_slash c Hc).
  destruct (Z.eqb_spec (firstNonSlashEnd st) (-1)) as [|_]; [done|].
  destruct (Z.leb_spec 0 (extIdx st)) as [|_]; [lia|].
  rewrite IH by done. f_equal. lia.
Qed.

(** The first character seen that is not a slash fixes
    [firstNonSlashEnd]. *)
Lemma suffix_loop_first e c rest i st :
  c ≠ slash → firstNonSlashEnd st = -1 →
  suffix_loop e (c :: rest) i st
  = suffix_loop e (c :: rest) i
      (Scan (start st) (end_ st) false (extIdx st) (i + 1)).
Proof.
  intros Hc Hf. simpl. rewrite (eqb_slash c Hc), Hf. simpl.
  by destruct (Z.eqb_spec (i + 1) (-1)).
Qed.

(** The segment ends with the extension. *)
Lemma suffix_loop_match e x : ∀ e2 r rest i st,
  e = rev x ++ e2 → x ≠ [] → Forall (λ c, c ≠ slash) x → Forall (λ c, c ≠ slash) r →
  firstNonSlashEnd st ≠ -1 → extIdx st = Z.of_nat (length x) - 1 →
  suffix_loop e (x ++ r ++ rest) i st
  = suffix_loop e rest (i - Z.of_nat (length x) - Z.of_nat (length r))
      (Scan (start st) (i - Z.of_nat (length x) + 1) (matchedSlash st) (-1)
         (firstNonSlashEnd st)).
Proof.
  induction x as [|a x IH]; intros e2 r rest i st He Hne Hx Hr Hf Hidx; [done|].
  apply Forall_cons in Hx as [Ha Hx].
  assert (e !! length x = Some a) as Hlook.
  { rewrite He. simpl. rewrite <- app_assoc.
    rewrite lookup_app_r by (rewrite length_rev; lia).
    by rewrite length_rev, Nat.sub_diag. }
  cbn [app suffix_loop]. rewrite (eqb_slash a Ha).
  destruct (Z.eqb_spec (firstNonSlashEnd st) (-1)) as [|_]; [done|].
  cbn [length] in Hidx.
  destruct (Z.leb_spec 0 (extIdx st)) as [_|]; [|lia].
  replace (Z.to_nat (extIdx st)) with (length x) by lia.
  rewrite decide_True by done.
  destruct x as [|b x].
  - simpl in *. destruct (Z.eqb_spec (extIdx st - 1) (-1)) as [_|]; [|lia].
    rewrite suffix_loop_done; [|done|done|simpl; lia]. scan_eq.
  - destruct (Z.eqb_spec (extIdx st - 1) (-1)) as [|_]; [simpl in *; lia|].
    rewrite (IH ([a] ++ e2) r rest); try done.
    + scan_eq.
    + rewrite He. simpl. by rewrite <- !app_assoc.
    + simpl in *. lia.
Qed.

(** The segment is shorter than the extension and ends as it does. *)
Lemma suffix_loop_pending e r : ∀ x e2 rest i st,
  e = rev (r ++ x) ++ e2 → x ≠ [] → Forall (λ c, c ≠ slash) r →
  firstNonSlashEnd st ≠ -1 → extIdx st = Z.of_nat (length r) + Z.of_nat (length x) - 1 →
  suffix_loop e (r ++ rest) i st
  = suffix_loop e rest (i - Z.of_nat (length r))
      (Scan (start st) (end_ st) (matchedSlash st) (Z.of_nat (length x) - 1)
         (firstNonSlashEnd st)).
Proof.
  induction r as [|c r IH]; intros x e2 rest i st He Hne Hr Hf Hidx.
  { simpl in *. destruct st. simpl in *. scan_eq. }
  apply Forall_cons in Hr as [Hc Hr].
  assert (e !! (length r + length x)%nat = Some c) as Hlook.
  { rewrite He. simpl. rewrite <- app_assoc.
    rewrite lookup_app_r by (rewrite length_rev, length_app; lia).
    by rewrite length_rev, length_app, Nat.sub_diag. }
  cbn [app suffix_loop]. rewrite (eqb_slash c Hc).
  destruct (Z.eqb_spec (firstNonSlashEnd st) (-1)) as [|_]; [done|].
  cbn [length] in Hidx.
  destruct (Z.leb_spec 0 (extIdx st)) as [_|]; [|lia].
  replace (Z.to_nat (extIdx st)) with (length r + length x)%nat by lia.
  rewrite decide_True by done.
  assert (x ≠ [] → 0 < length x)%nat as Hpos by (destruct x; simpl; [done|lia]).
  specialize (Hpos Hne).
  destruct (Z.eqb_spec (extIdx st - 1) (-1)) as [|_]; [lia|].
  rewrite (IH x ([c] ++ e2) rest); try done.
  - scan_eq.
  - rewrite He. simpl. by rewrite <- !app_assoc.
  - simpl. lia.
Qed.

(** The segment and the extension differ before either ends. *)
Lemma suffix_loop_mismatch e y : ∀ a c x r e2 rest i st,
  e = rev (y ++ a :: x) ++ e2 → a ≠ c → c ≠ slash → Forall (λ c, c ≠ slash) y → Forall (λ c, c ≠ slash) r →
  firstNonSlashEnd st ≠ -1 → extIdx st = Z.of_nat (length y) + Z.of_nat (length x) →
  suffix_loop e (y ++ c :: r ++ rest) i st
  = suffix_loop e rest (i - Z.of_nat (length y) - 1 - Z.of_nat (length r))
      (Scan (start st) (firstNonSlashEnd st) (matchedSlash st) (-1)
         (firstNonSlashEnd st)).
Proof.
  induction y as [|b y IH]; intros a c x r e2 rest i st He Hac Hc Hy Hr Hf Hidx.
  - assert (e !! length x = Some a) as Hlook.
    { rewrite He. simpl. rewrite <- app_assoc.
      rewrite lookup_app_r by (rewrite length_rev; lia).
      by rewrite length_rev, Nat.sub_diag. }
    cbn [app suffix_loop]. rewrite (eqb_slash c Hc).
    destruct (Z.eqb_spec (firstNonSlashEnd st) (-1)) as [|_]; [done|].
    simpl in Hidx.
    destruct (Z.leb_spec 0 (extIdx st)) as [_|]; [|lia].
    replace (Z.to_nat (extIdx st)) with (length x) by lia.
    rewrite decide_False by (rewrite Hlook; congruence).
    rewrite suffix_loop_done; [|done|done|simpl; lia]. scan_eq.
  - apply Forall_cons in Hy as [Hb Hy].
    assert (e !! (length y + S (length x))%nat = Some b) as Hlook.
    { rewrite He. simpl. rewrite <- app_assoc.
      rewrite lookup_app_r by (rewrite length_rev, length_app; simpl; lia).
      rewrite length_rev, length_app. simpl. by rewrite Nat.sub_diag. }
    cbn [app suffix_loop]. rewrite (eqb_slash b Hb).
    destruct (Z.eqb_spec (firstNonSlashEnd st) (-1)) as [|_]; [done|].
    cbn [length] in Hidx.
    destruct (Z.leb_spec 0 (extIdx st)) as [_|]; [|lia].
    replace (Z.to_nat (extIdx st)) with (length y + S (length x))%nat by lia.
    rewrite decide_True by done.
    destruct (Z.eqb_spec (extIdx st - 1) (-1)) as [|_]; [lia|].
    rewrite (IH a c x r ([b] ++ e2) rest); try done.
    + scan_eq.
    + rewrite He. simpl. by rewrite <- !app_assoc.
    + simpl. lia.
Qed.

(** How two lists compare from their heads. *)
Lemma heads_compare {A} `{EqDecision A} (x r : list A) :
  (∃ r', r = x ++ r')
  ∨ (∃ x', x' ≠ [] ∧ x = r ++ x')
  ∨ (∃ y a c x' r', a ≠ c ∧ x = y ++ a :: x' ∧ r = y ++ c :: r').
Proof.
  revert r. induction x as [|a x IH]; intros r.
  { left. by exists r. }
  destruct r as [|c r].
  { right. left. by exists (a :: x). }
  destruct (decide (a = c)) as [->|Hac].
  - destruct (IH r) as [[r' ->]|[(x' & Hx' & ->)|(y & a & d & x' & r' & Had & -> & ->)]].
    + left. by exists r'.
    + right. left. by exists x'.
    + right. right. by exists (c :: y), a, d, x', r'.
  - right. right. by exists [], a, c, x, r.
Qed.

Lemma plain_loop_run r rest i st :
  Forall (λ c, c ≠ slash) r → end_ st ≠ -1 →
  plain_loop (r ++ rest) i st = plain_loop rest (i - Z.of_nat (length r)) st.
Proof.
  intros Hr. revert i. induction Hr as [|c r Hc Hr IH]; intros i He; simpl.
  { f_equal. lia. }
  rewrite (eqb_slash c Hc).
  destruct (Z.eqb_spec (end_ st) (-1)) as [|_]; [done|].
  rewrite IH by done. f_equal. lia.
Qed.

End BasenameLoops.

Section BasenameSpec.
Import JsString path.

Local Open Scope Z_scope.

Lemma slice_app d g b :
  0 ≤ b ≤ Z.of_nat (length g) →
  slice (d ++ g) (Z.of_nat (length d)) (Z.of_nat (length d) + b)
  = take (Z.to_nat b) g.
Proof.
  intros Hb. unfold slice. rewrite length_app.
  destruct (Z.ltb_spec (Z.of_nat (length d)) 0) as [|_]; [lia|].
  destruct (Z.ltb_spec (Z.of_nat (length d) + b) 0) as [|_]; [lia|].
  rewrite !Z.min_l by lia.
  rewrite Nat2Z.id, drop_app_length. f_equal. lia.
Qed.

Lemma slice_whole g b :
  0 ≤ b ≤ Z.of_nat (length g) → slice g 0 b = take (Z.to_nat b) g.
Proof. intros Hb. by rewrite <- (slice_app [] g b). Qed.

Lemma chop_keep g e :
  ¬ (e `suffix_of` g ∧ (length e < length g)%nat) → chop g e = g.
Proof. intros H. unfold chop. by rewrite decide_False. Qed.

Lemma chop_strip s e : s ≠ [] → chop (s ++ e) e = s.
Proof.
  intros Hs. unfold chop. rewrite decide_True.
  - rewrite length_app. replace (length s + length e - length e)%nat
      with (length s) by lia. by rewrite take_app_length.
  - split; [by exists s|]. rewrite length_app. destruct s; simpl; [done|lia].
Qed.

Lemma rev_cons_inv {A} (g : list A) : g ≠ [] → ∃ c r, rev g = c :: r.
Proof.
  intros Hg. destruct (rev g) as [|c r] eqn:Hrev; [|by eauto].
  apply (f_equal (@rev A)) in Hrev. rewrite rev_involutive in Hrev. done.
Qed.

Lemma Forall_rev_2 {A} (P : A → Prop) (l : list A) : Forall P l → Forall P (rev l).
Proof.
  intros H. apply Forall_forall. intros x Hx.
  apply list_elem_of_In, in_rev, list_elem_of_In in Hx.
  by eapply Forall_forall in H.
Qed.

(** The branch of [basename] with a suffix, on a path that ends with a
    segment: it gives the segment, without the suffix when the segment
    ends with it and is longer. *)
Lemma suffix_branch d g e :
  g ≠ [] → Forall (λ c, c ≠ slash) g →
  d = [] ∨ (∃ d', d = d' ++ [slash]) →
  e ≠ [] → d ++ g ≠ e →
  let len := Z.of_nat (length (d ++ g)) in
  let st := suffix_loop e (rev (d ++ g)) (len - 1)
              (Scan 0 (-1) true (Z.of_nat (length e) - 1) (-1)) in
  slice (d ++ g) (start st)
    (if start st =? end_ st then firstNonSlashEnd st
     else if end_ st =? -1 then len else end_ st)
  = chop g e.
Proof.
  intros Hg Hfree Hd He Hne len st. subst st.
  rewrite rev_app_distr.
  destruct (rev_cons_inv g Hg) as (c0 & r0 & Hrev).
  pose proof (Forall_rev_2 _ _ Hfree) as Hrfree.
  assert (Z.of_nat (length g) = 1 + Z.of_nat (length r0)) as Hlen.
  { rewrite <- (length_rev g), Hrev. simpl. lia. }
  assert (len = Z.of_nat (length d) + Z.of_nat (length g)) as Hlen'.
  { unfold len. rewrite length_app. lia. }
  assert (rev d = [] ∧ d = []
          ∨ ∃ d', rev d = slash :: rev d' ∧ d = d' ++ [slash]) as Hd'.
  { destruct Hd as [->|[d' ->]]; [by left|right].
    exists d'. by rewrite rev_app_distr. }
  rewrite Hrev in Hrfree |- *.
  pose proof Hrfree as Hr0. apply Forall_cons in Hr0 as [Hc0 Hr0].
  cbn [app]. rewrite suffix_loop_first by done.
  cbn [start end_ extIdx].
  replace (len - 1 + 1) with len by lia.
  change (c0 :: r0 ++ rev d) with ((c0 :: r0) ++ rev d).
  assert (e = rev (rev e) ++ []) as Hee by by rewrite rev_involutive, app_nil_r.
  assert (rev e ≠ []) as Hre.
  { intros H. apply (f_equal (@rev ascii)) in H. by rewrite rev_involutive in H. }
  destruct (heads_compare (rev e) (c0 :: r0))
    as [[r' Hr']|[(x' & Hx' & Hx)|(y & a & c & x' & r' & Hac & Hx & Hr')]].
  - (* the segment ends with the suffix *)
    assert (g = rev r' ++ e) as Hge.
    { rewrite <- (rev_involutive g), Hrev, Hr', rev_app_distr.
      by rewrite rev_involutive. }
    rewrite Hr', <- app_assoc.
    rewrite Hr' in Hrfree. apply Forall_app in Hrfree as [Hxfree Hr'free].
    rewrite (suffix_loop_match e (rev e) [] r' (rev d)); try done;
      try scan_side.
    cbn [start end_ matchedSlash firstNonSlashEnd].
    rewrite length_rev.
    assert (Z.of_nat (length g)
            = Z.of_nat (length r') + Z.of_nat (length e)) as Hlg.
    { rewrite Hge, length_app, length_rev. lia. }
    destruct Hd' as [[-> ->]|(d' & -> & ->)].
    + cbn [suffix_loop start end_ firstNonSlashEnd]. simpl in Hlen'.
      assert (r' ≠ []) as Hr'ne.
      { intros ->. apply Hne. by rewrite Hge. }
      assert (0 < length r')%nat by (destruct r'; simpl; [done|lia]).
      destruct (Z.eqb_spec 0 (len - 1 - Z.of_nat (length e) + 1)); [lia|].
      destruct (Z.eqb_spec (len - 1 - Z.of_nat (length e) + 1) (-1)); [lia|].
      rewrite slice_whole by lia. rewrite Hge at 2.
      rewrite chop_strip by (by intros ?%(f_equal (@rev ascii))%symmetry;
        rewrite rev_involutive in *).
      cbn [app]. rewrite Hge. rewrite take_app_length'; [done|].
      rewrite length_rev. lia.
    + cbn [suffix_loop start end_ firstNonSlashEnd matchedSlash negb].
      rewrite Ascii.eqb_refl.
      rewrite length_app in Hlen'. simpl in Hlen'.
      cbn [start end_ firstNonSlashEnd].
      replace (len - 1 - Z.of_nat (length e) - Z.of_nat (length r') + 1)
        with (Z.of_nat (length (d' ++ [slash])))
        by (rewrite length_app; simpl; lia).
      destruct r' as [|c' r'].
      * simpl in Hge. subst g.
        destruct (Z.eqb_spec (Z.of_nat (length (d' ++ [slash])))
                    (len - 1 - Z.of_nat (length e) + 1)) as [_|Hn];
          [|rewrite length_app in Hn; simpl in Hn; lia].
        replace len with (Z.of_nat (length (d' ++ [slash]))
                          + Z.of_nat (length e))
          by (rewrite length_app; simpl; lia).
        rewrite slice_app by lia. rewrite Nat2Z.id, firstn_all.
        rewrite chop_keep; [done|]. intros [_ ?]. lia.
      * destruct (Z.eqb_spec (Z.of_nat (length (d' ++ [slash])))
                    (len - 1 - Z.of_nat (length e) + 1)) as [Hn|_].
        { rewrite length_app in Hn. simpl in *. lia. }
        destruct (Z.eqb_spec (len - 1 - Z.of_nat (length e) + 1) (-1)); [lia|].
        replace (len - 1 - Z.of_nat (length e) + 1)
          with (Z.of_nat (length (d' ++ [slash]))
                + Z.of_nat (length (c' :: r')))
          by (rewrite length_app; simpl in *; lia).
        rewrite slice_app by lia. rewrite Nat2Z.id. rewrite Hge at 2.
        rewrite chop_strip.
        2: { intros H%(f_equal (@length ascii)). rewrite length_rev in H. done. }
        rewrite Hge. rewrite take_app_length'; [done|]. by rewrite length_rev.
  - (* the segment is a proper end of the suffix *)
    assert (length e = length g + length x')%nat as Hle.
    { rewrite <- (length_rev e), Hx, length_app, <- Hrev, length_rev. lia. }
    assert (0 < length x')%nat by (destruct x'; simpl; [done|lia]).
    rewrite (suffix_loop_pending e (c0 :: r0) x' [] (rev d)); try done;
      try scan_side.
    2: { by rewrite <- Hx. }
    cbn [start end_ matchedSlash firstNonSlashEnd].
    rewrite chop_keep by (intros [_ ?]; lia).
    destruct Hd' as [[-> ->]|(d' & -> & ->)].
    + cbn [suffix_loop start end_ firstNonSlashEnd]. simpl in Hlen'.
      simpl. rewrite slice_whole by lia.
      apply firstn_all2. lia.
    + cbn [suffix_loop start end_ firstNonSlashEnd matchedSlash negb].
      rewrite Ascii.eqb_refl. cbn [start end_ firstNonSlashEnd].
      rewrite length_app in Hlen'. simpl in Hlen'.
      destruct (Z.eqb_spec (len - 1 - Z.of_nat (length (c0 :: r0)) + 1) (-1));
        [simpl in *; lia|].
      simpl Z.eqb.
      replace (len - 1 - Z.of_nat (length (c0 :: r0)) + 1)
        with (Z.of_nat (length (d' ++ [slash])))
        by (rewrite length_app; simpl in *; lia).
      replace len with (Z.of_nat (length (d' ++ [slash]))
                        + Z.of_nat (length g))
        by (rewrite length_app; simpl; lia).
      rewrite slice_app by lia. rewrite Nat2Z.id. apply firstn_all.
  - (* the segment does not end as the suffix does *)
    rewrite Hr', <- app_assoc. cbn [app].
    rewrite Hr' in Hrfree. apply Forall_app in Hrfree as [Hyfree Hcfree].
    apply Forall_cons in Hcfree as [Hc Hr'free].
    assert (length e = length y + S (length x'))%nat as Hle.
    { by rewrite <- (length_rev e), Hx, length_app. }
    rewrite (suffix_loop_mismatch e y a c x' r' [] (rev d)); try done;
      try scan_side.
    2: { by rewrite <- Hx. }
    cbn [start end_ matchedSlash firstNonSlashEnd].
    rewrite chop_keep.
    2: { intros [[k Hk] _]. apply (f_equal (@rev ascii)) in Hk.
         rewrite rev_app_distr, Hrev, Hr', Hx, <- !app_assoc in Hk.
         apply app_inv_head in Hk. simpl in Hk. congruence. }
    assert (Z.of_nat (length g)
            = Z.of_nat (length y) + 1 + Z.of_nat (length r')) as Hlg.
    { rewrite <- (length_rev g), Hrev, Hr', length_app. simpl. lia. }
    destruct Hd' as [[-> ->]|(d' & -> & ->)].
    + cbn [suffix_loop start end_ firstNonSlashEnd]. simpl in Hlen'.
      destruct (Z.eqb_spec 0 len); [lia|].
      destruct (Z.eqb_spec len (-1)); [lia|].
      simpl. rewrite slice_whole by lia. apply firstn_all2. lia.
    + cbn [suffix_loop start end_ firstNonSlashEnd matchedSlash negb].
      rewrite Ascii.eqb_refl. cbn [start end_ firstNonSlashEnd].
      rewrite length_app in Hlen'. simpl in Hlen'.
      destruct (Z.eqb_spec (len - 1 - Z.of_nat (length y) - 1
                            - Z.of_nat (length r') + 1) len); [lia|].
      destruct (Z.eqb_spec len (-1)); [lia|].
      replace (len - 1 - Z.of_nat (length y) - 1 - Z.of_nat (length r') + 1)
        with (Z.of_nat (length (d' ++ [slash])))
        by (rewrite length_app; simpl in *; lia).
      replace len with (Z.of_nat (length (d' ++ [slash]))
                        + Z.of_nat (length g))
        by (rewrite length_app; simpl; lia).
      rewrite slice_app by lia. rewrite Nat2Z.id. apply firstn_all.
Qed.

End BasenameSpec.

Section BasenameStrings.
Import JsString path.

Lemma chars_of_chars l : chars (of_chars l) = l.
Proof. apply String.list_ascii_of_string_of_list_ascii. Qed.

Lemma of_chars_chars s : of_chars (chars s) = s.
Proof. apply String.string_of_list_ascii_of_string. Qed.

Lemma chars_app a b : chars (a +:+ b) = chars a ++ chars b.
Proof. unfold chars. induction a; simpl; [done|]. by f_equal. Qed.

Lemma of_chars_app a b : of_chars (a ++ b) = of_chars a +:+ of_chars b.
Proof.
  unfold of_chars. induction a as [|c a IH]; simpl; [done|].
  rewrite IH. reflexivity.
Qed.

Lemma chars_inj a b : chars a = chars b → a = b.
Proof. intros H%(f_equal of_chars). by rewrite !of_chars_chars in H. Qed.

Lemma units_of_bytes_app a b :
  units_of_bytes (a ++ b) = units_of_bytes a + units_of_bytes b.
Proof. induction a as [|c a IH]; simpl; [done|]. rewrite IH. lia. Qed.

Lemma units_of_bytes_nil l : 0 < units_of_bytes l → l ≠ [].
Proof. intros H ->. simpl in H. lia. Qed.

Local Open Scope Z_scope.

(** The branch of [basename] without a suffix, on a path that ends with
    a segment. *)
Lemma plain_branch d g :
  g ≠ [] → Forall (λ c, c ≠ slash) g →
  d = [] ∨ (∃ d', d = d' ++ [slash]) →
  let len := Z.of_nat (length (d ++ g)) in
  let st := plain_loop (rev (d ++ g)) (len - 1) (Scan 0 (-1) true (-1) (-1)) in
  end_ st ≠ -1 ∧ slice (d ++ g) (start st) (end_ st) = g.
Proof.
  intros Hg Hfree Hd len st. subst st.
  rewrite rev_app_distr.
  destruct (rev_cons_inv g Hg) as (c0 & r0 & Hrev).
  pose proof (Forall_rev_2 _ _ Hfree) as Hrfree.
  assert (Z.of_nat (length g) = 1 + Z.of_nat (length r0)) as Hlen.
  { rewrite <- (length_rev g), Hrev. simpl. lia. }
  assert (len = Z.of_nat (length d) + Z.of_nat (length g)) as Hlen'.
  { unfold len. rewrite length_app. lia. }
  rewrite Hrev in Hrfree |- *.
  apply Forall_cons in Hrfree as [Hc0 Hr0].
  cbn [app plain_loop]. rewrite (eqb_slash c0 Hc0). cbn [end_ start].
  simpl Z.eqb. cbn iota.
  rewrite plain_loop_run by (done || (simpl; lia)).
  destruct Hd as [->|[d' ->]].
  - simpl in Hlen'. simpl. split; [lia|].
    rewrite slice_whole by lia. apply firstn_all2. lia.
  - rewrite rev_app_distr. cbn [rev app plain_loop matchedSlash negb].
    rewrite Ascii.eqb_refl. cbn [start end_].
    split; [lia|].
    replace (len - 1 - 1 - Z.of_nat (length r0) + 1)
      with (Z.of_nat (length (d' ++ [slash]))) by lia.
    replace (len - 1 + 1) with (Z.of_nat (length (d' ++ [slash]))
                                + Z.of_nat (length g)) by lia.
    rewrite slice_app by lia. rewrite Nat2Z.id. apply firstn_all.
Qed.

Local Close Scope Z_scope.

(** [basename] on a path that ends with a segment [g]. *)
Lemma basename_segment d g ext :
  g ≠ [] → Forall (λ c, c ≠ slash) g →
  d = [] ∨ (∃ d', d = d' ++ [slash]) →
  basename (of_chars (d ++ g)) ext
  = if decide (0 < units ext) then
      if decide (of_chars (d ++ g) = ext) then ""
      else of_chars (chop g (chars ext))
    else of_chars g.
Proof.
  intros Hg Hfree Hd. unfold basename, units. rewrite chars_of_chars.
  destruct (decide (0 < units_of_bytes (chars ext))) as [Hpos|Hzero].
  - assert ((0 <? units_of_bytes (chars ext)) = true) as ->
      by by apply Nat.ltb_lt.
    destruct (Nat.leb_spec (units_of_bytes (chars ext))
                (units_of_bytes (d ++ g))) as [Hle|Hgt]; cbn [andb].
    + destruct (String.eqb_spec ext (of_chars (d ++ g))) as [->|Hne].
      { by rewrite decide_True. }
      rewrite decide_False by done. f_equal.
      apply suffix_branch; try done.
      * by apply units_of_bytes_nil.
      * intros Heq. apply Hne. by rewrite Heq, of_chars_chars.
    + destruct (plain_branch d g Hg Hfree Hd) as [Hend Hslice].
      apply Z.eqb_neq in Hend. cbv zeta. rewrite Hend, Hslice.
      rewrite decide_False.
      2: { intros <-. rewrite chars_of_chars in Hgt. lia. }
      rewrite chop_keep; [done|]. intros [[k ->] _].
      rewrite !units_of_bytes_app in Hgt. lia.
  - assert ((0 <? units_of_bytes (chars ext)) = false) as ->
      by by apply Nat.ltb_ge; lia.
    cbn [andb].
    destruct (plain_branch d g Hg Hfree Hd) as [Hend Hslice].
    apply Z.eqb_neq in Hend. cbv zeta. by rewrite Hend, Hslice.
Qed.

(** A path that does not end with a slash ends with a segment. *)
Lemma last_segment (p : list ascii) :
  p ≠ [] → last p ≠ Some slash →
  ∃ d g, p = d ++ g ∧ g ≠ [] ∧ Forall (λ c, c ≠ slash) g
         ∧ (d = [] ∨ ∃ d', d = d' ++ [slash]).
Proof.
  induction p as [|c p IH] using rev_ind; [done|]. intros _ Hlast.
  rewrite last_snoc in Hlast.
  assert (c ≠ slash) as Hc by congruence.
  destruct (decide (p = [])) as [->|Hp].
  { exists [], [c]. repeat split; try done; [by repeat constructor|by left]. }
  destruct (decide (last p = Some slash)) as [Hslash|Hno].
  - exists p, [c]. repeat split; try done; [by repeat constructor|right].
    apply last_Some in Hslash as [p' ->]. by exists p'.
  - destruct (IH Hp Hno) as (d & g & -> & Hg & Hfree & Hd).
    exists d, (g ++ [c]). rewrite <- app_assoc. repeat split; try done.
    + by destruct g.
    + apply Forall_app. split; [done|by repeat constructor].
Qed.

Lemma chop_free g e :
  Forall (λ c, c ≠ slash) g → Forall (λ c, c ≠ slash) (chop g e).
Proof.
  intros Hg. unfold chop. destruct (decide _); [|done]. by apply Forall_take.
Qed.

End BasenameStrings.

Section Basename.
Import JsString path.

Lemma basename_slash_segment dir name ext :
  name ≠ "" → no_slash name → no_slash ext →
  path.basename (dir +:+ "/" +:+ name) ext
  = if decide (0 < units ext) then of_chars (chop (chars name) (chars ext))
    else name.
Proof.
  intros Hne Hname Hext.
  replace (dir +:+ "/" +:+ name)
    with (of_chars ((chars dir ++ [slash]) ++ chars name)).
  2: { rewrite <- app_assoc, !of_chars_app, !of_chars_chars. done. }
  rewrite basename_segment; [| |done|right; by eexists].
  2: { intros H%(f_equal of_chars). by rewrite of_chars_chars in H. }
  destruct (decide (0 < units ext)); [|by rewrite of_chars_chars].
  rewrite decide_False; [done|]. intros <-.
  unfold no_slash in Hext. fold (chars (of_chars ((chars dir ++ [slash]) ++ chars name))) in Hext.
  rewrite chars_of_chars in Hext.
  apply Forall_app in Hext as [Hext _]. apply Forall_app in Hext as [_ Hext].
  by apply Forall_cons in Hext as [? _].
Qed.

(** The base name of a file does not depend on its directory. *)
Lemma basename_dir dir name ext :
  name ≠ "" → no_slash name → no_slash ext →
  path.basename (dir +:+ "/" +:+ name) ext = path.basename ("/" +:+ name) ext.
Proof.
  intros Hne Hname Hext.
  rewrite (basename_slash_segment dir) by done.
  symmetry. by apply (basename_slash_segment "" name ext).
Qed.

End Basename.

Section Join.
Import JsString path.

Lemma segments_snoc X :
  ∃ init l, segments X = init ++ [l]
    ∧ ∀ t, Forall (λ c, c ≠ slash) t → segments (X ++ t) = init ++ [l ++ t].
Proof.
  induction X as [|c X (init & l & HX & IH)].
  - exists [], []. split; [done|]. intros t Ht. simpl.
    induction Ht as [|c t Hc Ht IHt]; [done|].
    simpl. rewrite (eqb_slash c Hc), IHt. done.
  - simpl. destruct (Ascii.eqb c slash).
    + exists ([] :: init), l. rewrite HX. split; [done|].
      intros t Ht. by rewrite IH.
    + destruct init as [|seg init].
      * exists [], (c :: l). rewrite HX. split; [done|].
        intros t Ht. by rewrite IH.
      * exists ((c :: seg) :: init), l. rewrite HX. split; [done|].
        intros t Ht. by rewrite IH.
Qed.

Lemma joined_snoc L y :
  joined (L ++ [y])
  = match L with [] => y | _ => joined L ++ slash :: y end.
Proof.
  induction L as [|x L IH]; [done|].
  destruct L as [|x' L]; [done|].
  change (joined ((x :: x' :: L) ++ [y]))
    with (x ++ slash :: joined ((x' :: L) ++ [y])).
  rewrite IH. change (joined (x :: x' :: L)) with (x ++ slash :: joined (x' :: L)).
  by rewrite <- app_assoc.
Qed.

Lemma resolve_name allow res seg :
  "_"%char ∈ seg → resolve allow res seg = seg :: res.
Proof.
  intros Hin. unfold resolve.
  rewrite decide_False.
  2: { intros [->| ->]; [by apply elem_of_nil in Hin|].
       by apply list_elem_of_singleton in Hin. }
  rewrite decide_False; [done|]. intros ->.
  apply elem_of_cons in Hin as [|Hin]; [done|].
  by apply list_elem_of_singleton in Hin.
Qed.

Lemma normalize_nonempty p q :
  p ≠ [] →
  normalizeString p (negb (bool_decide (head p = Some slash))) = q →
  q ≠ [] →
  normalize p
  = (if bool_decide (head p = Some slash) then [slash] else [])
    ++ q ++ (if bool_decide (last p = Some slash) then [slash] else []).
Proof.
  intros Hp <- Hq. unfold normalize. destruct p; [done|].
  by destruct (normalizeString _ _).
Qed.

(** Normalising a path that ends with a name starting with an
    underscore leaves that name at the end, after a part that depends on
    the rest of the path only. *)
Lemma normalize_name X :
  ∃ C, ∀ rest, Forall (λ c, c ≠ slash) rest →
    normalize (X ++ "_"%char :: rest) = C ++ "_"%char :: rest.
Proof.
  destruct (segments_snoc X) as (init & l & _ & Hseg).
  set (abs := match X with [] => false | c :: _ => bool_decide (c = slash) end).
  set (S := foldl (resolve (negb abs)) [] init).
  exists ((if abs then [slash] else [])
          ++ match rev S with [] => l | _ => joined (rev S) ++ slash :: l end).
  intros rest Hrest.
  assert (Forall (λ c, c ≠ slash) ("_"%char :: rest)) as Ht
    by (by constructor).
  assert (bool_decide (head (X ++ "_"%char :: rest) = Some slash) = abs) as Habs.
  { unfold abs. destruct X as [|c X]; simpl; [done|].
    apply bool_decide_ext. split; congruence. }
  assert (bool_decide (last (X ++ "_"%char :: rest) = Some slash) = false)
    as Htrail.
  { apply bool_decide_eq_false. rewrite last_app. simpl.
    destruct (last ("_"%char :: rest)) as [c|] eqn:Hlast.
    2: { rewrite last_cons in Hlast. by destruct (last rest). }
    intros [= ->]. apply last_Some_elem_of in Hlast.
    by eapply Forall_forall in Ht. }
  rewrite (normalize_nonempty _
             (match rev S with [] => l | _ => joined (rev S) ++ slash :: l end
              ++ "_"%char :: rest)).
  - by rewrite Habs, Htrail, app_nil_r, <- app_assoc.
  - by destruct X.
  - rewrite Habs. unfold normalizeString. rewrite (Hseg _ Ht), foldl_app. simpl.
    fold S. rewrite resolve_name.
    2: { apply elem_of_app. right. by left. }
    simpl. rewrite joined_snoc. destruct (rev S); [done|].
    by rewrite <- app_assoc.
  - intros H%(f_equal (@length ascii)). rewrite length_app in H. simpl in H. lia.
Qed.

Lemma join_name_inj a b t1 t2 :
  Forall (λ c, c ≠ slash) (chars t1) → Forall (λ c, c ≠ slash) (chars t2) →
  path.join a (b +:+ "_" +:+ t1) = path.join a (b +:+ "_" +:+ t2) → t1 = t2.
Proof.
  intros H1 H2. unfold join.
  assert (∃ X, ∀ t,
            match chars a, chars (b +:+ "_" +:+ t) with
            | [], l | l, [] => l
            | la, lb => la ++ slash :: lb
            end = X ++ "_"%char :: chars t) as [X HX].
  { destruct (chars a) as [|c la] eqn:Ha.
    - exists (chars b). intros t. by rewrite !chars_app.
    - exists ((c :: la) ++ slash :: chars b). intros t. rewrite !chars_app.
      destruct (chars b); simpl; by rewrite <- ?app_assoc. }
  rewrite !HX. destruct (normalize_name X) as [C HC].
  rewrite !HC by done.
  intros Heq%(f_equal chars). rewrite !chars_of_chars in Heq.
  apply app_inv_head in Heq. injection Heq as Heq. by apply chars_inj.
Qed.

End Join.
(* ===================================================================== *)
(** ** Strings: bytes of UTF-8 and code units of UTF-16 *)
(* ===================================================================== *)

Section Encodings.
Import JsString.

Local Open Scope Z_scope.

Lemma utf8_cases u :
  scalar u →
  (u < 128 ∧ utf8 u = [u])
  ∨ (∃ a b, 128 ≤ u < 2048 ∧ u = 64 * a + b ∧ 2 ≤ a < 32 ∧ 0 ≤ b < 64
            ∧ utf8 u = [192 + a; 128 + b])
  ∨ (∃ a b c, 2048 ≤ u < 65536 ∧ u = 4096 * a + 64 * b + c
              ∧ 0 ≤ a < 16 ∧ 0 ≤ b < 64 ∧ 0 ≤ c < 64
              ∧ utf8 u = [224 + a; 128 + b; 128 + c])
  ∨ (∃ a b c d, 65536 ≤ u < 1114112 ∧ u = 262144 * a + 4096 * b + 64 * c + d
                ∧ 0 ≤ a < 5 ∧ 0 ≤ b < 64 ∧ 0 ≤ c < 64 ∧ 0 ≤ d < 64
                ∧ utf8 u = [240 + a; 128 + b; 128 + c; 128 + d]).
Proof.
  intros Hu. unfold utf8, scalar in *.
  destruct (Z.ltb_spec u 128); [by left|right].
  destruct (Z.ltb_spec u 2048).
  { left. exists (u / 64), (u mod 64). repeat split; try done;
      Z.div_mod_to_equations; lia. }
  right. destruct (Z.ltb_spec u 65536).
  { left. exists (u / 4096), ((u / 64) mod 64), (u mod 64).
    repeat split; try done; Z.div_mod_to_equations; lia. }
  right. exists (u / 262144), ((u / 4096) mod 64), ((u / 64) mod 64), (u mod 64).
  repeat split; try done; Z.div_mod_to_equations; lia.
Qed.

Lemma utf16_cases u :
  scalar u →
  (u < 65536 ∧ utf16 u = [u])
  ∨ (∃ h l, 65536 ≤ u ∧ u - 65536 = 1024 * h + l ∧ 0 ≤ h < 1024 ∧ 0 ≤ l < 1024
            ∧ utf16 u = [55296 + h; 56320 + l]).
Proof.
  intros Hu. unfold utf16, scalar in *.
  destruct (Z.ltb_spec u 65536); [by left|right].
  exists ((u - 65536) / 1024), ((u - 65536) mod 1024).
  repeat split; try done; Z.div_mod_to_equations; lia.
Qed.

Lemma byte_rank_eq b :
  0 ≤ b < 256 →
  byte_rank b = if (b =? 238) || (b =? 239) then b + 256 else b.
Proof.
  intros Hb. unfold byte_rank, rank, byte.
  rewrite N_ascii_embedding by lia.
  destruct (Z.eqb_spec b 238) as [->|]; [done|].
  destruct (Z.eqb_spec b 239) as [->|]; [done|].
  destruct (N.eqb_spec (Z.to_N b) 238); [lia|].
  destruct (N.eqb_spec (Z.to_N b) 239); [lia|].
  simpl. lia.
Qed.

Lemma compare_units_bytes l l' :
  compare_units (of_chars (byte <$> l)) (of_chars (byte <$> l'))
  = compare_lists (byte_rank <$> l) (byte_rank <$> l').
Proof.
  revert l'. induction l as [|b l IH]; intros [|b' l']; simpl; try done.
  unfold byte_rank at 1 2. rewrite N2Z.inj_compare.
  destruct (rank (byte b) ?= rank (byte b'))%N; [apply IH|done|done].
Qed.

Lemma compare_lists_app x r r' :
  compare_lists (x ++ r) (x ++ r') = compare_lists r r'.
Proof. induction x as [|a x IH]; simpl; [done|]. by rewrite Z.compare_refl. Qed.

(** Two different characters compare the same way by their code units
    and by their places. *)
Lemma utf16_place u v r r' :
  scalar u → scalar v → u ≠ v →
  compare_lists (utf16 u ++ r) (utf16 v ++ r') = (place u ?= place v).
Proof.
  intros Hu Hv Hne. pose proof Hu as Hu'. pose proof Hv as Hv'.
  unfold scalar in Hu', Hv'.
  destruct (utf16_cases u Hu) as [[? ->]|(h & l & ? & ? & ? & ? & ->)];
    destruct (utf16_cases v Hv) as [[? ->]|(h' & l' & ? & ? & ? & ? & ->)];
    simpl; unfold place; place_cases.
Qed.

(** And so do their bytes, by rank. *)
Lemma utf8_place u v r r' :
  scalar u → scalar v → u ≠ v →
  compare_lists (byte_rank <$> utf8 u ++ r) (byte_rank <$> utf8 v ++ r')
  = (place u ?= place v).
Proof.
  intros Hu Hv Hne. pose proof Hu as Hu'. pose proof Hv as Hv'.
  unfold scalar in Hu', Hv'.
  destruct (utf8_cases u Hu)
    as [[? ->]|[(a & b & ? & ? & ? & ? & ->)
               |[(a & b & c & ? & ? & ? & ? & ? & ->)
                |(a & b & c & d & ? & ? & ? & ? & ? & ? & ->)]]];
    destruct (utf8_cases v Hv)
      as [[? ->]|[(a' & b' & ? & ? & ? & ? & ->)
                 |[(a' & b' & c' & ? & ? & ? & ? & ? & ->)
                  |(a' & b' & c' & d' & ? & ? & ? & ? & ? & ? & ->)]]];
    simpl; rewrite !byte_rank_eq by lia; unfold place; place_cases.
Qed.

Lemma utf8_nonempty u r : ∃ b l, utf8 u ++ r = b :: l.
Proof.
  unfold utf8.
  destruct (u <? 128); [by eexists _, _|].
  destruct (u <? 2048); [by eexists _, _|].
  destruct (u <? 65536); by eexists _, _.
Qed.

Lemma utf16_nonempty u r : ∃ b l, utf16 u ++ r = b :: l.
Proof. unfold utf16. destruct (u <? 65536); by eexists _, _. Qed.

Lemma units_of_byte_eq b :
  0 ≤ b < 256 →
  units_of_byte (byte b)
  = if b <? 128 then 1%nat else if b <? 192 then 0%nat
    else if b <? 240 then 1%nat else 2%nat.
Proof.
  intros Hb. unfold units_of_byte, byte.
  rewrite N_ascii_embedding by lia.
  destruct (Z.ltb_spec b 128), (N.ltb_spec (Z.to_N b) 128); try lia.
  destruct (Z.ltb_spec b 192), (N.ltb_spec (Z.to_N b) 192); try lia.
  destruct (Z.ltb_spec b 240), (N.ltb_spec (Z.to_N b) 240); lia.
Qed.

Lemma units_of_character u :
  scalar u → units_of_bytes (byte <$> utf8 u) = length (utf16 u).
Proof.
  intros Hu. pose proof Hu as Hu'. unfold scalar in Hu'.
  destruct (utf8_cases u Hu)
    as [[? ->]|[(a & b & ? & ? & ? & ? & ->)
               |[(a & b & c & ? & ? & ? & ? & ? & ->)
                |(a & b & c & d & ? & ? & ? & ? & ? & ? & ->)]]];
    destruct (utf16_cases u Hu) as [[? ->]|(h & l & ? & ? & ? & ? & ->)];
    try lia; simpl; rewrite !units_of_byte_eq by lia;
    repeat match goal with
      | |- context [Z.ltb ?a ?b] => destruct (Z.ltb_spec a b); try lia
      end.
Qed.

End Encodings.

(** The strings of this development and the strings of JavaScript: on
    the bytes that hold two texts, [compare_units] compares as the code
    units of the texts do, and [units] counts the code units. *)
Lemma compare_units_utf16 s t :
  Forall JsString.scalar s → Forall JsString.scalar t →
  JsString.compare_units (JsString.encode s) (JsString.encode t)
  = JsString.compare_lists (JsString.code_units s) (JsString.code_units t).
Proof.
  unfold JsString.encode, JsString.code_units.
  rewrite compare_units_bytes.
  intros Hs. revert t. induction Hs as [|u s Hu Hs IH]; intros t Ht.
  - destruct Ht as [|v t Hv Ht]; [done|]. rewrite !bind_cons.
    destruct (utf8_nonempty v (t ≫= JsString.utf8)) as (b & l & ->).
    by destruct (utf16_nonempty v (t ≫= JsString.utf16)) as (b' & l' & ->).
  - destruct Ht as [|v t Hv Ht]; rewrite !bind_cons.
    { destruct (utf8_nonempty u (s ≫= JsString.utf8)) as (b & l & ->).
      by destruct (utf16_nonempty u (s ≫= JsString.utf16)) as (b' & l' & ->). }
    destruct (decide (u = v)) as [->|Hne].
    + rewrite !fmap_app, !compare_lists_app. by apply IH.
    + by rewrite utf8_place, utf16_place.
Qed.

Lemma units_utf16 s :
  Forall JsString.scalar s →
  JsString.units (JsString.encode s) = length (JsString.code_units s).
Proof.
  unfold JsString.units, JsString.encode, JsString.code_units.
  rewrite chars_of_chars.
  induction 1 as [|u s Hu Hs IH]; [done|]. rewrite !bind_cons.
  rewrite fmap_app, units_of_bytes_app, length_app, IH.
  by rewrite units_of_character.
Qed.
(* ===================================================================== *)
(** ** Strings: numerals, padding, names *)
(* ===================================================================== *)

Section Numerals.
Import JsString.

Lemma of_nat_nonempty n : of_nat n ≠ "".
Proof.
  unfold of_nat, NilZero.string_of_uint.
  destruct (Nat.to_uint n); discriminate.
Qed.

Lemma nilzero_nilempty s :
  s ≠ "" → NilZero.uint_of_string s = NilEmpty.uint_of_string s.
Proof. destruct s; [congruence | reflexivity]. Qed.

Lemma to_nat_of_nat n : to_nat (of_nat n) = Some n.
Proof.
  unfold to_nat, of_nat.
  assert (Nat.to_uint n = Decimal.Nil ∨ Nat.to_uint n ≠ Decimal.Nil)
    as [Hd|Hd] by (destruct (Nat.to_uint n); (by left) || (by right)).
  - pose proof (Unsigned.of_to n) as Hn. rewrite Hd in Hn |- *.
    simpl in *. by subst n.
  - rewrite NilZero.usu by done. simpl. f_equal. apply Unsigned.of_to.
Qed.

Lemma of_uint_D0 d : Nat.of_uint (Decimal.D0 d) = Nat.of_uint d.
Proof. reflexivity. Qed.

(** Leading zeros do not change the number read. *)
Lemma zeros_in_front k cur s d :
  cur = "" ∨ cur = "0" →
  NilEmpty.uint_of_string s = Some d →
  ∃ d', NilEmpty.uint_of_string (fill_chars "0" cur k +:+ s) = Some d'
        ∧ Nat.of_uint d' = Nat.of_uint d.
Proof.
  revert cur. induction k as [|k IH]; intros cur Hcur Hs; simpl.
  - eauto.
  - destruct Hcur as [-> | ->]; simpl.
    + destruct (IH "" (or_introl eq_refl) Hs) as (d' & -> & Hd').
      exists (Decimal.D0 d'). by rewrite of_uint_D0.
    + destruct (IH "" (or_introl eq_refl) Hs) as (d' & -> & Hd').
      exists (Decimal.D0 d'). by rewrite of_uint_D0.
Qed.

Lemma append_nonempty_r s t : t ≠ "" → s +:+ t ≠ "".
Proof. destruct s; [done|]. intros _ H. discriminate H. Qed.

Lemma to_nat_padStart n : to_nat (padStart 2 "0" (of_nat n)) = Some n.
Proof.
  unfold padStart.
  destruct ((2 <=? String.length (of_nat n))%nat || String.eqb "0" "");
    [apply to_nat_of_nat|].
  pose proof (to_nat_of_nat n) as Hn. unfold to_nat in *.
  pose proof (of_nat_nonempty n) as Hne.
  rewrite nilzero_nilempty in Hn by done.
  destruct (NilEmpty.uint_of_string (of_nat n)) as [d|] eqn:Hd; [|done].
  destruct (zeros_in_front (2 - String.length (of_nat n)) "0" _ d
              (or_intror eq_refl) Hd) as (d' & Hd' & Heq).
  rewrite nilzero_nilempty by by apply append_nonempty_r.
  rewrite Hd'. simpl in *. congruence.
Qed.

Lemma padStart_of_nat_inj n m :
  padStart 2 "0" (of_nat n) = padStart 2 "0" (of_nat m) → n = m.
Proof.
  intros H. pose proof (to_nat_padStart n) as Hn.
  rewrite H, to_nat_padStart in Hn. congruence.
Qed.

(** A padded index is at least two characters long. *)
Lemma padStart_length n : 2 ≤ String.length (padStart 2 "0" (of_nat n)).
Proof.
  unfold padStart.
  destruct (2 <=? String.length (of_nat n))%nat eqn:Hlen; simpl.
  - by apply Nat.leb_le.
  - apply Nat.leb_gt in Hlen.
    pose proof (of_nat_nonempty n).
    destruct (of_nat n) as [|a [|b s]]; simpl in *; [done| lia | lia].
Qed.

End Numerals.

Lemma append_inj_r (s t u : string) : t +:+ s = u +:+ s → t = u.
Proof.
  intros H.
  assert (Hl : ∀ a b, String.list_ascii_of_string (a +:+ b)
               = String.list_ascii_of_string a ++ String.list_ascii_of_string b).
  { induction a; intros; simpl; [done|]. by f_equal. }
  apply (f_equal String.list_ascii_of_string) in H.
  rewrite !Hl in H. apply app_inv_tail in H.
  apply (f_equal String.string_of_list_ascii) in H.
  by rewrite !String.string_of_list_ascii_of_string in H.
Qed.

Lemma imageName_inj fileName i j :
  imageName fileName i = imageName fileName j → i = j.
Proof.
  unfold imageName. intros H.
  apply (inj (String.app fileName)) in H.
  apply (inj (String.app "_page_")) in H.
  apply append_inj_r in H.
  apply padStart_of_nat_inj in H. lia.
Qed.

Section Digits.
Import JsString.

(** A character that is not a decimal digit does not occur in a padded
    index. *)
Variable x : ascii.
Hypothesis Hx : x ∉ String.list_ascii_of_string "0123456789".

Lemma uint_digits d :
  Forall (λ c, c ≠ x)
    (String.list_ascii_of_string (NilEmpty.string_of_uint d)).
Proof.
  induction d; simpl; constructor; try done; intros Heq; apply Hx;
    rewrite <- Heq; simpl; rewrite !elem_of_cons; tauto.
Qed.

Lemma of_nat_digits n :
  Forall (λ c, c ≠ x) (String.list_ascii_of_string (of_nat n)).
Proof.
  unfold of_nat, NilZero.string_of_uint.
  destruct (Nat.to_uint n) eqn:Hd; rewrite <- ?Hd; try apply uint_digits.
  simpl. repeat constructor. intros Heq. apply Hx. rewrite <- Heq. simpl. by left.
Qed.

Lemma zeros_digits cur k :
  cur = "" ∨ cur = "0" →
  Forall (λ c, c ≠ x)
    (String.list_ascii_of_string (fill_chars "0" cur k)).
Proof.
  assert ("0"%char ≠ x) as H0.
  { intros Heq. apply Hx. rewrite <- Heq. simpl. by left. }
  revert cur. induction k as [|k IH]; intros cur Hcur; simpl; [done|].
  destruct Hcur as [-> | ->]; simpl; constructor; try done; apply IH; by left.
Qed.

Lemma padStart_digits n :
  Forall (λ c, c ≠ x)
    (String.list_ascii_of_string (padStart 2 "0" (of_nat n))).
Proof.
  unfold padStart.
  destruct ((2 <=? String.length (of_nat n))%nat || String.eqb "0" "");
    [apply of_nat_digits|].
  assert (∀ a b, String.list_ascii_of_string (a +:+ b)
               = String.list_ascii_of_string a ++ String.list_ascii_of_string b)
    as Happ.
  { induction a; intros; simpl; [done|]. by f_equal. }
  rewrite Happ. apply Forall_app. split; [|apply of_nat_digits].
  apply zeros_digits. by right.
Qed.

End Digits.

Lemma not_a_digit (x : ascii) :
  (x =? "_")%char || (x =? "/")%char = true →
  x ∉ String.list_ascii_of_string "0123456789".
Proof.
  intros Hx Hin. simpl in Hin. rewrite !elem_of_cons in Hin.
  rewrite elem_of_nil in Hin.
  repeat (destruct Hin as [->|Hin]; [done|]). done.
Qed.

Lemma timed_app prev a b :
  timed prev (a ++ b) ↔ timed prev a ∧ timed (last_event prev a) b.
Proof.
  revert prev. induction a as [|x a IH]; intros prev; simpl.
  - unfold last_event. simpl. tauto.
  - rewrite IH. unfold last_event. rewrite last_cons.
    destruct (last a); tauto.
Qed.

Lemma last_event_app prev a b :
  last_event prev (a ++ b) = last_event (last_event prev a) b.
Proof.
  unfold last_event. rewrite last_app. by destruct (last b), (last a).
Qed.

(** An event in a timed trace obeys [ok_next] with respect to the event
    just before it. *)
Lemma timed_at prev pre ev post :
  timed prev (pre ++ ev :: post) → ok_next (last_event prev pre) ev.
Proof. rewrite timed_app. simpl. tauto. Qed.

Lemma since_app w w' tr : trace w' = trace w ++ tr → since w w' = tr.
Proof. unfold since. intros ->. by rewrite drop_app_length. Qed.

Lemma printed_app w w' lines :
  console w' = console w ++ lines → printed w w' = lines.
Proof. unfold printed. intros ->. by rewrite drop_app_length. Qed.

Lemma last_event_cons prev x tr :
  last_event prev (x :: tr) = last_event (Some x) tr.
Proof. unfold last_event. rewrite last_cons. by destruct (last tr). Qed.

Lemma last_event_snoc prev tr x : last_event prev (tr ++ [x]) = Some x.
Proof. unfold last_event. by rewrite last_snoc. Qed.

Section Loop.

Variable E : env.
Variable CONFIG : config.

(** The capture loop leaves the handles and the loaded documents alone. *)
Lemma screenshotLoop_frame page fileName total elements i w :
  let w' := (screenshotLoop E CONFIG page fileName total elements i w).2 in
  fresh w' = fresh w ∧ browsers w' = browsers w ∧ contexts w' = contexts w
  ∧ pages w' = pages w ∧ loaded w' = loaded w.
Proof.
  revert i w. induction elements as [|el rest IH]; intros i w; simpl; [done|].
  io_run; simpl; try done.
  match goal with |- context [screenshotLoop _ _ _ _ _ _ _ ?w1] =>
    destruct (IH (i + 1) w1) as (-> & -> & -> & -> & ->) end.
  done.
Qed.

(** It prints only [PageDone] lines. *)
Lemma screenshotLoop_console page fileName total elements i w :
  ∃ lines,
    console (screenshotLoop E CONFIG page fileName total elements i w).2
    = console w ++ lines
    ∧ processing lines = [] ∧ errors lines = []
    ∧ (elements = [] → lines = []).
Proof.
  revert i w. induction elements as [|el rest IH]; intros i w; simpl.
  { exists []. by rewrite app_nil_r. }
  io_run; simpl; try (exists []; by rewrite app_nil_r).
  match goal with |- context [screenshotLoop _ _ _ _ _ _ _ ?w1] =>
    destruct (IH (i + 1) w1) as (lines & -> & ? & ? & _) end.
  simpl. rewrite <- app_assoc. eexists. split; [reflexivity|]. simpl. done.
Qed.

(** Its events obey the timing discipline: each capture is asked for right
    after a completed 500 ms wait. *)
Lemma screenshotLoop_timed page fileName total elements i w prev :
  Forall (λ el, loc_page el = page) elements →
  settled prev →
  ∃ tr,
    trace (screenshotLoop E CONFIG page fileName total elements i w).2
    = trace w ++ tr
    ∧ timed prev tr ∧ settled (last_event prev tr) ∧ no_goto tr.
Proof.
  intros Hpage. revert i w prev.
  induction Hpage as [|el rest Hel Hrest IH]; intros i w prev Hprev; simpl.
  { exists []. rewrite app_nil_r. repeat split; try done.
    intros ????? Hin. by apply elem_of_nil in Hin. }
  io_run_quiet; simpl.
  - eexists [_]. split; [done|]. split; [|split; [done|no_goto_tac]].
    simpl. split; [|done]. ok_next_tac.
  - rewrite <- app_assoc. eexists [_; _].
    split; [done|]. split; [|split; [done|no_goto_tac]].
    simpl. repeat split; ok_next_tac.
  - rewrite <- !app_assoc. eexists [_; _; _].
    split; [done|]. split; [|split; [done|no_goto_tac]].
    simpl. repeat split; ok_next_tac.
  - match goal with |- context [screenshotLoop _ _ _ _ _ _ _ ?w1] =>
      destruct (IH (i + 1) w1
                  (Some (Screenshot el (outputPath CONFIG fileName i)
                           (imageFormat CONFIG), None)))
        as (tr & -> & Htr & Hlast & Hno) end; [done|].
    simpl. rewrite <- !app_assoc. simpl.
    eexists (_ :: _ :: _ :: tr). split; [done|]. split; [|split].
    + simpl. repeat split; ok_next_tac.
    + by rewrite !last_event_cons.
    + no_goto_tac.
Qed.

(** It closes no browser. *)
Lemma screenshotLoop_completed page fileName total elements i w :
  ∃ tr,
    trace (screenshotLoop E CONFIG page fileName total elements i w).2
    = trace w ++ tr
    ∧ completed tr = 0.
Proof.
  revert i w. induction elements as [|el rest IH]; intros i w; simpl.
  { exists []. by rewrite app_nil_r. }
  io_run_quiet; simpl; rewrite <- ?app_assoc; simpl;
    try by (eexists; split; [reflexivity|]).
  match goal with |- context [screenshotLoop _ _ _ _ _ _ _ ?w1] =>
    destruct (IH (i + 1) w1) as (tr & -> & Htr) end.
  simpl. rewrite <- !app_assoc. simpl.
  eexists (_ :: _ :: _ :: tr). split; [reflexivity|]. done.
Qed.

(** When nothing throws, it scrolls, waits and captures once per element,
    in order, and writes one file per element. *)
Lemma screenshotLoop_return page fileName total elements i w w' :
  Forall (λ el, loc_page el = page) elements →
  screenshotLoop E CONFIG page fileName total elements i w = (Return (), w') →
  trace w' = trace w ++ captures CONFIG page fileName elements i
  ∧ disk w' = written CONFIG (url_of page w) fileName elements i (disk w).
Proof.
  intros Hpage. revert i w.
  induction Hpage as [|el rest Hel Hrest IH]; intros i w; simpl.
  { intros [= <-]. by rewrite app_nil_r. }
  io_run; try done.
  intros Hrun. apply IH in Hrun as [-> ->]. simpl.
  rewrite <- !app_assoc. simpl. split; [done|].
  rewrite Hel. done.
Qed.

(** When no library call throws, the loop returns. *)
Lemma screenshotLoop_no_fault page fileName total elements i w :
  (∀ h c, fault E h c = None) →
  ∃ w', screenshotLoop E CONFIG page fileName total elements i w = (Return (), w').
Proof.
  intros Hquiet. revert i w.
  induction elements as [|el rest IH]; intros i w; simpl; [by eexists|].
  io_unfold. unfold perform. repeat (rewrite Hquiet; cbn beta iota).
  apply IH.
Qed.

End Loop.

Lemma completed_app a b : completed (a ++ b) = completed a + completed b.
Proof.
  induction a as [|[c [e|]] a IH]; simpl; try done; destruct c; simpl;
    by rewrite ?IH.
Qed.

Section Convert.

Variable E : env.
Variable CONFIG : config.

Lemma locators_page page n :
  Forall (λ el, loc_page el = page) (Locator page <$> seq 0 n).
Proof. apply Forall_fmap, Forall_forall. done. Qed.

(** The events of one conversion obey the timing discipline, whatever the
    libraries do, and every navigation goes to the file. *)
Lemma convert_timed htmlFilePath w prev :
  settled prev →
  ∃ tr,
    trace (convertHtmlToImages E CONFIG htmlFilePath w).2 = trace w ++ tr
    ∧ timed prev tr ∧ settled (last_event prev tr)
    ∧ (∀ p url wu t r, (Goto p url wu t, r) ∈ tr →
         url = "file://" +:+ htmlFilePath).
Proof.
  intros Hprev. unfold convertHtmlToImages. io_run_quiet.
  1-6: simpl; rewrite <- ?app_assoc; simpl; eexists; split; [reflexivity|];
    split; [simpl; repeat split; ok_next_tac|];
    split; [done|goto_in_tac].
  loop_cases ltac:(fun p f t els i w1 =>
    destruct (screenshotLoop_timed E CONFIG p f t els i w1
                (Some (LocatorAll p ".page", None)))
      as (tr & Htr & Htimed & Hlast & Hno);
    [apply locators_page | done |]).
  - io_run_quiet; simpl in *; rewrite Htr; rewrite <- ?app_assoc; simpl;
      (eexists; split; [reflexivity|]).
    all: split; [simpl; repeat split; ok_next_tac;
                 apply timed_app; split; [done|];
                 simpl; repeat split; ok_next_tac|].
    all: split; [by rewrite !last_event_cons, ?last_event_app|goto_in_tac].
  - simpl in *; rewrite Htr; rewrite <- ?app_assoc; simpl.
    eexists; split; [reflexivity|].
    split; [simpl; repeat split; ok_next_tac|].
    split; [by rewrite !last_event_cons|goto_in_tac].
Qed.

(** A conversion that returns: what it returns, the calls it made, the
    files it wrote, what it printed and the handles it left. *)
Lemma convert_return htmlFilePath w N w' :
  convertHtmlToImages E CONFIG htmlFilePath w = (Return N, w') →
  let page := S (S (fresh w)) in
  let fileName := path.basename htmlFilePath ".html" in
  let elements := Locator page <$> seq 0 N in
  N = located E (trace w ++ opening CONFIG htmlFilePath w) page ".page"
  ∧ trace w' = trace w ++ opening CONFIG htmlFilePath w
               ++ (LocatorAll page ".page", None)
               :: captures CONFIG page fileName elements 0 ++ teardown w
  ∧ disk w' = written CONFIG ("file://" +:+ htmlFilePath) fileName elements 0
                (disk w)
  ∧ (∃ lines, console w' = console w ++ Processing fileName :: FoundPages N :: lines
              ∧ processing lines = [] ∧ errors lines = []
              ∧ (N = 0 → lines = []))
  ∧ browsers w' = filter (λ h, h ≠ fresh w) (fresh w :: browsers w)
  ∧ contexts w' = filter (λ h, h ≠ S (fresh w)) (S (fresh w) :: contexts w)
  ∧ pages w' = filter (λ h, h ≠ page) (page :: pages w).
Proof.
  unfold convertHtmlToImages. io_run_quiet.
  1-6: by intros [=].
  loop_cases ltac:(fun p f t els i w1 =>
    pose proof (screenshotLoop_frame E CONFIG p f t els i w1) as Hframe;
    pose proof (screenshotLoop_console E CONFIG p f t els i w1) as Hcons;
    pose proof (screenshotLoop_return E CONFIG p f t els i w1) as Hret).
  2: by intros [=].
  specialize (Hret _ (locators_page _ _) eq_refl) as [Htr Hdisk].
  destruct Hframe as (Hfresh & Hb & Hc & Hp & Hl).
  destruct Hcons as (lines & Hlines & Hproc & Herr & Hnil).
  io_run_quiet; try by intros [=].
  intros [= <- <-]. simpl in *.
  rewrite length_fmap, length_seq in *.
  rewrite Htr, Hdisk, Hlines, Hb, Hc, Hp.
  unfold url_of. simpl. rewrite lookup_insert_eq. simpl.
  unfold opening, teardown. rewrite <- ?app_assoc. simpl.
  repeat split; try done.
  exists lines. repeat split; try done.
  intros HN. apply Hnil. rewrite <- ?app_assoc. simpl. by rewrite HN.
Qed.

(** Whatever happens, a conversion first prints which file it processes,
    and prints no other [Processing] line and no error line. *)
Lemma convert_console htmlFilePath w :
  ∃ lines,
    console (convertHtmlToImages E CONFIG htmlFilePath w).2
    = console w ++ Processing (path.basename htmlFilePath ".html") :: lines
    ∧ processing lines = [] ∧ errors lines = [].
Proof.
  unfold convertHtmlToImages. io_run_quiet.
  1-6: by (simpl; eexists; split; [reflexivity|]).
  loop_cases ltac:(fun p f t els i w1 =>
    destruct (screenshotLoop_console E CONFIG p f t els i w1)
      as (lines & Hlines & Hproc & Herr & _)).
  - io_run_quiet; simpl in *; rewrite Hlines, <- ?app_assoc; simpl;
      by (eexists; split; [reflexivity|]).
  - simpl in *. rewrite Hlines, <- ?app_assoc. simpl.
    by (eexists; split; [reflexivity|]).
Qed.

(** A conversion closes its browser, as its last call, exactly when it
    returns. *)
Lemma convert_completed htmlFilePath w :
  ∃ tr,
    trace (convertHtmlToImages E CONFIG htmlFilePath w).2 = trace w ++ tr
    ∧ completed tr
      = match (convertHtmlToImages E CONFIG htmlFilePath w).1 with
        | Return _ => 1
        | Throw _ => 0
        end.
Proof.
  unfold convertHtmlToImages. io_run_quiet.
  1-6: simpl; rewrite <- ?app_assoc; simpl;
    by (eexists; split; [reflexivity|]).
  loop_cases ltac:(fun p f t els i w1 =>
    destruct (screenshotLoop_completed E CONFIG p f t els i w1)
      as (tr & Htr & Hnone)).
  - io_run_quiet; simpl in *; rewrite Htr; rewrite <- ?app_assoc; simpl;
      (eexists; split; [reflexivity|]);
      simpl; rewrite completed_app, Hnone; done.
  - simpl in *. rewrite Htr. rewrite <- ?app_assoc. simpl.
    eexists. split; [reflexivity|]. simpl. done.
Qed.

(** Once its browser, its context and its page are there, a conversion
    navigates to the file. *)
Lemma convert_navigates htmlFilePath w :
  let session :=
    [(Launch, None);
     (NewContext (fresh w) (viewportWidth CONFIG) (viewportHeight CONFIG)
        (viewportScale CONFIG), None);
     (NewPage (S (fresh w)), None)] in
  (∀ k c, session !! k = Some (c, None) →
          fault E (trace w ++ take k session) c = None) →
  ∃ r post,
    trace (convertHtmlToImages E CONFIG htmlFilePath w).2
    = trace w ++ session
      ++ (Goto (S (S (fresh w))) ("file://" +:+ htmlFilePath) "networkidle" 60000, r)
      :: post.
Proof.
  intros session Hopen.
  pose proof (Hopen 0 _ eq_refl) as H0.
  pose proof (Hopen 1 _ eq_refl) as H1.
  pose proof (Hopen 2 _ eq_refl) as H2.
  simpl in H0, H1, H2. rewrite app_nil_r in H0.
  unfold convertHtmlToImages. io_unfold. unfold perform. simpl.
  rewrite H0. simpl.
  match goal with |- context [fault E ?h ?c] =>
    replace (fault E h c) with (@None exn) by (symmetry; exact H1) end.
  simpl. rewrite <- app_assoc. simpl.
  match goal with |- context [fault E ?h ?c] =>
    replace (fault E h c) with (@None exn) by (symmetry; exact H2) end.
  simpl.
  io_run_quiet.
  1-3: simpl; rewrite <- ?app_assoc; simpl; by eexists _, _.
  loop_cases ltac:(fun p f t els i w1 =>
    destruct (screenshotLoop_completed E CONFIG p f t els i w1)
      as (tr & Htr & _)).
  - io_run_quiet; simpl in *; rewrite Htr; rewrite <- ?app_assoc; simpl;
      by eexists _, _.
  - simpl in *. rewrite Htr. rewrite <- ?app_assoc. simpl. by eexists _, _.
Qed.

(** A conversion that throws after its browser was launched leaves that
    browser open. *)
Lemma convert_throw_leaks htmlFilePath w e w' :
  fault E (trace w) Launch = None →
  convertHtmlToImages E CONFIG htmlFilePath w = (Throw e, w') →
  fresh w ∈ browsers w'.
Proof.
  intros Hlaunch. unfold convertHtmlToImages. io_run.
  { simpl in *. congruence. }
  1-5: intros [= _ <-]; simpl; by left.
  loop_cases ltac:(fun p f t els i w1 =>
    destruct (screenshotLoop_frame E CONFIG p f t els i w1)
      as (_ & Hb & _)).
  - io_run_quiet; try (by intros [=]);
      intros [= _ <-]; simpl in *; rewrite Hb; by left.
  - intros [= _ <-]. simpl in *. rewrite Hb. by left.
Qed.

(** When no library call throws, a conversion returns. *)
Lemma convert_no_fault htmlFilePath w :
  (∀ h c, fault E h c = None) →
  ∃ N w', convertHtmlToImages E CONFIG htmlFilePath w = (Return N, w').
Proof.
  intros Hquiet. unfold convertHtmlToImages. io_run; try congruence.
  loop_cases ltac:(fun p f t els i w1 =>
    destruct (screenshotLoop_no_fault E CONFIG p f t els i w1 Hquiet)
      as [w2 Hw2]); [|congruence].
  io_run; try congruence. by eexists _, _.
Qed.

End Convert.

Lemma processing_app a b : processing (a ++ b) = processing a ++ processing b.
Proof. induction a as [|[] a IH]; simpl; by rewrite ?IH. Qed.

Lemma errors_app a b : errors (a ++ b) = errors a ++ errors b.
Proof. induction a as [|[] a IH]; simpl; by rewrite ?IH. Qed.

Section Main.

Variable E : env.
Variable CONFIG : config.

(** One turn of the loop of [main] on a file whose conversion throws: the
    error is caught and printed with the file, the failure counter goes up
    and the loop goes on with the remaining files. *)
Lemma convertLoop_throw htmlFile rest totalPages successCount failCount w e w1 :
  convertHtmlToImages E CONFIG htmlFile w = (Throw e, w1) →
  convertLoop E CONFIG (htmlFile :: rest) totalPages successCount failCount w
  = convertLoop E CONFIG rest totalPages successCount (failCount + 1)
      (print (ErrorProcessing htmlFile (message e)) w1).
Proof.
  intros Hrun. simpl. unfold try_catch, log, modify, mbind, mret, io_bind, io_ret.
  by rewrite Hrun.
Qed.

(** One turn on a file whose conversion returns. *)
Lemma convertLoop_return htmlFile rest totalPages successCount failCount w n w1 :
  convertHtmlToImages E CONFIG htmlFile w = (Return n, w1) →
  convertLoop E CONFIG (htmlFile :: rest) totalPages successCount failCount w
  = convertLoop E CONFIG rest (totalPages + n) (successCount + 1) failCount w1.
Proof.
  intros Hrun. simpl. unfold try_catch, log, modify, mbind, mret, io_bind, io_ret.
  by rewrite Hrun.
Qed.

(** The loop never throws, processes every file in order, and counts each
    file once, as a success or as a failure; the failures are the files
    named in the error lines. *)
Lemma convertLoop_spec htmlFiles totalPages successCount failCount w :
  ∃ t s f w' lines,
    convertLoop E CONFIG htmlFiles totalPages successCount failCount w
    = (Return (t, s, f), w')
    ∧ s + f = successCount + failCount + length htmlFiles
    ∧ console w' = console w ++ lines
    ∧ processing lines = (λ file, path.basename file ".html") <$> htmlFiles
    ∧ errors lines `sublist_of` htmlFiles
    ∧ f = failCount + length (errors lines).
Proof.
  revert totalPages successCount failCount w.
  induction htmlFiles as [|file rest IH]; intros t0 s0 f0 w.
  { exists t0, s0, f0, w, []. simpl. rewrite app_nil_r.
    repeat split; try done; lia. }
  destruct (convert_console E CONFIG file w) as (out & Hout & Hproc & Herr).
  destruct (convertHtmlToImages E CONFIG file w) as [[n|e] w1] eqn:Hrun;
    simpl in Hout.
  - rewrite (convertLoop_return _ _ _ _ _ _ _ _ Hrun).
    destruct (IH (t0 + n) (s0 + 1) f0 w1)
      as (t & s & f & w' & lines & -> & Hsum & Hcons & Hp & He & Hf).
    exists t, s, f, w', (Processing (path.basename file ".html") :: out ++ lines).
    rewrite Hcons, Hout, <- app_assoc. simpl.
    rewrite processing_app, errors_app, Hproc, Herr. simpl.
    repeat split; try done; try lia;
      by (rewrite Hp || apply sublist_cons).
  - rewrite (convertLoop_throw _ _ _ _ _ _ _ _ Hrun).
    destruct (IH t0 s0 (f0 + 1) (print (ErrorProcessing file (message e)) w1))
      as (t & s & f & w' & lines & -> & Hsum & Hcons & Hp & He & Hf).
    exists t, s, f, w',
      (Processing (path.basename file ".html")
         :: out ++ ErrorProcessing file (message e) :: lines).
    rewrite Hcons. simpl. rewrite Hout, <- !app_assoc. simpl.
    rewrite <- ?app_assoc. simpl.
    rewrite processing_app, errors_app, Hproc, Herr. simpl.
    repeat split; try done; try lia;
      by (rewrite Hp || apply sublist_skip).
Qed.

(** The success counter goes up by the number of conversions that ran to
    their end. *)
Lemma convertLoop_completed htmlFiles totalPages successCount failCount w :
  ∃ t s f w' tr,
    convertLoop E CONFIG htmlFiles totalPages successCount failCount w
    = (Return (t, s, f), w')
    ∧ trace w' = trace w ++ tr
    ∧ s = successCount + completed tr.
Proof.
  revert totalPages successCount failCount w.
  induction htmlFiles as [|file rest IH]; intros t0 s0 f0 w.
  { exists t0, s0, f0, w, []. simpl. rewrite app_nil_r.
    repeat split; try done; lia. }
  destruct (convert_completed E CONFIG file w) as (tr1 & Htr1 & Hdone).
  destruct (convertHtmlToImages E CONFIG file w) as [[n|e] w1] eqn:Hrun;
    simpl in Htr1, Hdone.
  - rewrite (convertLoop_return _ _ _ _ _ _ _ _ Hrun).
    destruct (IH (t0 + n) (s0 + 1) f0 w1) as (t & s & f & w' & tr & -> & Htr & Hs).
    exists t, s, f, w', (tr1 ++ tr).
    rewrite Htr, Htr1, <- app_assoc, completed_app.
    repeat split; try done. lia.
  - rewrite (convertLoop_throw _ _ _ _ _ _ _ _ Hrun).
    destruct (IH t0 s0 (f0 + 1) (print (ErrorProcessing file (message e)) w1))
      as (t & s & f & w' & tr & -> & Htr & Hs).
    exists t, s, f, w', (tr1 ++ tr).
    rewrite Htr. simpl. rewrite Htr1, <- app_assoc, completed_app.
    repeat split; try done. lia.
Qed.

End Main.

Section UniqueSort.

Lemma foldl_set_add acc l :
  NoDup acc →
  NoDup (foldl set_add acc l)
  ∧ ∀ x, x ∈ foldl set_add acc l ↔ x ∈ acc ∨ x ∈ l.
Proof.
  revert acc. induction l as [|y l IH]; intros acc Hacc; simpl.
  { split; [done|]. intros x. rewrite elem_of_nil. tauto. }
  unfold set_add at 2 4. destruct (decide (y ∈ acc)) as [Hy|Hy].
  - destruct (IH acc Hacc) as [Hnd Hin]. split; [done|].
    intros x. rewrite Hin, elem_of_cons.
    split; [tauto|]. intros [?|[->|?]]; tauto.
  - assert (NoDup (acc ++ [y])) as Hacc'.
    { apply NoDup_app. repeat split; [done| |apply NoDup_singleton].
      intros x Hx ->%list_elem_of_singleton. done. }
    destruct (IH _ Hacc') as [Hnd Hin]. split; [done|].
    intros x. rewrite Hin, elem_of_app, list_elem_of_singleton, elem_of_cons.
    tauto.
Qed.

Lemma unique_NoDup l : NoDup (unique l).
Proof. apply foldl_set_add, NoDup_nil_2. Qed.

Lemma elem_of_unique l x : x ∈ unique l ↔ x ∈ l.
Proof.
  unfold unique. destruct (foldl_set_add [] l (NoDup_nil_2)) as [_ ->].
  rewrite elem_of_nil. tauto.
Qed.

Lemma sort_Permutation l : sort l ≡ₚ l.
Proof. apply merge_sort_Permutation. Qed.

Lemma sort_sorted l : StronglySorted JsString.ordered (sort l).
Proof.
  apply (@StronglySorted_merge_sort _ _ _ ordered_trans ordered_total).
Qed.

Lemma elem_of_sort_unique l x : x ∈ sort (unique l) ↔ x ∈ l.
Proof. by rewrite sort_Permutation, elem_of_unique. Qed.

Lemma sort_unique_NoDup l : NoDup (sort (unique l)).
Proof. rewrite sort_Permutation. apply unique_NoDup. Qed.

(** Two lists with the same members give the same sorted set. *)
Lemma sort_unique_ext l1 l2 :
  (∀ x, x ∈ l1 ↔ x ∈ l2) → sort (unique l1) = sort (unique l2).
Proof.
  intros Hsame.
  apply (@StronglySorted_unique _ JsString.ordered ordered_antisym);
    try apply sort_sorted.
  apply NoDup_Permutation; try apply sort_unique_NoDup.
  intros x. by rewrite !elem_of_sort_unique.
Qed.

End UniqueSort.

Section Scan.

Variable E : env.
Variable CONFIG : config.

Lemma harvest_elem h tr x :
  x ∈ harvest E h tr →
  ∃ h' pattern ignore,
    (Glob pattern ignore, None) ∈ tr ∧ x ∈ matched E h' pattern ignore.
Proof.
  revert h. induction tr as [|[c r] tr IH]; intros h; simpl.
  { by intros ?%elem_of_nil. }
  assert (∀ h0, x ∈ harvest E h0 tr →
            ∃ h' pattern ignore,
              (Glob pattern ignore, None) ∈ (c, r) :: tr
              ∧ x ∈ matched E h' pattern ignore) as Hrest.
  { intros h0 (h' & p & ig & Hin & Hx)%IH. exists h', p, ig.
    split; [by right | done]. }
  destruct c; try by apply Hrest.
  destruct r; [by apply Hrest|].
  intros [Hx|Hx]%elem_of_app; [|by eapply Hrest].
  eexists _, _, _. split; [by left | done].
Qed.

(** The scanning loop never throws; it calls [glob] once per pattern, in
    order, whatever the earlier calls did; it gathers what the successful
    calls returned and prints one error line per call that threw. *)
Lemma scanLoop_spec patterns allFiles w :
  ∃ w' tr,
    scanLoop E CONFIG patterns allFiles w
    = (Return (allFiles ++ harvest E (trace w) tr), w')
    ∧ trace w' = trace w ++ tr
    ∧ tr.*1 = (λ pattern, Glob pattern (excludePatterns CONFIG)) <$> patterns
    ∧ console w' = console w ++ scan_errors tr.
Proof.
  revert allFiles w. induction patterns as [|pattern rest IH];
    intros allFiles w; simpl.
  { exists w, []. simpl. by rewrite !app_nil_r. }
  io_run_quiet.
  - match goal with |- context [scanLoop _ _ _ ?l ?w1] =>
      destruct (IH l w1) as (w' & tr & -> & Htr & Hcalls & Hcons) end.
    simpl in *.
    exists w', ((Glob pattern (excludePatterns CONFIG), Some e) :: tr).
    simpl. rewrite Htr, Hcons, <- !app_assoc. simpl.
    repeat split; try done. f_equal. exact Hcalls.
  - match goal with |- context [scanLoop _ _ _ ?l ?w1] =>
      destruct (IH l w1) as (w' & tr & -> & Htr & Hcalls & Hcons) end.
    simpl in *.
    exists w', ((Glob pattern (excludePatterns CONFIG), None) :: tr).
    simpl. rewrite Htr, Hcons, <- !app_assoc. simpl.
    repeat split; try done. f_equal. exact Hcalls.
Qed.

End Scan.

(** Two scans whose [glob] calls fail on the same patterns and match the
    same files gather the same files. *)
Lemma scanLoop_agree E1 E2 CONFIG patterns all1 all2 w1 w2 :
  (∀ h1 h2 pattern ignore,
     (fault E1 h1 (Glob pattern ignore) = None
      ↔ fault E2 h2 (Glob pattern ignore) = None)
     ∧ ∀ x, x ∈ matched E1 h1 pattern ignore
            ↔ x ∈ matched E2 h2 pattern ignore) →
  (∀ x, x ∈ all1 ↔ x ∈ all2) →
  ∃ l1 l2 w1' w2',
    scanLoop E1 CONFIG patterns all1 w1 = (Return l1, w1')
    ∧ scanLoop E2 CONFIG patterns all2 w2 = (Return l2, w2')
    ∧ ∀ x, x ∈ l1 ↔ x ∈ l2.
Proof.
  intros Hagree. revert all1 all2 w1 w2.
  induction patterns as [|pattern rest IH]; intros all1 all2 w1 w2 Hall; simpl.
  { by exists all1, all2, w1, w2. }
  io_unfold. unfold perform.
  destruct (Hagree (trace w1) (trace w2) pattern (excludePatterns CONFIG))
    as [Hfault Hmatch].
  destruct (fault E1 (trace w1) _) as [e1|], (fault E2 (trace w2) _) as [e2|];
    try (by destruct Hfault as [F1 F2]; (specialize (F1 eq_refl) || specialize (F2 eq_refl)));
    cbn beta iota; apply IH; [done|].
  intros x. rewrite !elem_of_app, Hall, Hmatch. done.
Qed.

Lemma screenshots_app a b : screenshots (a ++ b) = screenshots a ++ screenshots b.
Proof.
  induction a as [|[c [e|]] a IH]; simpl; try done; destruct c; simpl;
    by rewrite ?IH.
Qed.

Section Files.

Variable CONFIG : config.

Lemma outputPath_inj fileName i j :
  outputPath CONFIG fileName i = outputPath CONFIG fileName j → i = j.
Proof.
  unfold outputPath, imageName. intros H.
  change (fileName +:+ "_page_" +:+ ?t)
    with (fileName +:+ "_" +:+ ("page_" +:+ t)) in H.
  apply join_name_inj in H.
  - apply (inj (String.app "page_")) in H. apply append_inj_r in H.
    apply padStart_of_nat_inj in H. lia.
  - apply (Forall_app _ (JsString.chars "page_")). split.
    { repeat constructor; discriminate. }
    rewrite chars_app. apply Forall_app. split.
    + apply padStart_digits. by apply not_a_digit.
    + repeat constructor; discriminate.
  - apply (Forall_app _ (JsString.chars "page_")). split.
    { repeat constructor; discriminate. }
    rewrite chars_app. apply Forall_app. split.
    + apply padStart_digits. by apply not_a_digit.
    + repeat constructor; discriminate.
Qed.

(** The successful captures of a loop in which nothing throws: the match
    with index [i] goes to the file with index [i]. *)
Lemma captures_screenshots page fileName k n :
  screenshots (captures CONFIG page fileName (Locator page <$> seq k n) k)
  = (λ i, (Locator page i, outputPath CONFIG fileName i)) <$> seq k n.
Proof.
  revert k. induction n as [|n IH]; intros k; simpl; [done|].
  f_equal. rewrite Nat.add_1_r. apply IH.
Qed.

(** The files such a loop leaves on disk. *)
Lemma written_lookup url fileName k n d :
  (∀ i, k ≤ i < k + n →
     written CONFIG url fileName (Locator 0 <$> seq k n) k d
       !! outputPath CONFIG fileName i = Some (Image url i))
  ∧ (∀ file, (∀ i, k ≤ i < k + n → file ≠ outputPath CONFIG fileName i) →
       written CONFIG url fileName (Locator 0 <$> seq k n) k d !! file
       = d !! file).
Proof.
  revert k d. induction n as [|n IH]; intros k d; simpl.
  { split; [lia|done]. }
  rewrite Nat.add_1_r.
  destruct (IH (S k) (<[outputPath CONFIG fileName k := Image url k]> d))
    as [IH1 IH2].
  split.
  - intros i Hi. destruct (decide (i = k)) as [->|Hne].
    + rewrite IH2; [by rewrite lookup_insert_eq|].
      intros j Hj Heq%outputPath_inj. lia.
    + apply IH1. lia.
  - intros file Hfile. rewrite IH2.
    + rewrite lookup_insert_ne; [done|]. intros Heq. eapply Hfile; [|done]. lia.
    + intros i Hi. apply Hfile. lia.
Qed.

(** [written] looks only at the index of each element. *)
Lemma written_page url fileName page k n d :
  written CONFIG url fileName (Locator page <$> seq k n) k d
  = written CONFIG url fileName (Locator 0 <$> seq k n) k d.
Proof.
  revert k d. induction n as [|n IH]; intros k d; simpl; [done|].
  rewrite Nat.add_1_r. apply IH.
Qed.

End Files.

Lemma list_ascii_app a b :
  String.list_ascii_of_string (a +:+ b)
  = String.list_ascii_of_string a ++ String.list_ascii_of_string b.
Proof. induction a; simpl; [done|]. by f_equal. Qed.

Section Prefix.

Variable E : env.
Variable CONFIG : config.

(** However the capture loop ends, it has captured the first [j] of its
    elements, in order, each to its file, and nothing else. *)
Lemma screenshotLoop_prefix page fileName total n : ∀ k w,
  ∃ j tr,
    j ≤ n
    ∧ trace (screenshotLoop E CONFIG page fileName total
               (Locator page <$> seq k n) k w).2 = trace w ++ tr
    ∧ screenshots tr
      = (λ i, (Locator page i, outputPath CONFIG fileName i)) <$> seq k j
    ∧ disk (screenshotLoop E CONFIG page fileName total
              (Locator page <$> seq k n) k w).2
      = written CONFIG (url_of page w) fileName (Locator page <$> seq k j) k
          (disk w)
    ∧ ((screenshotLoop E CONFIG page fileName total
          (Locator page <$> seq k n) k w).1 = Return () → j = n).
Proof.
  induction n as [|n IH]; intros k w.
  { exists 0, []. simpl. by rewrite app_nil_r. }
  cbn [seq]. rewrite !fmap_cons. cbn [screenshotLoop].
  io_run_quiet; simpl; rewrite <- ?app_assoc; simpl.
  1-3: exists 0; eexists; (split; [lia|]); (split; [reflexivity|]); done.
  rewrite Nat.add_1_r.
  match goal with |- context [screenshotLoop _ _ _ _ _ _ _ ?w1] =>
    destruct (IH (S k) w1) as (j & tr & Hj & Htr & Hshots & Hdisk & Hret) end.
  exists (S j),
    ((ScrollIntoViewIfNeeded (Locator page k), None)
     :: (WaitForTimeout page 500, None)
     :: (Screenshot (Locator page k) (outputPath CONFIG fileName k)
           (imageFormat CONFIG), None)
     :: tr).
  rewrite Htr, Hdisk. simpl. rewrite <- !app_assoc. simpl.
  split; [lia|]. split; [reflexivity|].
  rewrite Hshots, Nat.add_1_r. repeat split; try done.
  intros H. f_equal. by apply Hret.
Qed.

(** However a conversion ends, it has captured the first [j] of the page
    markers its query yielded, and nothing else. *)
Lemma convert_prefix htmlFilePath w :
  let page := S (S (fresh w)) in
  let fileName := path.basename htmlFilePath ".html" in
  let w' := (convertHtmlToImages E CONFIG htmlFilePath w).2 in
  ∃ j,
    j ≤ located E (trace w ++ opening CONFIG htmlFilePath w) page ".page"
    ∧ screenshots (since w w')
      = (λ i, (Locator page i, outputPath CONFIG fileName i)) <$> seq 0 j
    ∧ disk w'
      = written CONFIG ("file://" +:+ htmlFilePath) fileName
          (Locator page <$> seq 0 j) 0 (disk w).
Proof.
  unfold convertHtmlToImages. io_run_quiet.
  1-6: exists 0; (split; [lia|]); unfold since; simpl;
    rewrite <- ?app_assoc, drop_app_length; done.
  loop_cases ltac:(fun p f t els i w1 =>
    match els with
    | context [seq 0 ?N] =>
        pose proof (screenshotLoop_prefix p f t N 0 w1)
          as (j & tr & Hj & Htr & Hshots & Hdisk & _)
    end).
  all: simpl in Htr, Hdisk, Hj; unfold opening; simpl;
    rewrite <- ?app_assoc in Hj; simpl in Hj.
  - io_run_quiet; exists j; (split; [exact Hj|]); unfold since; simpl;
      rewrite ?Htr, ?Hdisk, <- ?app_assoc, drop_app_length; simpl;
      rewrite ?screenshots_app; simpl; rewrite ?app_nil_r;
      unfold url_of; simpl; rewrite lookup_insert_eq; done.
  - exists j. split; [exact Hj|]. unfold since. simpl.
    rewrite ?Htr, ?Hdisk, <- ?app_assoc, drop_app_length. simpl.
    unfold url_of. simpl. rewrite lookup_insert_eq. done.
Qed.

End Prefix.

(* ===================================================================== *)
(** ** The renderer *)
(* ===================================================================== *)

Lemma settled_None : settled None.
Proof. by intros ????. Qed.

(** C10. In every conversion, whatever the libraries do: once the
    browser, the context and the page are there, the navigation is made,
    it goes to the file, waits until the network is idle and gives up
    after 60000 ms; a navigation that succeeds is followed at once by a
    wait of 3000 ms on the same page; each capture is asked for right
    after a completed wait of 500 ms on its page; no wait has another
    duration (the durations are constants of the script, the environment
    has no say in them); a conversion that returns made exactly the calls
    of [opening] (with the navigation and the 3000 ms), the query,
    [captures] (with 500 ms before every capture) and [teardown]; and
    when no call throws the conversion does return. *)
Theorem fixed_waits E CONFIG htmlFilePath w :
  let tr := since w (convertHtmlToImages E CONFIG htmlFilePath w).2 in
  let session :=
    [(Launch, None);
     (NewContext (fresh w) (viewportWidth CONFIG) (viewportHeight CONFIG)
        (viewportScale CONFIG), None);
     (NewPage (S (fresh w)), None)] in
  (∀ pre page url waitUntil timeout r post,
     tr = pre ++ (Goto page url waitUntil timeout, r) :: post →
     url = "file://" +:+ htmlFilePath
     ∧ waitUntil = "networkidle" ∧ timeout = 60000%Z
     ∧ (r = None → ∃ r' post', post = (WaitForTimeout page 3000, r') :: post'))
  ∧ (∀ pre element file type r post,
       tr = pre ++ (Screenshot element file type, r) :: post →
       ∃ pre', pre = pre' ++ [(WaitForTimeout (loc_page element) 500, None)])
  ∧ (∀ page ms r, (WaitForTimeout page ms, r) ∈ tr → ms = 3000%Z ∨ ms = 500%Z)
  ∧ (∀ N, (convertHtmlToImages E CONFIG htmlFilePath w).1 = Return N →
       tr = opening CONFIG htmlFilePath w
            ++ (LocatorAll (S (S (fresh w))) ".page", None)
            :: captures CONFIG (S (S (fresh w)))
                 (path.basename htmlFilePath ".html")
                 (Locator (S (S (fresh w))) <$> seq 0 N) 0
            ++ teardown w)
  ∧ ((∀ k c, session !! k = Some (c, None) →
             fault E (trace w ++ take k session) c = None) →
     ∃ r post,
       tr = session
            ++ (Goto (S (S (fresh w))) ("file://" +:+ htmlFilePath)
                  "networkidle" 60000, r)
            :: post)
  ∧ ((∀ h c, fault E h c = None) →
     ∃ N, (convertHtmlToImages E CONFIG htmlFilePath w).1 = Return N).
Proof.
  intros tr session. subst tr.
  destruct (convert_timed E CONFIG htmlFilePath w None settled_None)
    as (tr & Htr & Htimed & Hsettled & Hurl).
  rewrite (since_app _ _ _ Htr). split; [|split; [|split; [|split; [|split]]]].
  - intros pre page url waitUntil timeout r post ->.
    pose proof Htimed as Hat.
    apply timed_at in Hat as (_ & _ & Hgoto & _).
    destruct (Hgoto _ _ _ _ _ eq_refl) as [-> ->].
    split; [|split; [done|split; [done|]]].
    { eapply Hurl. apply elem_of_app. right. by left. }
    intros ->. destruct post as [|next post].
    + exfalso. eapply Hsettled. apply last_event_snoc.
    + exists next.2, post.
      replace (pre ++ (Goto page url "networkidle" 60000, None) :: next :: post)
        with ((pre ++ [(Goto page url "networkidle" 60000, None)]) ++ next :: post)
        in Htimed by by rewrite <- app_assoc.
      apply timed_at in Htimed as (Hnext & _).
      rewrite last_event_snoc in Hnext.
      destruct (Hnext _ _ _ _ eq_refl) as [r' ->]. done.
  - intros pre element file type r post ->.
    apply timed_at in Htimed as (_ & Hshot & _).
    specialize (Hshot _ _ _ _ eq_refl). unfold last_event in Hshot.
    destruct (@last event pre) as [ev|] eqn:Hlast; [|done].
    apply last_Some in Hlast as [pre' ->]. exists pre'.
    by injection Hshot as ->.
  - intros page ms r (pre & post & ->)%list_elem_of_split.
    apply timed_at in Htimed as (_ & _ & _ & Hwait). by eapply Hwait.
  - intros N HN.
    destruct (convertHtmlToImages E CONFIG htmlFilePath w) as [r w'] eqn:Hrun.
    simpl in *. subst r.
    apply convert_return in Hrun as (_ & Htr' & _).
    rewrite Htr' in Htr. by apply app_inv_head in Htr.
  - intros Hopen.
    destruct (convert_navigates E CONFIG htmlFilePath w Hopen)
      as (r & post & Hnav).
    rewrite Hnav in Htr. apply app_inv_head in Htr. by exists r, post.
  - intros Hquiet.
    destruct (convert_no_fault E CONFIG htmlFilePath w Hquiet)
      as (N & w' & Hrun).
    exists N. by rewrite Hrun.
Qed.

(** C10, at an input: a report with two page markers and libraries that
    do not throw.  The conversion returns, and its calls are the opening
    with the navigation and the 3000 ms, the query, two captures with
    500 ms before each, and the teardown. *)
Lemma fixed_waits_witness :
  let E := project_env ["/srv/report.html"] 2 [] [] in
  let run := convertHtmlToImages E srv "/srv/report.html" initial in
  ∃ N,
    run.1 = Return N
    ∧ since initial run.2
      = opening srv "/srv/report.html" initial
        ++ (LocatorAll 2 ".page", None)
        :: captures srv 2 (path.basename "/srv/report.html" ".html")
             (Locator 2 <$> seq 0 N) 0
        ++ teardown initial.
Proof.
  intros E run.
  destruct (fixed_waits E srv "/srv/report.html" initial)
    as (_ & _ & _ & Hreturn & _ & Hquiet).
  destruct Hquiet as [N HN]; [by intros h []|].
  exists N. split; [exact HN|]. exact (Hreturn N HN).
Defined.

(** The calls of that conversion, one by one. *)
Example fixed_waits_of_a_report :
  let E := project_env ["/srv/report.html"] 2 [] [] in
  (trace (convertHtmlToImages E srv "/srv/report.html" initial).2)
  = [(Launch, None);
     (NewContext 0 (Some (Num 1122)) (Some (Num 794)) (Some (Num 3)), None);
     (NewPage 1, None);
     (Goto 2 "file:///srv/report.html" "networkidle" 60000, None);
     (WaitForTimeout 2 3000, None);
     (LocatorAll 2 ".page", None);
     (ScrollIntoViewIfNeeded (Locator 2 0), None);
     (WaitForTimeout 2 500, None);
     (Screenshot (Locator 2 0) "/srv/output/images/report_page_01.png"
        (Str "png"), None);
     (ScrollIntoViewIfNeeded (Locator 2 1), None);
     (WaitForTimeout 2 500, None);
     (Screenshot (Locator 2 1) "/srv/output/images/report_page_02.png"
        (Str "png"), None);
     (ClosePage 2, None);
     (CloseContext 1, None);
     (CloseBrowser 0, None)].
Proof. vm_compute. reflexivity. Qed.

(** C4, as the specification states it, fails: the query of a document
    yields two page markers, the second capture throws, the conversion
    throws with it, and one image has been produced. *)
Lemma fewer_images_than_markers :
  let E :=
    {| fault := λ _ c,
         match c with
         | Screenshot (Locator _ 1) _ _ => Some (Error "Target closed")
         | _ => None
         end;
       matched := λ _ _ _, [];
       located := λ _ _ _, 2 |} in
  let run := convertHtmlToImages E srv "/srv/report.html" initial in
  run.1 = Throw (Error "Target closed")
  ∧ console run.2
    = [Processing "report"; FoundPages 2; PageDone 1 2 "report_page_01.png"]
  ∧ screenshots (trace run.2)
    = [(Locator 2 0, "/srv/output/images/report_page_01.png")]
  ∧ disk run.2 = {[ "/srv/output/images/report_page_01.png"
                    := Image "file:///srv/report.html" 0 ]}.
Proof. vm_compute. done. Qed.

(** C4, amended. When no library call throws, a conversion returns.  A
    conversion that returns [N] found [N] page markers (what its query
    yielded) and captured each of them once, in document order, the match
    with index [i] (0-based) going to the file
    [{outputDir}/{stem}_page_{i+1 padded to two digits}.png]; the [N] files
    are pairwise distinct, each holds the capture of its own match, every
    other file on disk is untouched, and a padded index has at least two
    characters.  However a conversion ends, it has captured the first [j]
    of the markers its query yielded, for some [j], and no other: a
    conversion that throws leaves the images captured before the
    failure. *)
Theorem one_image_per_marker E CONFIG htmlFilePath w :
  let page := S (S (fresh w)) in
  let stem := path.basename htmlFilePath ".html" in
  let file (i : nat) :=
    path.join (outputDir CONFIG)
      (stem +:+ "_page_" +:+ JsString.padStart 2 "0" (JsString.of_nat (i + 1))
       +:+ ".png") in
  ((∀ h c, fault E h c = None) →
   ∃ N w', convertHtmlToImages E CONFIG htmlFilePath w = (Return N, w'))
  ∧ (∀ N w',
      convertHtmlToImages E CONFIG htmlFilePath w = (Return N, w') →
      N = located E (trace w ++ opening CONFIG htmlFilePath w) page ".page"
      ∧ screenshots (since w w') = (λ i, (Locator page i, file i)) <$> seq 0 N
      ∧ length (screenshots (since w w')) = N
      ∧ NoDup (file <$> seq 0 N)
      ∧ (∀ i, i < N →
           disk w' !! file i = Some (Image ("file://" +:+ htmlFilePath) i))
      ∧ (∀ other, (∀ i, i < N → other ≠ file i) →
           disk w' !! other = disk w !! other)
      ∧ (∀ i, 2 ≤ String.length
                    (JsString.padStart 2 "0" (JsString.of_nat (i + 1)))))
  ∧ ∃ j,
      j ≤ located E (trace w ++ opening CONFIG htmlFilePath w) page ".page"
      ∧ screenshots (since w (convertHtmlToImages E CONFIG htmlFilePath w).2)
        = (λ i, (Locator page i, file i)) <$> seq 0 j
      ∧ (∀ i, i < j →
           disk (convertHtmlToImages E CONFIG htmlFilePath w).2 !! file i
           = Some (Image ("file://" +:+ htmlFilePath) i))
      ∧ (∀ other, (∀ i, i < j → other ≠ file i) →
           disk (convertHtmlToImages E CONFIG htmlFilePath w).2 !! other
           = disk w !! other).
Proof.
  intros page stem file. split; [apply convert_no_fault|]. split.
  2: { destruct (convert_prefix E CONFIG htmlFilePath w)
         as (j & Hj & Hshots & Hdisk).
       exists j. split; [exact Hj|]. split; [exact Hshots|].
       change file with (outputPath CONFIG stem).
       rewrite Hdisk, written_page. split.
       - intros i Hi. apply written_lookup. lia.
       - intros other Hother. apply written_lookup.
         intros i Hi. apply Hother. lia. }
  intros N w' Hrun.
  apply convert_return in Hrun as (HN & Htr & Hdisk & _).
  fold page stem in HN, Htr, Hdisk.
  change file with (outputPath CONFIG stem).
  assert (screenshots (since w w')
          = (λ i, (Locator page i, outputPath CONFIG stem i)) <$> seq 0 N)
    as Hshots.
  { rewrite (since_app _ _ _ Htr), !screenshots_app. simpl.
    rewrite screenshots_app, captures_screenshots. simpl.
    by rewrite app_nil_r. }
  split; [done|]. split; [done|]. split; [|split; [|split; [|split]]].
  - by rewrite Hshots, length_fmap, length_seq.
  - apply NoDup_fmap_2; [|apply NoDup_seq].
    intros i j. apply outputPath_inj.
  - intros i Hi. rewrite Hdisk, written_page.
    apply written_lookup. lia.
  - intros other Hother. rewrite Hdisk, written_page.
    apply written_lookup. intros i Hi. apply Hother. lia.
  - intros i. apply padStart_length.
Qed.

(** C4, at an input: a report with three page markers. *)
Lemma one_image_per_marker_witness :
  let E := project_env ["/srv/report.html"] 3 [] [] in
  ∃ w',
    convertHtmlToImages E srv "/srv/report.html" initial = (Return 3, w')
    ∧ screenshots (since initial w')
      = [(Locator 2 0, "/srv/output/images/report_page_01.png");
         (Locator 2 1, "/srv/output/images/report_page_02.png");
         (Locator 2 2, "/srv/output/images/report_page_03.png")].
Proof.
  intros E.
  destruct (one_image_per_marker E srv "/srv/report.html" initial)
    as (Hreturns & Hfiles & _).
  destruct Hreturns as (N & w' & Hrun); [by intros h []|].
  destruct (Hfiles N w' Hrun) as (HN & Hshots & _).
  subst N. exists w'. split; [exact Hrun|exact Hshots].
Defined.

(** C2, as the specification states it, fails: a document without page
    markers is converted without an error line and counted as a success,
    the failure counter stays at zero. *)
Lemma zero_markers_counted_as_success :
  let E := project_env ["/srv/empty.html"] 0 [] [] in
  (convertHtmlToImages E srv "/srv/empty.html" initial).1 = Return 0
  ∧ console (convertAll E srv ["/srv/empty.html"] initial).2
    = [Processing "empty"; FoundPages 0; ConversionComplete;
       Processed 1 0; TotalPages 0; OutputDirectory "/srv/output/images"].
Proof. vm_compute. done. Qed.

(** C2, amended. A conversion that finds no page marker and returns
    captures nothing, leaves the disk as it was, prints the file and the
    count of zero and no error line; the loop of [main] counts the file as
    a success and goes on with the remaining files. *)
Theorem zero_markers_is_success E CONFIG htmlFile rest
  totalPages successCount failCount w w1 :
  convertHtmlToImages E CONFIG htmlFile w = (Return 0, w1) →
  screenshots (since w w1) = []
  ∧ disk w1 = disk w
  ∧ printed w w1 = [Processing (path.basename htmlFile ".html"); FoundPages 0]
  ∧ convertLoop E CONFIG (htmlFile :: rest) totalPages successCount failCount w
    = convertLoop E CONFIG rest totalPages (successCount + 1) failCount w1.
Proof.
  intros Hrun. rewrite (convertLoop_return _ _ _ _ _ _ _ _ _ _ Hrun).
  rewrite Nat.add_0_r.
  apply convert_return in Hrun as (_ & Htr & Hdisk & (lines & Hcons & _ & _ & Hnil) & _).
  rewrite (Hnil eq_refl) in Hcons.
  rewrite (since_app _ _ _ Htr), (printed_app _ _ _ Hcons).
  done.
Qed.

Lemma zero_markers_is_success_witness :
  let E := project_env ["/srv/empty.html"; "/srv/report.html"] 0 [] [] in
  let w1 := (convertHtmlToImages E srv "/srv/empty.html" initial).2 in
  convertHtmlToImages E srv "/srv/empty.html" initial = (Return 0, w1)
  ∧ convertLoop E srv ["/srv/empty.html"; "/srv/report.html"] 0 0 0 initial
    = convertLoop E srv ["/srv/report.html"] 0 (0 + 1) 0 w1.
Proof.
  intros E w1.
  assert (convertHtmlToImages E srv "/srv/empty.html" initial = (Return 0, w1))
    as Hrun by (vm_compute; reflexivity).
  split; [exact Hrun|].
  destruct (zero_markers_is_success E srv "/srv/empty.html" ["/srv/report.html"]
              0 0 0 initial w1 Hrun) as (_ & _ & _ & Hloop).
  exact Hloop.
Defined.

(** C7. When the conversion of a file throws, the loop of [main] catches
    the exception, prints an error line naming the file, counts a failure
    and goes on with the remaining files; when it returns, the loop counts
    a success, adds the pages and goes on, printing nothing.  So the loop
    never throws, it starts a conversion for every discovered file, in
    order, the files named in error lines are among the discovered files
    and as many as the failure counter says, the success counter is the
    number of conversions that ran to their end, and the summary prints
    the two counters, which add up to the number of discovered files. *)
Theorem failures_are_caught_and_counted E CONFIG htmlFiles w :
  (∀ htmlFile rest totalPages successCount failCount w0 e w1,
     convertHtmlToImages E CONFIG htmlFile w0 = (Throw e, w1) →
     convertLoop E CONFIG (htmlFile :: rest) totalPages successCount failCount w0
     = convertLoop E CONFIG rest totalPages successCount (failCount + 1)
         (print (ErrorProcessing htmlFile (message e)) w1))
  ∧ (∀ htmlFile rest totalPages successCount failCount w0 n w1,
       convertHtmlToImages E CONFIG htmlFile w0 = (Return n, w1) →
       convertLoop E CONFIG (htmlFile :: rest) totalPages successCount failCount w0
       = convertLoop E CONFIG rest (totalPages + n) (successCount + 1) failCount
           w1)
  ∧ ∃ totalPages successCount failCount w1 w2,
      convertLoop E CONFIG htmlFiles 0 0 0 w
      = (Return (totalPages, successCount, failCount), w1)
      ∧ successCount + failCount = length htmlFiles
      ∧ processing (printed w w1)
        = (λ file, path.basename file ".html") <$> htmlFiles
      ∧ errors (printed w w1) `sublist_of` htmlFiles
      ∧ length (errors (printed w w1)) = failCount
      ∧ completed (since w w1) = successCount
      ∧ convertAll E CONFIG htmlFiles w = (Return (), w2)
      ∧ printed w1 w2
        = [ConversionComplete; Processed successCount failCount;
           TotalPages totalPages; OutputDirectory (outputDir CONFIG)].
Proof.
  split.
  { intros. by apply convertLoop_throw. }
  split.
  { intros. by apply convertLoop_return. }
  destruct (convertLoop_spec E CONFIG htmlFiles 0 0 0 w)
    as (t & s & f & w1 & lines & Hloop & Hsum & Hcons & Hproc & Herr & Hf).
  destruct (convertLoop_completed E CONFIG htmlFiles 0 0 0 w)
    as (t' & s' & f' & w1' & tr & Hloop' & Htr & Hs).
  rewrite Hloop in Hloop'. injection Hloop' as <- <- <- <-.
  eexists t, s, f, w1, _.
  rewrite (printed_app _ _ _ Hcons), (since_app _ _ _ Htr).
  split; [done|]. split; [lia|]. split; [done|]. split; [done|].
  split; [lia|]. split; [lia|].
  unfold convertAll, mbind, io_bind. rewrite Hloop.
  io_unfold. simpl. split; [reflexivity|].
  unfold printed. simpl. rewrite <- !app_assoc. by rewrite drop_app_length.
Qed.

(** C7, at an input: the first of two documents cannot be loaded, the
    second has one page. *)
Lemma failures_are_caught_and_counted_witness :
  let E := project_env ["/srv/a.html"; "/srv/b.html"] 1 [] ["/srv/a.html"] in
  (convertLoop E srv ["/srv/a.html"; "/srv/b.html"] 0 0 0 initial).1
  = Return (1, 1, 1).
Proof.
  intros E.
  destruct (failures_are_caught_and_counted E srv ["/srv/a.html"; "/srv/b.html"]
              initial) as (Hthrow & Hreturn & _).
  rewrite (Hthrow "/srv/a.html" ["/srv/b.html"] 0 0 0 initial
             (Error "page.goto: Timeout 60000ms exceeded.")
             (convertHtmlToImages E srv "/srv/a.html" initial).2)
    by (vm_compute; reflexivity).
  rewrite (Hreturn "/srv/b.html" [] 0 0 (0 + 1)
             (print (ErrorProcessing "/srv/a.html"
                       (message (Error "page.goto: Timeout 60000ms exceeded.")))
                (convertHtmlToImages E srv "/srv/a.html" initial).2)
             1
             (convertHtmlToImages E srv "/srv/b.html"
                (print (ErrorProcessing "/srv/a.html"
                          (message (Error "page.goto: Timeout 60000ms exceeded.")))
                   (convertHtmlToImages E srv "/srv/a.html" initial).2)).2)
    by (vm_compute; reflexivity).
  reflexivity.
Defined.

(** C1, on the code: when loading a document times out, the exception
    leaves [convertHtmlToImages] before its three [close] calls; the
    browser, context and page of that file stay open, the next file's
    browser is launched while they are, and no [close] call is ever made
    for them.  (Handles 0, 1, 2 belong to the first file.) *)
Theorem session_left_open_on_timeout :
  let E := project_env ["/srv/bad.html"; "/srv/good.html"] 1 [] ["/srv/bad.html"] in
  let run := convertLoop E srv ["/srv/bad.html"; "/srv/good.html"] 0 0 0 initial in
  run.1 = Return (1, 1, 1)
  ∧ browsers run.2 = [0] ∧ contexts run.2 = [1] ∧ pages run.2 = [2]
  ∧ ((trace run.2).*1) !! 3
    = Some (Goto 2 "file:///srv/bad.html" "networkidle" 60000)
  ∧ ((trace run.2).*1) !! 4 = Some Launch
  ∧ (CloseBrowser 0 ∉ (trace run.2).*1)
  ∧ (CloseContext 1 ∉ (trace run.2).*1)
  ∧ (ClosePage 2 ∉ (trace run.2).*1).
Proof.
  vm_compute. repeat split; try reflexivity.
  all: intros Hin; repeat (apply elem_of_cons in Hin as [Hin|Hin]; [discriminate|]);
    by apply elem_of_nil in Hin.
Qed.

(** C1, the two paths: a conversion that returns has closed its page, its
    context and its browser; one that throws after the launch has not
    closed its browser. *)
Lemma teardown_only_on_return E CONFIG htmlFilePath w r w' :
  convertHtmlToImages E CONFIG htmlFilePath w = (r, w') →
  match r with
  | Return _ =>
      (fresh w ∉ browsers w') ∧ (S (fresh w) ∉ contexts w')
      ∧ (S (S (fresh w)) ∉ pages w')
  | Throw _ => fault E (trace w) Launch = None → fresh w ∈ browsers w'
  end.
Proof.
  intros Hrun. destruct r as [N|e].
  - apply convert_return in Hrun as (_ & _ & _ & _ & -> & -> & ->).
    repeat split; intros [? _]%list_elem_of_filter; done.
  - intros Hlaunch. by eapply convert_throw_leaks.
Qed.

(** C9. The file an image goes to depends on the base name of the
    document and on the index of the match only: documents of the same
    name in any two directories get the same image files.  And there are
    two distinct discovered documents, [/srv/a/report.html] and
    [/srv/b/report.html], for which [main] writes both captures to
    [/srv/output/images/report_page_01.png]: one file is left on disk, and
    it holds the capture of the document processed last. *)
Theorem same_name_same_image_files :
  (∀ CONFIG dir1 dir2 name i,
     name ≠ "" → no_slash name →
     outputPath CONFIG (path.basename (dir1 +:+ "/" +:+ name) ".html") i
     = outputPath CONFIG (path.basename (dir2 +:+ "/" +:+ name) ".html") i)
  ∧ let tree := ["/srv/b/report.html"; "/srv/a/report.html"] in
    let E := project_env tree 1 [] [] in
    let w' := (main E srv initial).2 in
    (scanHtmlFiles E srv initial).1
    = Return ["/srv/a/report.html"; "/srv/b/report.html"]
    ∧ screenshots (trace w')
      = [(Locator 2 0, "/srv/output/images/report_page_01.png");
         (Locator 5 0, "/srv/output/images/report_page_01.png")]
    ∧ disk w' = {[ "/srv/output/images/report_page_01.png"
                   := Image "file:///srv/b/report.html" 0 ]}.
Proof.
  split.
  - intros CONFIG dir1 dir2 name i Hne Hname.
    assert (no_slash ".html") as Hext.
    { unfold no_slash. simpl. repeat constructor; discriminate. }
    by rewrite (basename_dir dir1), (basename_dir dir2).
  - vm_compute. done.
Qed.

Lemma same_name_same_image_files_witness :
  outputPath srv (path.basename ("/srv/a" +:+ "/" +:+ "report.html") ".html") 0
  = outputPath srv (path.basename ("/srv/b" +:+ "/" +:+ "report.html") ".html") 0.
Proof.
  apply (proj1 same_name_same_image_files srv "/srv/a" "/srv/b" "report.html" 0).
  - discriminate.
  - unfold no_slash. simpl. repeat constructor; discriminate.
Defined.

(* ===================================================================== *)
(** ** The configuration loader *)
(* ===================================================================== *)

Lemma lookup_app k a b :
  Js.lookup k (a ++ b)
  = match Js.lookup k a with Some v => Some v | None => Js.lookup k b end.
Proof.
  induction a as [|[k' v] a IH]; simpl; [done|].
  by destruct (String.eqb k k').
Qed.

(** C3, as the specification states it, fails: a width of zero and a
    negative height supplied by the user are kept as they are. *)
Lemma zero_width_is_kept :
  ∃ c,
    (loadConfig "/srv"
       (Parsed (Obj [("viewport", Obj [("width", Num 0); ("height", Num (-794))])]))).1
    = Return c
    ∧ viewportWidth c = Some (Num 0)
    ∧ viewportHeight c = Some (Num (-794))
    ∧ ¬ positive_number (viewportWidth c)
    ∧ ¬ positive_number (viewportHeight c).
Proof.
  eexists. split; [reflexivity|]. simpl. repeat split; by intros [=].
Qed.

(** C3, amended. For a configuration object, each of the merged viewport
    width, height and scale is the value the user's [viewport] supplies for
    it, and the default (1122, 794, 3) when it supplies none; so the three
    are positive whenever every value the user supplies for them is a
    positive number. *)
Theorem merged_viewport_positive project props :
  (∀ key v, key ∈ viewport_keys →
     Js.lookup key (Js.own_props (Js.lookup "viewport" props)) = Some v →
     positive_number (Some v)) →
  ∃ c,
    (loadConfig project (Parsed (Obj props))).1 = Return c
    ∧ (∀ key, key ∈ viewport_keys →
         Js.lookup key (viewport c)
         = match Js.lookup key (Js.own_props (Js.lookup "viewport" props)) with
           | Some v => Some v
           | None => Js.lookup key defaultViewport
           end)
    ∧ positive_number (viewportWidth c)
    ∧ positive_number (viewportHeight c)
    ∧ positive_number (viewportScale c).
Proof.
  intros Hpos. eexists. split; [reflexivity|]. simpl.
  unfold viewportWidth, viewportHeight, viewportScale, Js.spread. simpl.
  split; [intros key _; apply lookup_app|].
  rewrite !lookup_app.
  repeat split.
  - destruct (Js.lookup "width" _) as [v|] eqn:Hv; [|done].
    apply (Hpos "width"); [|done]. set_solver.
  - destruct (Js.lookup "height" _) as [v|] eqn:Hv; [|done].
    apply (Hpos "height"); [|done]. set_solver.
  - destruct (Js.lookup "deviceScaleFactor" _) as [v|] eqn:Hv; [|done].
    apply (Hpos "deviceScaleFactor"); [|done]. set_solver.
Qed.

Lemma merged_viewport_positive_witness :
  let props := [("viewport", Obj [("width", Num 1920); ("height", Num 1080)])] in
  ∃ c,
    (loadConfig "/srv" (Parsed (Obj props))).1 = Return c
    ∧ positive_number (viewportWidth c)
    ∧ positive_number (viewportHeight c)
    ∧ positive_number (viewportScale c).
Proof.
  intros props.
  destruct (merged_viewport_positive "/srv" props) as (c & Hc & _ & Hpos).
  - intros key v Hkey.
    repeat (apply elem_of_cons in Hkey as [->|Hkey]);
      [| | |by apply elem_of_nil in Hkey]; simpl; intros [= <-]; reflexivity.
  - by exists c.
Defined.

(** C6, as the specification states it, fails: an image quality of 0 set
    by the user does not override the default of 100; and a configuration
    file that holds [null] makes [loadConfig] throw. *)
Lemma zero_quality_is_not_kept :
  (∃ c,
     (loadConfig "/srv" (Parsed (Obj [("imageQuality", Num 0)]))).1 = Return c
     ∧ Js.lookup "imageQuality" [("imageQuality", Num 0)] = Some (Num 0)
     ∧ imageQuality c = Num 100)
  ∧ (loadConfig "/srv" (Parsed Null)).1
    = Throw (TypeError "Cannot read properties of null").
Proof. split; [|reflexivity]. eexists. by split; [reflexivity|]. Qed.

(** C6, amended. For a configuration file that parses to an object: a
    viewport key that is set overrides the default, one that is not set
    keeps it; [imageFormat] and [imageQuality] override the default when
    set to a truthy value and keep it when not set; the directories and
    patterns are the defaults.  A file that parses to a boolean, a number,
    a string or an array sets no key and gives the default configuration.
    A file that cannot be read or parsed gives the default configuration
    too, a line is printed and nothing is thrown. *)
Theorem config_merge project :
  (∀ props, ∃ c,
     (loadConfig project (Parsed (Obj props))).1 = Return c
     ∧ (∀ custom key v,
          Js.lookup "viewport" props = Some (Obj custom) →
          Js.lookup key custom = Some v →
          Js.lookup key (viewport c) = Some v)
     ∧ (∀ key,
          Js.lookup key (Js.own_props (Js.lookup "viewport" props)) = None →
          Js.lookup key (viewport c) = Js.lookup key defaultViewport)
     ∧ (∀ v, Js.lookup "imageFormat" props = Some v →
             Js.truthy (Some v) = true → imageFormat c = v)
     ∧ (Js.lookup "imageFormat" props = None → imageFormat c = Str "png")
     ∧ (∀ v, Js.lookup "imageQuality" props = Some v →
             Js.truthy (Some v) = true → imageQuality c = v)
     ∧ (Js.lookup "imageQuality" props = None → imageQuality c = Num 100)
     ∧ outputDir c = outputDir (defaultConfig project)
     ∧ scanPatterns c = scanPatterns (defaultConfig project)
     ∧ excludePatterns c = excludePatterns (defaultConfig project))
  ∧ (∀ v, match v with Null | Obj _ => True
          | _ => (loadConfig project (Parsed v)).1 = Return (defaultConfig project)
          end)
  ∧ (∀ e, loadConfig project (Malformed e)
          = (Return (defaultConfig project), [UsingDefaultConfiguration]))
  ∧ (∀ e, loadConfig project (Unreadable e)
          = (Return (defaultConfig project), [UsingDefaultConfiguration]))
  ∧ loadConfig project Absent = (Return (defaultConfig project), []).
Proof.
  split; [|split; [by intros []|done]].
  intros props. eexists. split; [reflexivity|].
  cbn [viewport imageFormat imageQuality outputDir scanPatterns
       excludePatterns defaultConfig].
  split; [|split; [|split; [|split; [|split; [|split; [|done]]]]]].
  - intros custom key v Hcustom Hv. unfold Js.spread.
    rewrite lookup_app, Hcustom. cbn [Js.own_props]. by rewrite Hv.
  - intros key Hkey. unfold Js.spread. by rewrite lookup_app, Hkey.
  - intros v Hv Htruthy. unfold Js.or. by rewrite Hv, Htruthy.
  - intros Hv. unfold Js.or. by rewrite Hv.
  - intros v Hv Htruthy. unfold Js.or. by rewrite Hv, Htruthy.
  - intros Hv. unfold Js.or. by rewrite Hv.
Qed.

Lemma config_merge_witness :
  let props := [("viewport", Obj [("width", Num 1920)]);
                ("imageFormat", Str "jpeg")] in
  ∃ c,
    (loadConfig "/srv" (Parsed (Obj props))).1 = Return c
    ∧ viewportWidth c = Some (Num 1920)
    ∧ viewportHeight c = Some (Num 794)
    ∧ imageFormat c = Str "jpeg"
    ∧ imageQuality c = Num 100.
Proof.
  intros props.
  destruct (proj1 (config_merge "/srv") props)
    as (c & Hc & Hset & Hunset & Hformat & _ & _ & Hquality & _).
  exists c. split; [exact Hc|]. repeat split.
  - by apply (Hset [("width", Num 1920)]).
  - by apply Hunset.
  - by apply Hformat.
  - by apply Hquality.
Defined.

(* ===================================================================== *)
(** ** The file discoverer *)
(* ===================================================================== *)

Lemma scanHtmlFiles_spec E CONFIG w :
  ∃ w' tr,
    scanHtmlFiles E CONFIG w
    = (Return (sort (unique (harvest E (trace w) tr))), w')
    ∧ trace w' = trace w ++ tr
    ∧ tr.*1 = (λ pattern, Glob pattern (excludePatterns CONFIG))
              <$> scanPatterns CONFIG
    ∧ console w' = console w ++ scan_errors tr.
Proof.
  destruct (scanLoop_spec E CONFIG (scanPatterns CONFIG) [] w)
    as (w' & tr & Hrun & Htr & Hcalls & Hcons).
  exists w', tr. unfold scanHtmlFiles, mbind, io_bind. rewrite Hrun.
  done.
Qed.

(** C8. The scan never throws.  It calls [glob] once for every scan
    pattern, in order, whether or not earlier calls threw; it prints one
    error line, naming the pattern, for each call that threw and nothing
    else; and it returns, sorted and without duplicates, what the calls
    that did not throw matched. *)
Theorem scan_goes_on_after_a_bad_pattern E CONFIG w :
  ∃ files w',
    scanHtmlFiles E CONFIG w = (Return files, w')
    ∧ (since w w').*1
      = (λ pattern, Glob pattern (excludePatterns CONFIG)) <$> scanPatterns CONFIG
    ∧ printed w w' = scan_errors (since w w')
    ∧ files = sort (unique (harvest E (trace w) (since w w'))).
Proof.
  destruct (scanHtmlFiles_spec E CONFIG w) as (w' & tr & Hrun & Htr & Hcalls & Hcons).
  eexists _, w'. split; [exact Hrun|].
  by rewrite (since_app _ _ _ Htr), (printed_app _ _ _ Hcons).
Qed.

(** C8, at an input: the first pattern is rejected, the files the second
    one matches are returned. *)
Example scan_with_a_bad_pattern :
  let tree := ["/srv/b/report.html"; "/srv/a/report.html"; "/srv/index.html"] in
  let E := project_env tree 1 ["/srv/*.html"] [] in
  let run := scanHtmlFiles E srv initial in
  run.1 = Return ["/srv/a/report.html"; "/srv/b/report.html"]
  ∧ console run.2 = [ErrorScanningPattern "/srv/*.html" "Invalid glob pattern"]
  ∧ (trace run.2).*1
    = [Glob "/srv/*.html" (excludePatterns srv);
       Glob "/srv/**/*.html" (excludePatterns srv)].
Proof. vm_compute. done. Qed.

(** C5. When [glob] returns absolute paths that match its pattern and none
    of its ignore patterns, and the directory tree does not change, the
    discovered files have no duplicates, are in ascending order of their
    UTF-16 code units (the order of [sort]), are absolute, each match a scan pattern and no exclude
    pattern; and every other scan returns the very same list. *)
Theorem discovery_is_a_sorted_set (matches : string → string → Prop)
  E CONFIG w :
  glob_sound matches E →
  glob_stable E →
  ∃ files w',
    scanHtmlFiles E CONFIG w = (Return files, w')
    ∧ NoDup files
    ∧ StronglySorted JsString.ordered files
    ∧ (∀ file, file ∈ files →
         is_absolute file
         ∧ (∃ pattern, pattern ∈ scanPatterns CONFIG ∧ matches pattern file)
         ∧ ∀ e, e ∈ excludePatterns CONFIG → ¬ matches e file)
    ∧ (∀ w2, (scanHtmlFiles E CONFIG w2).1 = Return files).
Proof.
  intros Hsound Hstable.
  destruct (scanHtmlFiles_spec E CONFIG w) as (w' & tr & Hrun & Htr & Hcalls & Hcons).
  eexists _, w'. split; [exact Hrun|].
  split; [apply sort_unique_NoDup|]. split; [apply sort_sorted|]. split.
  - intros file (h' & pattern & ignore & Hin & Hfile)%elem_of_sort_unique%harvest_elem.
    apply (list_elem_of_fmap_2 fst) in Hin. rewrite Hcalls in Hin. simpl in Hin.
    apply list_elem_of_fmap in Hin as (pattern' & [= -> ->] & Hpattern).
    destruct (Hsound _ _ _ _ Hfile) as (Habs & Hmatch & Hexcl).
    eauto.
  - intros w2.
    destruct (scanLoop_agree E E CONFIG (scanPatterns CONFIG) [] [] w w2 Hstable)
      as (l1 & l2 & w1' & w2' & Hrun1 & Hrun2 & Hsame); [done|].
    unfold scanHtmlFiles, mbind, io_bind in *.
    rewrite Hrun1 in Hrun. rewrite Hrun2. simpl in *.
    injection Hrun as <- _. f_equal. symmetry. by apply sort_unique_ext.
Qed.

Lemma project_env_sound tree count invalid unreachable :
  Forall is_absolute tree →
  glob_sound (λ pattern file, wild_match pattern file = true)
    (project_env tree count invalid unreachable).
Proof.
  intros Habs h pattern ignore file Hin. simpl in Hin.
  apply list_elem_of_In, filter_In in Hin as [Htree Hfile].
  apply andb_true_iff in Hfile as [Hmatch Hignore].
  split; [|split; [done|]].
  - eapply Forall_forall in Habs; [done|]. by apply list_elem_of_In.
  - intros e He. rewrite forallb_forall in Hignore.
    apply list_elem_of_In, Hignore in He.
    by destruct (wild_match e file).
Qed.

Lemma project_env_stable tree count invalid unreachable :
  glob_stable (project_env tree count invalid unreachable).
Proof. by intros h1 h2 pattern ignore. Qed.

(** C5, at an input: a project with two reports, an index, an old output
    and a note. *)
Lemma discovery_is_a_sorted_set_witness :
  let tree := ["/srv/b/report.html"; "/srv/a/report.html"; "/srv/index.html";
               "/srv/x/output/old.html"; "/srv/x/readme.md"] in
  let E := project_env tree 1 [] [] in
  let matches := λ pattern file, wild_match pattern file = true in
  glob_sound matches E ∧ glob_stable E
  ∧ ∃ files w',
      scanHtmlFiles E srv initial = (Return files, w')
      ∧ NoDup files
      ∧ StronglySorted JsString.ordered files
      ∧ (∀ file, file ∈ files →
           is_absolute file
           ∧ (∃ pattern, pattern ∈ scanPatterns srv ∧ matches pattern file)
           ∧ ∀ e, e ∈ excludePatterns srv → ¬ matches e file)
      ∧ (∀ w2, (scanHtmlFiles E srv w2).1 = Return files).
Proof.
  intros tree E matches.
  assert (glob_sound matches E) as Hsound.
  { apply project_env_sound. repeat constructor; by eexists. }
  pose proof (project_env_stable tree 1 [] []) as Hstable.
  split; [exact Hsound|]. split; [exact Hstable|].
  exact (discovery_is_a_sorted_set matches E srv initial Hsound Hstable).
Defined.

Example discovery_of_a_project :
  let tree := ["/srv/b/report.html"; "/srv/a/report.html"; "/srv/index.html";
               "/srv/x/output/old.html"; "/srv/x/readme.md"] in
  (scanHtmlFiles (project_env tree 1 [] []) srv initial).1
  = Return ["/srv/a/report.html"; "/srv/b/report.html"; "/srv/index.html"].
Proof. vm_compute. done. Qed.

(* ===================================================================== *)
(** ** More about names *)
(* ===================================================================== *)

Lemma string_of_list_inj a b :
  String.list_ascii_of_string a = String.list_ascii_of_string b → a = b.
Proof.
  intros H. apply (f_equal String.string_of_list_ascii) in H.
  by rewrite !String.string_of_list_ascii_of_string in H.
Qed.

Lemma no_slash_app a b : no_slash (a +:+ b) ↔ no_slash a ∧ no_slash b.
Proof. unfold no_slash. rewrite list_ascii_app. apply Forall_app. Qed.

(** X15. The base name of a path that does not end with a slash has no
    slash, whatever the extension to strip: the images of such a document
    land directly in the output directory.  Without the condition this
    fails: the base name of [/srv/tml/] without [.html] is [tml/]. *)
Theorem basename_has_no_slash :
  (∀ p ext, (∀ q, p ≠ q +:+ "/") → no_slash (path.basename p ext))
  ∧ path.basename "/srv/tml/" ".html" = "tml/".
Proof.
  split; [|reflexivity].
  intros p ext Hend.
  destruct (decide (JsString.chars p = [])) as [Hnil|Hp].
  { replace p with "" by (symmetry; by apply chars_inj).
    unfold path.basename. simpl.
    destruct (_ && _); [destruct (String.eqb ext "")|]; by constructor. }
  destruct (last_segment (JsString.chars p) Hp)
    as (d & g & Hdg & Hg & Hfree & Hd).
  { intros Hlast. apply last_Some in Hlast as [q Hq].
    apply (Hend (JsString.of_chars q)).
    apply chars_inj. by rewrite chars_app, chars_of_chars. }
  rewrite <- (of_chars_chars p), Hdg, basename_segment by done.
  unfold no_slash.
  destruct (decide (0 < JsString.units ext)).
  - destruct (decide _); [by constructor|].
    fold (JsString.chars (JsString.of_chars (chop g (JsString.chars ext)))).
    rewrite chars_of_chars. by apply chop_free.
  - fold (JsString.chars (JsString.of_chars g)). by rewrite chars_of_chars.
Qed.

Lemma basename_has_no_slash_witness :
  no_slash (path.basename "/srv/reports/q3.v2/report.html" ".html").
Proof.
  apply (proj1 basename_has_no_slash). intros q H.
  apply (f_equal (λ s, last (String.list_ascii_of_string s))) in H.
  rewrite list_ascii_app, last_app in H. simpl in H. discriminate H.
Defined.

(** X16. The base name of [dir/name.html] without [.html] is [name], for a
    non-empty [name] without a slash, whatever the directory. *)
Theorem basename_strips_html dir name :
  name ≠ "" → no_slash name →
  path.basename (dir +:+ "/" +:+ name +:+ ".html") ".html" = name.
Proof.
  intros Hne Hname.
  assert (no_slash ".html") as Hext.
  { unfold no_slash. simpl. repeat constructor; discriminate. }
  rewrite basename_slash_segment; [| |by apply no_slash_app|done].
  2: { destruct name; [done|discriminate]. }
  rewrite decide_True by (vm_compute; lia).
  rewrite chars_app, chop_strip, of_chars_chars; [done|].
  intros H. apply Hne. by apply chars_inj.
Qed.

Lemma basename_strips_html_witness :
  path.basename ("/srv/q3" +:+ "/" +:+ "report" +:+ ".html") ".html" = "report".
Proof.
  apply (basename_strips_html "/srv/q3" "report").
  - discriminate.
  - unfold no_slash. simpl. repeat constructor; discriminate.
Defined.


Section Cut.

(** Two lists cut at the first occurrence of [c] agree on both sides. *)
Lemma split_at_first {A} (c : A) a b x y :
  c ∉ a → c ∉ b → a ++ c :: x = b ++ c :: y → a = b ∧ x = y.
Proof.
  revert b. induction a as [|u a IH]; intros [|v b] Ha Hb; simpl.
  - by intros [= ->].
  - intros [= <- _]. exfalso. apply Hb. by left.
  - intros [= -> _]. exfalso. apply Ha. by left.
  - intros [= -> H]. apply IH in H as [-> ->]; [done| |].
    + intros ?. apply Ha. by right.
    + intros ?. apply Hb. by right.
Qed.

End Cut.

(** X17. The name of an image tells its document and its page: two images
    have the same name only when the base names of their documents and
    their indices agree.  So documents of different base names never
    write to the same file. *)
Theorem imageName_tells_stem_and_index stem1 stem2 i j :
  imageName stem1 i = imageName stem2 j → stem1 = stem2 ∧ i = j.
Proof.
  unfold imageName. intros H.
  apply (f_equal String.list_ascii_of_string) in H.
  rewrite !list_ascii_app in H. rewrite !app_assoc in H.
  apply app_inv_tail in H.
  apply (f_equal (@rev ascii)) in H.
  rewrite !rev_app_distr in H. simpl in H. rewrite <- ?app_assoc in H.
  simpl in H.
  apply split_at_first in H as [Hpad Hstem].
  - apply (f_equal (@rev ascii)) in Hpad. rewrite !rev_involutive in Hpad.
    apply string_of_list_inj, padStart_of_nat_inj in Hpad.
    injection Hstem as Hstem.
    apply (f_equal (@rev ascii)) in Hstem. rewrite !rev_involutive in Hstem.
    apply string_of_list_inj in Hstem. split; [done | lia].
  - intros Hin%list_elem_of_In%in_rev%list_elem_of_In.
    pose proof (padStart_digits "_" (not_a_digit "_" eq_refl) (i + 1)) as Hd.
    by eapply Forall_forall in Hd.
  - intros Hin%list_elem_of_In%in_rev%list_elem_of_In.
    pose proof (padStart_digits "_" (not_a_digit "_" eq_refl) (j + 1)) as Hd.
    by eapply Forall_forall in Hd.
Qed.

Lemma imageName_tells_stem_and_index_witness :
  imageName "report" 2 = imageName "report" (1 + 1)
  ∧ "report" = "report" ∧ 2 = 1 + 1.
Proof.
  assert (imageName "report" 2 = imageName "report" (1 + 1)) as H
    by reflexivity.
  split; [exact H|].
  exact (imageName_tells_stem_and_index "report" "report" 2 (1 + 1) H).
Defined.

Lemma compare_app_prefix p a b :
  String.compare (p +:+ a) (p +:+ b) = String.compare a b.
Proof.
  induction p as [|c p IH]; [done|].
  change (String.compare (String c (p +:+ a)) (String c (p +:+ b))
          = String.compare a b).
  simpl. unfold Ascii.compare. by rewrite N.compare_refl.
Qed.

Lemma padded_in_order :
  forallb (λ i,
    forallb (λ j,
      implb (i <? j)%nat
        match String.compare
                (JsString.padStart 2 "0" (JsString.of_nat (i + 1)) +:+ ".png")
                (JsString.padStart 2 "0" (JsString.of_nat (j + 1)) +:+ ".png")
        with Lt => true | _ => false end)
      (seq 0 99))
    (seq 0 99) = true.
Proof. vm_compute. reflexivity. Qed.

(** X18. Padding the index to two digits keeps the image names of one
    document in page order, by character codes, for its first 99 pages;
    with the hundredth page the order breaks: its name comes before the
    name of page 99. *)
Theorem image_names_in_page_order stem :
  (∀ i j, i < j → j < 99 →
     String.compare (imageName stem i) (imageName stem j) = Lt)
  ∧ String.compare (imageName stem 99) (imageName stem 98) = Lt.
Proof.
  split.
  - intros i j Hij Hj. unfold imageName.
    rewrite compare_app_prefix, (compare_app_prefix "_page_").
    pose proof padded_in_order as Hall.
    rewrite forallb_forall in Hall.
    specialize (Hall i). rewrite forallb_forall in Hall.
    specialize (Hall ltac:(apply in_seq; lia) j ltac:(apply in_seq; lia)).
    assert ((i <? j)%nat = true) as Hlt by by apply Nat.ltb_lt.
    rewrite Hlt in Hall. simpl in Hall.
    by destruct (String.compare _ _).
  - unfold imageName.
    by rewrite compare_app_prefix, (compare_app_prefix "_page_").
Qed.

Lemma image_names_in_page_order_witness :
  String.compare (imageName "report" 8) (imageName "report" 9) = Lt.
Proof.
  apply (proj1 (image_names_in_page_order "report") 8 9); lia.
Defined.

(* ===================================================================== *)
(** ** More about the configuration *)
(* ===================================================================== *)

Lemma or_truthy a b :
  Js.truthy (Some b) = true → Js.truthy (Some (Js.or a b)) = true.
Proof.
  intros Hb. unfold Js.or. destruct a as [v|]; [|done].
  by destruct (Js.truthy (Some v)) eqn:Hv.
Qed.

(** X11. [loadConfig] throws exactly when the configuration file holds
    [null]; a file that is missing, unreadable, unparsable or holds any
    other value gives a configuration. *)
Theorem loadConfig_throws_only_on_null project file :
  (∃ e, (loadConfig project file).1 = Throw e) ↔ file = Parsed Null.
Proof.
  split.
  - intros [e He]. destruct file as [|e0|e0|v]; try discriminate He.
    by destruct v.
  - intros ->. by eexists.
Qed.

(** X12. Every configuration that [loadConfig] returns defines the viewport
    width, height and scale, has a truthy image format and a truthy image
    quality, and has the default output directory, scan patterns and
    exclude patterns: the configuration file cannot change where the
    script looks for documents or where it writes. *)
Theorem merged_config_is_complete project file c :
  (loadConfig project file).1 = Return c →
  (∀ key, key ∈ viewport_keys → is_Some (Js.lookup key (viewport c)))
  ∧ Js.truthy (Some (imageFormat c)) = true
  ∧ Js.truthy (Some (imageQuality c)) = true
  ∧ outputDir c = path.join project "output/images"
  ∧ scanPatterns c = [path.join project "*.html"; path.join project "**/*.html"]
  ∧ excludePatterns c = excludePatterns (defaultConfig project).
Proof.
  intros Hc.
  assert (∃ custom format quality,
            c = {| outputDir := outputDir (defaultConfig project);
                   scanPatterns := scanPatterns (defaultConfig project);
                   excludePatterns := excludePatterns (defaultConfig project);
                   viewport := Js.spread defaultViewport custom;
                   imageFormat := Js.or format (Str "png");
                   imageQuality := Js.or quality (Num 100) |})
    as (custom & format & quality & ->).
  { destruct file as [|e0|e0|v];
      [injection Hc as <-; by exists None, None, None..|].
    destruct v as [| | | | |props]; try discriminate Hc;
      [injection Hc as <-; by exists None, None, None..|].
    injection Hc as <-.
    by exists (Js.lookup "viewport" props), (Js.lookup "imageFormat" props),
              (Js.lookup "imageQuality" props). }
  cbn [viewport imageFormat imageQuality outputDir scanPatterns
       excludePatterns defaultConfig].
  split; [|by rewrite !or_truthy].
  intros key Hkey. unfold Js.spread. rewrite lookup_app.
  destruct (Js.lookup key (Js.own_props custom)); [done|].
  repeat (apply elem_of_cons in Hkey as [->|Hkey]); try by eexists.
  by apply elem_of_nil in Hkey.
Qed.

Lemma merged_config_is_complete_witness :
  let file := Parsed (Obj [("outputDir", Str "/tmp"); ("imageQuality", Num 0)]) in
  ∃ c, (loadConfig "/srv" file).1 = Return c
       ∧ outputDir c = "/srv/output/images"
       ∧ Js.truthy (Some (imageQuality c)) = true.
Proof.
  intros file. eexists. split; [reflexivity|].
  destruct (merged_config_is_complete "/srv" file _ eq_refl)
    as (_ & _ & Hquality & Hdir & _).
  split; [exact Hdir | exact Hquality].
Defined.

(* ===================================================================== *)
(** ** More about a conversion: handles, disk, captures *)
(* ===================================================================== *)

Lemma filter_ne_fresh n (l : list handle) :
  Forall (λ h, h < n) l → filter (λ h, h ≠ n) l = l.
Proof.
  induction 1 as [|x l Hx Hl IH]; [done|].
  rewrite filter_cons_True by lia. f_equal. exact IH.
Qed.

Lemma filter_ne_head n (l : list handle) :
  Forall (λ h, h < n) l → filter (λ h, h ≠ n) (n :: l) = l.
Proof.
  intros Hl. rewrite filter_cons_False by (intros H; by apply H).
  by apply filter_ne_fresh.
Qed.

Section Session.

Variable E : env.
Variable CONFIG : config.

(** What a conversion can do to the handles: each list is left alone,
    gets the handle of this conversion in front, or gets it and loses it
    again. *)
Lemma convert_fields htmlFilePath w :
  let w' := (convertHtmlToImages E CONFIG htmlFilePath w).2 in
  fresh w ≤ fresh w'
  ∧ (browsers w' = browsers w
     ∨ (browsers w' = fresh w :: browsers w ∧ fresh w < fresh w')
     ∨ browsers w' = filter (λ h, h ≠ fresh w) (fresh w :: browsers w))
  ∧ (contexts w' = contexts w
     ∨ (contexts w' = S (fresh w) :: contexts w ∧ S (fresh w) < fresh w')
     ∨ contexts w' = filter (λ h, h ≠ S (fresh w)) (S (fresh w) :: contexts w))
  ∧ (pages w' = pages w
     ∨ (pages w' = S (S (fresh w)) :: pages w ∧ S (S (fresh w)) < fresh w')
     ∨ pages w' = filter (λ h, h ≠ S (S (fresh w))) (S (S (fresh w)) :: pages w)).
Proof.
  unfold convertHtmlToImages. io_run_quiet.
  1-6: simpl; repeat split; first [lia | by left | (right; left; split; [done|lia])].
  loop_cases ltac:(fun p f t els i w1 =>
    destruct (screenshotLoop_frame E CONFIG p f t els i w1)
      as (Hfresh & Hb & Hc & Hp & _)).
  - io_run_quiet; simpl in *; rewrite ?Hfresh, ?Hb, ?Hc, ?Hp;
      repeat split;
      first [lia | (right; left; split; [done|lia]) | by (right; right)].
  - simpl in *. rewrite ?Hfresh, ?Hb, ?Hc, ?Hp.
    repeat split; first [lia | (right; left; split; [done|lia])].
Qed.

(** The capture loop changes the disk only at image files of its
    document, and only by writing them. *)
Lemma screenshotLoop_disk page fileName total elements i w file :
  let w' := (screenshotLoop E CONFIG page fileName total elements i w).2 in
  disk w' !! file = disk w !! file
  ∨ (is_Some (disk w' !! file) ∧ ∃ j, file = outputPath CONFIG fileName j).
Proof.
  revert i w. induction elements as [|el rest IH]; intros i w; simpl; [by left|].
  io_run_quiet; simpl; try by left.
  match goal with |- context [screenshotLoop _ _ _ _ _ _ _ ?w1] =>
    destruct (IH (i + 1) w1) as [Hsame|Hnew]; [|by right] end.
  simpl in Hsame. rewrite Hsame.
  destruct (decide (outputPath CONFIG fileName i = file)) as [<-|Hne].
  - right. rewrite lookup_insert_eq. split; [done|by eexists].
  - left. by rewrite lookup_insert_ne.
Qed.

Lemma convert_disk htmlFilePath w file :
  let w' := (convertHtmlToImages E CONFIG htmlFilePath w).2 in
  disk w' !! file = disk w !! file
  ∨ (is_Some (disk w' !! file)
     ∧ ∃ j, file = outputPath CONFIG (path.basename htmlFilePath ".html") j).
Proof.
  unfold convertHtmlToImages. io_run_quiet.
  1-6: by left.
  loop_cases ltac:(fun p f t els i w1 =>
    pose proof (screenshotLoop_disk p f t els i w1 file) as Hdisk).
  - io_run_quiet; simpl in *; exact Hdisk.
  - simpl in *. exact Hdisk.
Qed.

(** The events of a conversion; one that returns [N] made [N] captures. *)
Lemma convert_captures htmlFilePath w :
  ∃ tr,
    trace (convertHtmlToImages E CONFIG htmlFilePath w).2 = trace w ++ tr
    ∧ ∀ N, (convertHtmlToImages E CONFIG htmlFilePath w).1 = Return N →
           length (screenshots tr) = N.
Proof.
  destruct (convert_timed E CONFIG htmlFilePath w None settled_None)
    as (tr & Htr & _).
  exists tr. split; [done|]. intros N HN.
  destruct (convertHtmlToImages E CONFIG htmlFilePath w) as [r w'] eqn:Hrun.
  simpl in *. subst r.
  apply convert_return in Hrun as (_ & Htr' & _).
  rewrite Htr' in Htr. apply app_inv_head in Htr. subst tr.
  rewrite !screenshots_app. simpl.
  rewrite screenshots_app, captures_screenshots. simpl.
  by rewrite app_nil_r, length_fmap, length_seq.
Qed.

(** An induction principle for the loop of [main]: a relation between the
    counters and world before and after that holds across each turn, and
    is reflexive and transitive, holds across the loop; and the loop
    returns. *)
Lemma convertLoop_rel (P : world → Prop)
  (R : nat * nat * nat * world → nat * nat * nat * world → Prop)
  (Q : string → Prop) :
  (∀ x, R x x) →
  (∀ x y z, R x y → R y z → R x z) →
  (∀ file n t s f w w1,
     Q file → P w →
     convertHtmlToImages E CONFIG file w = (Return n, w1) →
     P w1 ∧ R (t, s, f, w) (t + n, s + 1, f, w1)) →
  (∀ file e t s f w w1,
     Q file → P w →
     convertHtmlToImages E CONFIG file w = (Throw e, w1) →
     P (print (ErrorProcessing file (message e)) w1)
     ∧ R (t, s, f, w) (t, s, f + 1, print (ErrorProcessing file (message e)) w1)) →
  ∀ htmlFiles t s f w,
    Forall Q htmlFiles → P w →
    ∃ t' s' f' w',
      convertLoop E CONFIG htmlFiles t s f w = (Return (t', s', f'), w')
      ∧ P w' ∧ R (t, s, f, w) (t', s', f', w').
Proof.
  intros Hrefl Htrans Hok Herr htmlFiles.
  induction htmlFiles as [|file rest IH]; intros t s f w HQ HP.
  { exists t, s, f, w. simpl. done. }
  apply Forall_cons in HQ as [HQfile HQ].
  destruct (convertHtmlToImages E CONFIG file w) as [[n|e] w1] eqn:Hrun.
  - rewrite (convertLoop_return _ _ _ _ _ _ _ _ _ _ Hrun).
    destruct (Hok _ _ t s f _ _ HQfile HP Hrun) as [HP1 HR1].
    destruct (IH (t + n) (s + 1) f w1 HQ HP1) as (t' & s' & f' & w' & -> & HP' & HR').
    exists t', s', f', w'. eauto.
  - rewrite (convertLoop_throw _ _ _ _ _ _ _ _ _ _ Hrun).
    destruct (Herr _ _ t s f _ _ HQfile HP Hrun) as [HP1 HR1].
    destruct (IH t s (f + 1) _ HQ HP1) as (t' & s' & f' & w' & -> & HP' & HR').
    exists t', s', f', w'. eauto.
Qed.

End Session.

Lemma convert_handles E CONFIG htmlFilePath w :
  handles_fresh w →
  let run := convertHtmlToImages E CONFIG htmlFilePath w in
  handles_fresh run.2
  ∧ (∀ h, h ∈ browsers w → h ∈ browsers run.2)
  ∧ (∀ h, h ∈ contexts w → h ∈ contexts run.2)
  ∧ (∀ h, h ∈ pages w → h ∈ pages run.2)
  ∧ length (browsers run.2) ≤ S (length (browsers w))
  ∧ (∀ N, run.1 = Return N →
       browsers run.2 = browsers w ∧ contexts run.2 = contexts w
       ∧ pages run.2 = pages w).
Proof.
  intros (Hb & Hc & Hp) run.
  destruct (convert_fields E CONFIG htmlFilePath w) as (Hfresh & Hb' & Hc' & Hp').
  fold run in Hfresh, Hb', Hc', Hp'.
  assert (∀ l, Forall (λ h, h < fresh w) l → Forall (λ h, h < fresh run.2) l)
    as Hweak.
  { intros l Hl. eapply Forall_impl; [exact Hl|]. intros; simpl in *; lia. }
  assert (Forall (λ h, h < S (fresh w)) (contexts w)) as Hc1.
  { eapply Forall_impl; [exact Hc|]. intros; simpl in *; lia. }
  assert (Forall (λ h, h < S (S (fresh w))) (pages w)) as Hp1.
  { eapply Forall_impl; [exact Hp|]. intros; simpl in *; lia. }
  assert (browsers run.2 = browsers w
          ∨ (browsers run.2 = fresh w :: browsers w ∧ fresh w < fresh run.2))
    as Hb''.
  { destruct Hb' as [?|[?|Heq]]; [by left|by right|left].
    rewrite Heq. by apply filter_ne_head. }
  assert (contexts run.2 = contexts w
          ∨ (contexts run.2 = S (fresh w) :: contexts w
             ∧ S (fresh w) < fresh run.2))
    as Hc''.
  { destruct Hc' as [?|[?|Heq]]; [by left|by right|left].
    rewrite Heq. by apply filter_ne_head. }
  assert (pages run.2 = pages w
          ∨ (pages run.2 = S (S (fresh w)) :: pages w
             ∧ S (S (fresh w)) < fresh run.2))
    as Hp''.
  { destruct Hp' as [?|[?|Heq]]; [by left|by right|left].
    rewrite Heq. by apply filter_ne_head. }
  clear Hb' Hc' Hp'.
  split; [|split; [|split; [|split; [|split]]]].
  - repeat split.
    + destruct Hb'' as [->|[-> ?]]; [by apply Hweak|].
      constructor; [done|by apply Hweak].
    + destruct Hc'' as [->|[-> ?]]; [by apply Hweak|].
      constructor; [done|by apply Hweak].
    + destruct Hp'' as [->|[-> ?]]; [by apply Hweak|].
      constructor; [done|by apply Hweak].
  - intros h Hh. destruct Hb'' as [->|[-> ?]]; [done|by right].
  - intros h Hh. destruct Hc'' as [->|[-> ?]]; [done|by right].
  - intros h Hh. destruct Hp'' as [->|[-> ?]]; [done|by right].
  - destruct Hb'' as [->|[-> ?]]; simpl; lia.
  - intros N HN. subst run.
    destruct (convertHtmlToImages E CONFIG htmlFilePath w) as [r w'] eqn:Hrun.
    simpl in HN |- *. subst r.
    apply convert_return in Hrun as (_ & _ & _ & _ & -> & -> & ->).
    repeat split; by apply filter_ne_head.
Qed.

(** X6. A conversion never closes a handle it did not open: in a world
    whose open handles were all handed out before, every browser, context
    and page that was open stays open, the handles stay below the next
    one, and at most one more browser is open afterwards; a conversion
    that returns leaves exactly the browsers, contexts and pages that were
    open before. *)
Theorem conversion_keeps_other_sessions E CONFIG htmlFilePath w :
  handles_fresh w →
  let run := convertHtmlToImages E CONFIG htmlFilePath w in
  handles_fresh run.2
  ∧ (∀ h, h ∈ browsers w → h ∈ browsers run.2)
  ∧ (∀ h, h ∈ contexts w → h ∈ contexts run.2)
  ∧ (∀ h, h ∈ pages w → h ∈ pages run.2)
  ∧ length (browsers run.2) ≤ S (length (browsers w))
  ∧ (∀ N, run.1 = Return N →
       browsers run.2 = browsers w ∧ contexts run.2 = contexts w
       ∧ pages run.2 = pages w).
Proof. apply convert_handles. Qed.

Lemma initial_handles_fresh : handles_fresh initial.
Proof. repeat split; constructor. Qed.

(** X6, at an input: the first document cannot be loaded and leaves its
    browser, context and page (handles 0, 1, 2) open; the conversion of
    the second document opens and closes its own and leaves those
    three. *)
Lemma conversion_keeps_other_sessions_witness :
  let E := project_env ["/srv/bad.html"; "/srv/good.html"] 2 []
             ["/srv/bad.html"] in
  let w := (convertHtmlToImages E srv "/srv/bad.html" initial).2 in
  let run := convertHtmlToImages E srv "/srv/good.html" w in
  (browsers w = [0] ∧ contexts w = [1] ∧ pages w = [2])
  ∧ run.1 = Return 2
  ∧ (0 ∈ browsers run.2 ∧ 1 ∈ contexts run.2 ∧ 2 ∈ pages run.2)
  ∧ browsers run.2 = browsers w ∧ contexts run.2 = contexts w
  ∧ pages run.2 = pages w.
Proof.
  intros E w run.
  assert (browsers w = [0] ∧ contexts w = [1] ∧ pages w = [2]) as Hopen
    by (vm_compute; done).
  assert (handles_fresh w) as Hfresh.
  { destruct Hopen as (Hb & Hc & Hp). unfold handles_fresh.
    rewrite Hb, Hc, Hp.
    assert (fresh w = 3) as -> by (vm_compute; reflexivity).
    repeat split; repeat constructor. }
  assert (run.1 = Return 2) as Hrun by (vm_compute; reflexivity).
  destruct (conversion_keeps_other_sessions E srv "/srv/good.html" w Hfresh)
    as (_ & Hb & Hc & Hp & _ & Hreturn).
  fold run in Hb, Hc, Hp, Hreturn.
  destruct Hopen as (Hb0 & Hc0 & Hp0).
  split; [done|]. split; [exact Hrun|]. split.
  - split; [|split].
    + apply Hb. rewrite Hb0. by left.
    + apply Hc. rewrite Hc0. by left.
    + apply Hp. rewrite Hp0. by left.
  - exact (Hreturn 2 Hrun).
Defined.

(* ===================================================================== *)
(** ** More about the loop of [main] *)
(* ===================================================================== *)

Lemma handles_fresh_print l w : handles_fresh (print l w) ↔ handles_fresh w.
Proof. done. Qed.

Lemma convertLoop_handles E CONFIG htmlFiles w :
  handles_fresh w →
  ∃ totalPages successCount failCount w',
    convertLoop E CONFIG htmlFiles 0 0 0 w
    = (Return (totalPages, successCount, failCount), w')
    ∧ handles_fresh w'
    ∧ (∀ h, h ∈ browsers w → h ∈ browsers w')
    ∧ length (browsers w') ≤ length (browsers w) + failCount
    ∧ (failCount = 0 →
       browsers w' = browsers w ∧ contexts w' = contexts w
       ∧ pages w' = pages w).
Proof.
  intros Hw.
  destruct (convertLoop_rel E CONFIG handles_fresh
    (λ x y,
       x.1.2 ≤ y.1.2
       ∧ (∀ h, h ∈ browsers x.2 → h ∈ browsers y.2)
       ∧ length (browsers y.2) + x.1.2 ≤ length (browsers x.2) + y.1.2
       ∧ (y.1.2 = x.1.2 →
          browsers y.2 = browsers x.2 ∧ contexts y.2 = contexts x.2
          ∧ pages y.2 = pages x.2))
    (λ _, True)) with (htmlFiles := htmlFiles) (t := 0) (s := 0) (f := 0) (w := w)
    as (t & s & f & w' & Hrun & Hw' & Hle & Hkeep & Hlen & Hsame).
  - intros [[[t s] f] w0]. simpl. repeat split; auto; lia.
  - intros [[[t1 s1] f1] w1] [[[t2 s2] f2] w2] [[[t3 s3] f3] w3]. simpl.
    intros (H12 & Hk12 & Hl12 & Hs12) (H23 & Hk23 & Hl23 & Hs23).
    split; [lia|]. split; [auto|]. split; [lia|].
    intros Heq.
    destruct Hs23 as (-> & -> & ->); [lia|].
    destruct Hs12 as (-> & -> & ->); [lia|]. done.
  - intros file n t s f w0 w1 _ Hw0 Hrun. simpl.
    destruct (convert_handles E CONFIG file w0 Hw0)
      as (Hw1 & Hb & _ & _ & _ & Hret).
    rewrite Hrun in Hw1, Hb, Hret. simpl in *.
    destruct (Hret n eq_refl) as (Hb1 & Hc1 & Hp1).
    repeat split; try apply Hw1; auto; try lia. rewrite Hb1. lia.
  - intros file e t s f w0 w1 _ Hw0 Hrun. simpl.
    destruct (convert_handles E CONFIG file w0 Hw0)
      as (Hw1 & Hb & _ & _ & Hlen & _).
    rewrite Hrun in Hw1, Hb, Hlen. simpl in *.
    repeat split; try apply Hw1; auto; lia.
  - by apply Forall_true.
  - done.
  - exists t, s, f, w'. simpl in *.
    split; [done|]. split; [done|]. split; [done|]. split; [lia|done].
Qed.

(** X7. Failed files are what leaks browsers.  In a world whose open
    handles were all handed out before, the loop of [main] closes no
    browser that was open, and leaves at most one more browser open per
    failed file; when no file fails, exactly the browsers, contexts and
    pages that were open before are open after. *)
Theorem leaks_bounded_by_failures E CONFIG htmlFiles w :
  handles_fresh w →
  ∃ totalPages successCount failCount w',
    convertLoop E CONFIG htmlFiles 0 0 0 w
    = (Return (totalPages, successCount, failCount), w')
    ∧ handles_fresh w'
    ∧ (∀ h, h ∈ browsers w → h ∈ browsers w')
    ∧ length (browsers w') ≤ length (browsers w) + failCount
    ∧ (failCount = 0 →
       browsers w' = browsers w ∧ contexts w' = contexts w
       ∧ pages w' = pages w).
Proof. apply convertLoop_handles. Qed.

Lemma leaks_bounded_by_failures_witness :
  let E := project_env [] 1 [] ["/srv/a.html"] in
  ∃ totalPages successCount failCount w',
    convertLoop E srv ["/srv/a.html"; "/srv/b.html"] 0 0 0 initial
    = (Return (totalPages, successCount, failCount), w')
    ∧ length (browsers w') ≤ length (browsers initial) + failCount.
Proof.
  intros E.
  destruct (leaks_bounded_by_failures E srv ["/srv/a.html"; "/srv/b.html"]
              initial initial_handles_fresh)
    as (t & s & f & w' & Hrun & _ & _ & Hlen & _).
  by exists t, s, f, w'.
Defined.

Lemma convertLoop_captures E CONFIG htmlFiles w :
  ∃ totalPages successCount failCount w',
    convertLoop E CONFIG htmlFiles 0 0 0 w
    = (Return (totalPages, successCount, failCount), w')
    ∧ totalPages ≤ length (screenshots (since w w'))
    ∧ (failCount = 0 → totalPages = length (screenshots (since w w'))).
Proof.
  destruct (convertLoop_rel E CONFIG (λ _, True)
    (λ x y,
       x.1.2 ≤ y.1.2
       ∧ ∃ tr, trace y.2 = trace x.2 ++ tr
               ∧ y.1.1.1 ≤ x.1.1.1 + length (screenshots tr)
               ∧ (y.1.2 = x.1.2 → y.1.1.1 = x.1.1.1 + length (screenshots tr)))
    (λ _, True)) with (htmlFiles := htmlFiles) (t := 0) (s := 0) (f := 0) (w := w)
    as (t & s & f & w' & Hrun & _ & Hle & tr & Htr & Hmost & Hall).
  - intros [[[t s] f] w0]. simpl. split; [lia|]. exists [].
    rewrite app_nil_r. simpl. split; [done|]. split; lia.
  - intros [[[t1 s1] f1] w1] [[[t2 s2] f2] w2] [[[t3 s3] f3] w3]. simpl.
    intros (H12 & tr12 & Htr12 & Hm12 & Ha12) (H23 & tr23 & Htr23 & Hm23 & Ha23).
    split; [lia|]. exists (tr12 ++ tr23).
    rewrite Htr23, Htr12, <- app_assoc, screenshots_app, length_app.
    split; [done|]. split; [lia|]. intros Heq.
    rewrite Ha23, Ha12; lia.
  - intros file n t s f w0 w1 _ _ Hrun. simpl. split; [done|]. split; [lia|].
    destruct (convert_captures E CONFIG file w0) as (tr & Htr & HN).
    rewrite Hrun in Htr, HN. simpl in *. exists tr.
    rewrite (HN n eq_refl). split; [done|]. split; lia.
  - intros file e t s f w0 w1 _ _ Hrun. simpl. split; [done|]. split; [lia|].
    destruct (convert_captures E CONFIG file w0) as (tr & Htr & _).
    rewrite Hrun in Htr. simpl in *. exists tr.
    split; [done|]. split; lia.
  - by apply Forall_true.
  - done.
  - exists t, s, f, w'. simpl in *. rewrite (since_app _ _ _ Htr).
    split; [done|]. split; [lia|]. intros ->. apply Hall. done.
Qed.

(** X8. The total of pages that the summary prints counts the captures of
    the files that succeeded only: it never exceeds the number of captures
    made, and equals it when no file fails. *)
Theorem total_pages_counts_successes E CONFIG htmlFiles w :
  ∃ totalPages successCount failCount w',
    convertLoop E CONFIG htmlFiles 0 0 0 w
    = (Return (totalPages, successCount, failCount), w')
    ∧ totalPages ≤ length (screenshots (since w w'))
    ∧ (failCount = 0 → totalPages = length (screenshots (since w w'))).
Proof. apply convertLoop_captures. Qed.

(** The total at an input: the second capture of the only document
    fails; its first image is on disk and the total of pages is zero. *)
Example total_pages_skips_failed_files :
  let E :=
    {| fault := λ _ c,
         match c with
         | Screenshot (Locator _ 1) _ _ => Some (Error "Target closed")
         | _ => None
         end;
       matched := λ _ _ _, [];
       located := λ _ _ _, 2 |} in
  let run := convertLoop E srv ["/srv/report.html"] 0 0 0 initial in
  run.1 = Return (0, 0, 1)
  ∧ screenshots (trace run.2)
    = [(Locator 2 0, "/srv/output/images/report_page_01.png")]
  ∧ disk run.2 = {[ "/srv/output/images/report_page_01.png"
                    := Image "file:///srv/report.html" 0 ]}.
Proof. vm_compute. done. Qed.

(* ===================================================================== *)
(** ** More about [main] *)
(* ===================================================================== *)

Section MainRun.

Variable E : env.
Variable CONFIG : config.

(** Scanning leaves the handles and the disk alone. *)
Lemma scanLoop_frame patterns allFiles w :
  let w' := (scanLoop E CONFIG patterns allFiles w).2 in
  fresh w' = fresh w ∧ browsers w' = browsers w ∧ contexts w' = contexts w
  ∧ pages w' = pages w ∧ disk w' = disk w.
Proof.
  revert allFiles w. induction patterns as [|pattern rest IH];
    intros allFiles w; simpl; [done|].
  io_run_quiet;
    match goal with |- context [scanLoop _ _ _ ?l ?w1] =>
      destruct (IH l w1) as (-> & -> & -> & -> & ->) end; done.
Qed.

Lemma scanHtmlFiles_frame w :
  let w' := (scanHtmlFiles E CONFIG w).2 in
  fresh w' = fresh w ∧ browsers w' = browsers w ∧ contexts w' = contexts w
  ∧ pages w' = pages w ∧ disk w' = disk w.
Proof.
  pose proof (scanLoop_frame (scanPatterns CONFIG) [] w) as H.
  unfold scanHtmlFiles, mbind, io_bind.
  destruct (scanLoop E CONFIG (scanPatterns CONFIG) [] w) as [[l|e] w'];
    exact H.
Qed.

(** The listing prints one numbered line per file and does nothing else. *)
Lemma listFiles_run htmlFiles index w :
  ∃ w',
    listFiles htmlFiles index w = (Return (), w')
    ∧ console w' = console w ++ imap (λ k file, Listed (index + k + 1) file) htmlFiles
    ∧ trace w' = trace w ∧ fresh w' = fresh w ∧ browsers w' = browsers w
    ∧ contexts w' = contexts w ∧ pages w' = pages w ∧ disk w' = disk w.
Proof.
  revert index w. induction htmlFiles as [|file rest IH]; intros index w; simpl.
  { exists w. by rewrite app_nil_r. }
  io_unfold.
  destruct (IH (index + 1) (print (Listed (index + 1) file) w))
    as (w' & Hrun & Hcons & Htr & Hf & Hb & Hc & Hp & Hd).
  exists w'. rewrite Hrun, Hcons, Htr, Hf, Hb, Hc, Hp, Hd. simpl.
  rewrite <- app_assoc. simpl. rewrite Nat.add_0_r.
  repeat split; try done. do 2 f_equal.
  apply imap_ext. intros k x _. simpl. f_equal. lia.
Qed.

Lemma ensureOutputDir_run w :
  ensureOutputDir E CONFIG w
  = match fault E (trace w) (Mkdir (outputDir CONFIG)) with
    | Some e =>
        (Throw e,
         print (ErrorCreatingOutputDirectory e)
           (record (Mkdir (outputDir CONFIG), Some e) w))
    | None =>
        (Return (),
         print (OutputDirectoryReady (outputDir CONFIG))
           (record (Mkdir (outputDir CONFIG), None) w))
    end.
Proof.
  unfold ensureOutputDir. io_unfold. unfold perform.
  by destruct (fault E (trace w) (Mkdir (outputDir CONFIG))).
Qed.

(** [main] when the output directory can be made: scan, then either the
    two lines about no files, or the listing and the conversions. *)
Lemma main_run w htmlFiles w2 :
  fault E (trace w) (Mkdir (outputDir CONFIG)) = None →
  scanHtmlFiles E CONFIG (scanning CONFIG w) = (Return htmlFiles, w2) →
  main E CONFIG w
  = if decide (length htmlFiles = 0) then
      (Return (), print PleaseAddHtmlFiles (print NoHtmlFilesFound w2))
    else
      convertAll E CONFIG htmlFiles
        (listFiles htmlFiles 0 (print (FoundHtmlFiles (length htmlFiles)) w2)).2.
Proof.
  intros Hmkdir Hscan. unfold main.
  unfold mbind at 1 2 3 4 5 6, io_bind. unfold log at 1 2 3 4, modify.
  rewrite ensureOutputDir_run. simpl trace. rewrite Hmkdir.
  fold (scanning CONFIG w). rewrite Hscan.
  destruct (decide (length htmlFiles = 0)); [done|].
  unfold mbind, io_bind, log, modify.
  destruct (listFiles_run htmlFiles 0 (print (FoundHtmlFiles (length htmlFiles)) w2))
    as (w3 & -> & _). done.
Qed.

End MainRun.

Lemma image_written_trans CONFIG Q w1 w2 w3 file :
  image_written CONFIG Q w1 w2 file → image_written CONFIG Q w2 w3 file →
  image_written CONFIG Q w1 w3 file.
Proof.
  unfold image_written. intros H12 [H23|H23]; [|by right].
  rewrite H23. done.
Qed.

Lemma convertLoop_disk E CONFIG htmlFiles t s f w file :
  image_written CONFIG (λ d, d ∈ htmlFiles) w
    (convertLoop E CONFIG htmlFiles t s f w).2 file.
Proof.
  destruct (convertLoop_rel E CONFIG (λ _, True)
    (λ x y, image_written CONFIG (λ d, d ∈ htmlFiles) x.2 y.2 file)
    (λ d, d ∈ htmlFiles)) with (htmlFiles := htmlFiles) (t := t) (s := s) (f := f) (w := w)
    as (t' & s' & f' & w' & -> & _ & Hdisk); try done.
  - intros x. by left.
  - intros x y z. apply image_written_trans.
  - intros d n t0 s0 f0 w0 w1 Hd _ Hrun. split; [done|]. simpl.
    destruct (convert_disk E CONFIG d w0 file) as [Hsame|[Hsome [j ->]]];
      rewrite Hrun in *; simpl in *; [by left|].
    right. split; [done|]. by exists d, j.
  - intros d e t0 s0 f0 w0 w1 Hd _ Hrun. split; [done|]. simpl.
    destruct (convert_disk E CONFIG d w0 file) as [Hsame|[Hsome [j ->]]];
      rewrite Hrun in *; simpl in *; [by left|].
    right. split; [done|]. by exists d, j.
  - by apply Forall_forall.
Qed.

Lemma convertAll_run E CONFIG htmlFiles w :
  ∃ t s f w1,
    convertLoop E CONFIG htmlFiles 0 0 0 w = (Return (t, s, f), w1)
    ∧ convertAll E CONFIG htmlFiles w
      = (Return (),
         print (OutputDirectory (outputDir CONFIG))
           (print (TotalPages t)
              (print (Processed s f) (print ConversionComplete w1)))).
Proof.
  destruct (convertLoop_spec E CONFIG htmlFiles 0 0 0 w)
    as (t & s & f & w1 & lines & Hloop & _).
  exists t, s, f, w1. split; [done|].
  unfold convertAll, mbind, io_bind. rewrite Hloop. done.
Qed.


Lemma main_outcome E CONFIG w :
  match fault E (trace w) (Mkdir (outputDir CONFIG)) with
  | Some e =>
      ∃ w', main E CONFIG w = (Throw e, w')
            ∧ since w w' = [(Mkdir (outputDir CONFIG), Some e)]
            ∧ printed w w'
              = [Started;
                 Resolution (viewportWidth CONFIG) (viewportHeight CONFIG)
                   (viewportScale CONFIG);
                 EffectiveDpi (viewportScale CONFIG);
                 ErrorCreatingOutputDirectory e]
            ∧ disk w' = disk w ∧ browsers w' = browsers w
  | None => ∃ w', main E CONFIG w = (Return (), w')
  end.
Proof.
  destruct (fault E (trace w) (Mkdir (outputDir CONFIG))) as [e|] eqn:Hmkdir.
  - unfold main. unfold mbind at 1 2 3 4, io_bind.
    unfold log at 1 2 3, modify.
    rewrite ensureOutputDir_run. simpl trace. rewrite Hmkdir.
    eexists. split; [reflexivity|]. unfold since, printed. simpl.
    rewrite !drop_app_length.
    rewrite <- !app_assoc. by rewrite drop_app_length.
  - destruct (scanHtmlFiles_spec E CONFIG (scanning CONFIG w))
      as (w2 & tr & Hscan & _).
    rewrite (main_run E CONFIG w _ w2 Hmkdir Hscan).
    destruct (decide _); [by eexists|].
    destruct (convertAll_run E CONFIG (sort (unique (harvest E (trace (scanning CONFIG w)) tr)))
                (listFiles (sort (unique (harvest E (trace (scanning CONFIG w)) tr))) 0
                   (print (FoundHtmlFiles (length (sort (unique (harvest E (trace (scanning CONFIG w)) tr))))) w2)).2)
      as (t & s & f & w1 & _ & ->).
    by eexists.
Qed.




(** X3. [main] never deletes a file and writes only images: whatever the
    libraries do, a file on disk is either as it was before [main], or it
    exists and is [{outputDir}/{stem}_page_{NN}.png] for the base name
    [stem] of one of the documents that the scan returned. *)
Theorem main_writes_only_images E CONFIG w :
  ∃ htmlFiles,
    (scanHtmlFiles E CONFIG (scanning CONFIG w)).1 = Return htmlFiles
    ∧ ∀ file,
        disk (main E CONFIG w).2 !! file = disk w !! file
        ∨ (is_Some (disk (main E CONFIG w).2 !! file)
           ∧ ∃ document i,
               document ∈ htmlFiles
               ∧ file = path.join (outputDir CONFIG)
                          (imageName (path.basename document ".html") i)).
Proof.
  destruct (scanHtmlFiles_spec E CONFIG (scanning CONFIG w))
    as (w2 & tr & Hscan & _).
  eexists. split; [by rewrite Hscan|]. intros file.
  pose proof (main_outcome E CONFIG w) as Hmain.
  destruct (fault E (trace w) (Mkdir (outputDir CONFIG))) as [e|] eqn:Hmkdir.
  { destruct Hmain as (w' & Hrun & _ & _ & Hd & _).
    rewrite Hrun. simpl. left. by rewrite Hd. }
  clear Hmain. rewrite (main_run E CONFIG w _ w2 Hmkdir Hscan).
  destruct (scanHtmlFiles_frame E CONFIG (scanning CONFIG w))
    as (_ & _ & _ & _ & Hd).
  rewrite Hscan in Hd. simpl in Hd.
  destruct (decide _); [left; simpl; by rewrite Hd|].
  set (htmlFiles := sort (unique (harvest E (trace (scanning CONFIG w)) tr))) in *.
  destruct (listFiles_run htmlFiles 0 (print (FoundHtmlFiles (length htmlFiles)) w2))
    as (w3 & Hlist & _ & _ & _ & _ & _ & _ & Hd3).
  rewrite Hlist. simpl snd.
  pose proof (convertLoop_disk E CONFIG htmlFiles 0 0 0 w3 file) as Hloop.
  destruct (convertAll_run E CONFIG htmlFiles w3) as (t & s & f & w1 & Hrun & ->).
  rewrite Hrun in Hloop. simpl in Hloop |- *.
  unfold image_written in Hloop. rewrite Hd3 in Hloop. simpl in Hloop.
  rewrite Hd in Hloop. exact Hloop.
Qed.

Lemma errors_length_nil lines : length (errors lines) = 0 → errors lines = [].
Proof. by destruct (errors lines). Qed.

(** X9. When no library call throws, the loop of [main] counts every file
    as a success and none as a failure, prints no error line, counts
    every capture in the total of pages and, in a world whose open handles
    were all handed out before, leaves open exactly the browsers, contexts
    and pages that were open before. *)
Theorem faultless_loop E CONFIG htmlFiles w :
  (∀ h c, fault E h c = None) →
  handles_fresh w →
  ∃ totalPages w',
    convertLoop E CONFIG htmlFiles 0 0 0 w
    = (Return (totalPages, length htmlFiles, 0), w')
    ∧ errors (printed w w') = []
    ∧ totalPages = length (screenshots (since w w'))
    ∧ browsers w' = browsers w ∧ contexts w' = contexts w
    ∧ pages w' = pages w.
Proof.
  intros Hquiet Hw.
  destruct (convertLoop_rel E CONFIG (λ _, True) (λ x y, y.1.2 = x.1.2)
              (λ _, True))
    with (htmlFiles := htmlFiles) (t := 0) (s := 0) (f := 0) (w := w)
    as (t & s & f & w' & Hrun & _ & Hf); try done.
  - intros x y z. congruence.
  - intros file e t s f w0 w1 _ _ Hthrow.
    destruct (convert_no_fault E CONFIG file w0 Hquiet) as (N & w2 & Hret).
    congruence.
  - by apply Forall_true.
  - simpl in Hf. subst f.
    destruct (convertLoop_spec E CONFIG htmlFiles 0 0 0 w)
      as (t1 & s1 & f1 & w1 & lines & Hspec & Hsum & Hcons & _ & _ & Hf1).
    destruct (convertLoop_handles E CONFIG htmlFiles w Hw)
      as (t2 & s2 & f2 & w2 & Hh & _ & _ & _ & Hsame).
    destruct (convertLoop_captures E CONFIG htmlFiles w)
      as (t3 & s3 & f3 & w3 & Hc & _ & Hall).
    rewrite Hrun in Hspec, Hh, Hc.
    injection Hspec as <- <- <- <-. injection Hh as <- <- <- <-.
    injection Hc as <- <- <- <-.
    assert (s = length htmlFiles) as Hs by lia. rewrite Hs in Hrun.
    exists t, w'. split; [done|]. rewrite (printed_app _ _ _ Hcons).
    split; [apply errors_length_nil; lia|].
    split; [by apply Hall|]. by apply Hsame.
Qed.

Lemma faultless_loop_witness :
  let E := project_env [] 2 [] [] in
  ∃ w', convertLoop E srv ["/srv/a.html"; "/srv/b.html"] 0 0 0 initial
        = (Return (4, 2, 0), w')
        ∧ browsers w' = [].
Proof.
  intros E.
  destruct (faultless_loop E srv ["/srv/a.html"; "/srv/b.html"] initial)
    as (t & w' & Hrun & _ & Ht & Hb & _);
    [by intros h [] | apply initial_handles_fresh |].
  exists w'. split; [|exact Hb].
  assert ((convertLoop E srv ["/srv/a.html"; "/srv/b.html"] 0 0 0 initial).1
          = Return (4, 2, 0)) as H4 by (vm_compute; reflexivity).
  rewrite Hrun in H4 |- *. simpl in H4. injection H4 as ->. reflexivity.
Defined.


(* ===================================================================== *)
(** ** More about discovery and about what a conversion reads *)
(* ===================================================================== *)

Lemma scanLoop_members E CONFIG patterns allFiles w :
  glob_stable E →
  ∃ l w',
    scanLoop E CONFIG patterns allFiles w = (Return l, w')
    ∧ ∀ file,
        file ∈ l
        ↔ file ∈ allFiles
          ∨ ∃ pattern,
              pattern ∈ patterns
              ∧ fault E [] (Glob pattern (excludePatterns CONFIG)) = None
              ∧ file ∈ matched E [] pattern (excludePatterns CONFIG).
Proof.
  intros Hstable. revert allFiles w.
  induction patterns as [|pattern rest IH]; intros allFiles w; simpl.
  { exists allFiles, w. split; [done|]. intros file. split; [by left|].
    intros [?|(p & Hp & _)]; [done|]. by apply elem_of_nil in Hp. }
  destruct (Hstable (trace w) [] pattern (excludePatterns CONFIG))
    as [Hfault Hmatch].
  io_unfold. unfold perform.
  destruct (fault E (trace w) _) as [e|] eqn:He; cbn beta iota.
  - match goal with |- context [scanLoop _ _ _ ?l ?w1] =>
      destruct (IH l w1) as (l' & w' & -> & Hl') end.
    exists l', w'. split; [done|]. intros file. rewrite Hl'.
    split; intros [?|(p & Hp & Hok & Hin)]; auto; right.
    + exists p. split; [by right|done].
    + apply elem_of_cons in Hp as [->|Hp]; [|by exists p].
      destruct Hfault as [_ Hfault]. specialize (Hfault Hok). congruence.
  - match goal with |- context [scanLoop _ _ _ ?l ?w1] =>
      destruct (IH l w1) as (l' & w' & -> & Hl') end.
    exists l', w'. split; [done|]. intros file. rewrite Hl', elem_of_app, Hmatch.
    split.
    + intros [[?|?]|(p & Hp & Hok & Hin)]; auto; right.
      * exists pattern. split; [by left|]. split; [by apply Hfault|done].
      * exists p. split; [by right|done].
    + intros [?|(p & Hp & Hok & Hin)]; auto.
      apply elem_of_cons in Hp as [->|Hp]; [by left; right|].
      right. by exists p.
Qed.

(** X13. When the directory tree does not change, the scan returns exactly
    the files that some scan pattern whose [glob] call works matches,
    given the exclude patterns: no matched file is dropped. *)
Theorem discovery_is_complete E CONFIG w :
  glob_stable E →
  ∃ files w',
    scanHtmlFiles E CONFIG w = (Return files, w')
    ∧ ∀ file,
        file ∈ files
        ↔ ∃ pattern,
            pattern ∈ scanPatterns CONFIG
            ∧ fault E [] (Glob pattern (excludePatterns CONFIG)) = None
            ∧ file ∈ matched E [] pattern (excludePatterns CONFIG).
Proof.
  intros Hstable.
  destruct (scanLoop_members E CONFIG (scanPatterns CONFIG) [] w Hstable)
    as (l & w' & Hrun & Hl).
  exists (sort (unique l)), w'. unfold scanHtmlFiles, mbind, io_bind.
  rewrite Hrun. split; [done|]. intros file.
  rewrite elem_of_sort_unique, Hl. split; [|by right].
  intros [Hin|?]; [by apply elem_of_nil in Hin|done].
Qed.

Lemma discovery_is_complete_witness :
  let tree := ["/srv/b/report.html"; "/srv/a/report.html"; "/srv/index.html"] in
  let E := project_env tree 1 ["/srv/*.html"] [] in
  ∃ files w',
    scanHtmlFiles E srv initial = (Return files, w')
    ∧ "/srv/a/report.html" ∈ files.
Proof.
  intros tree E.
  destruct (discovery_is_complete E srv initial (project_env_stable _ _ _ _))
    as (files & w' & Hrun & Hfiles).
  exists files, w'. split; [exact Hrun|].
  apply Hfiles. exists "/srv/**/*.html".
  split; [by right; left|]. split; [reflexivity|].
  apply list_elem_of_In. vm_compute. tauto.
Defined.

(** X14. When the directory tree does not change, the scan depends on the
    set of scan patterns only: listing them in another order, or twice,
    gives the same list of files. *)
Theorem discovery_ignores_pattern_order E C1 C2 w1 w2 :
  glob_stable E →
  (∀ pattern, pattern ∈ scanPatterns C1 ↔ pattern ∈ scanPatterns C2) →
  excludePatterns C1 = excludePatterns C2 →
  (scanHtmlFiles E C1 w1).1 = (scanHtmlFiles E C2 w2).1.
Proof.
  intros Hstable Hsame Hexcl.
  destruct (scanLoop_members E C1 (scanPatterns C1) [] w1 Hstable)
    as (l1 & w1' & Hrun1 & Hl1).
  destruct (scanLoop_members E C2 (scanPatterns C2) [] w2 Hstable)
    as (l2 & w2' & Hrun2 & Hl2).
  unfold scanHtmlFiles, mbind, io_bind. rewrite Hrun1, Hrun2. simpl.
  f_equal. apply sort_unique_ext. intros file.
  rewrite Hl1, Hl2, Hexcl.
  split; intros [?|(p & Hp & ?)]; auto; right; exists p;
    (split; [by apply Hsame|done]).
Qed.

Lemma discovery_ignores_pattern_order_witness :
  let tree := ["/srv/b/report.html"; "/srv/a/report.html"; "/srv/index.html"] in
  let E := project_env tree 1 [] [] in
  let swapped :=
    {| outputDir := outputDir srv;
       scanPatterns := ["/srv/**/*.html"; "/srv/*.html"; "/srv/**/*.html"];
       excludePatterns := excludePatterns srv;
       viewport := viewport srv;
       imageFormat := imageFormat srv;
       imageQuality := imageQuality srv |} in
  (scanHtmlFiles E srv initial).1 = (scanHtmlFiles E swapped initial).1.
Proof.
  intros tree E swapped.
  apply (discovery_ignores_pattern_order E srv swapped initial initial).
  - apply project_env_stable.
  - intros pattern. simpl. rewrite !elem_of_cons. tauto.
  - reflexivity.
Defined.

Lemma screenshotLoop_config E C1 C2 page fileName total elements i w :
  outputDir C1 = outputDir C2 → imageFormat C1 = imageFormat C2 →
  screenshotLoop E C1 page fileName total elements i w
  = screenshotLoop E C2 page fileName total elements i w.
Proof.
  intros Hdir Hformat. revert i w.
  induction elements as [|el rest IH]; intros i w; simpl; [done|].
  unfold outputPath. rewrite Hdir, Hformat.
  io_run_quiet; try done; apply IH.
Qed.

(** X10. A conversion reads five settings: the output directory, the
    viewport width, height and scale, and the image format.  Under two
    configurations that agree on these it does the same, call for call:
    the image quality and the patterns do not reach it. *)
Theorem conversion_reads_five_settings E C1 C2 htmlFilePath w :
  same_render_config C1 C2 →
  convertHtmlToImages E C1 htmlFilePath w
  = convertHtmlToImages E C2 htmlFilePath w.
Proof.
  intros (Hdir & Hw & Hh & Hs & Hformat).
  unfold convertHtmlToImages. rewrite Hw, Hh, Hs.
  io_run_quiet; try done.
  rewrite (screenshotLoop_config E C1 C2) by done. done.
Qed.

Lemma conversion_reads_five_settings_witness :
  let E := project_env [] 2 [] [] in
  let draft :=
    {| outputDir := outputDir srv;
       scanPatterns := [];
       excludePatterns := [];
       viewport := viewport srv;
       imageFormat := imageFormat srv;
       imageQuality := Num 10 |} in
  convertHtmlToImages E srv "/srv/report.html" initial
  = convertHtmlToImages E draft "/srv/report.html" initial.
Proof.
  intros E draft.
  apply (conversion_reads_five_settings E srv draft "/srv/report.html" initial).
  by repeat split.
Defined.

(* ===================================================================== *)
(** ** convert.sh *)
(* ===================================================================== *)

Module ConvertShFacts.
Import ConvertSh.

Lemma parse_known args fl :
  Forall known args →
  parse args fl
  = inl (Flags (IMAGES_ONLY fl || bool_decide ("--images-only" ∈ args))
               (PPT_ONLY fl || bool_decide ("--ppt-only" ∈ args))).
Proof.
  intros Hknown. revert fl.
  induction Hknown as [|arg args [-> | ->] _ IH]; intros [io po]; simpl.
  - by rewrite !orb_false_r.
  - rewrite IH. simpl. f_equal. f_equal; [by rewrite orb_true_r|].
    f_equal. apply bool_decide_ext.
    rewrite elem_of_cons. split; [by right|]. by intros [?|?].
  - rewrite IH. simpl. f_equal. f_equal; [|by rewrite orb_true_r].
    f_equal. apply bool_decide_ext.
    rewrite elem_of_cons. split; [by right|]. by intros [?|?].
Qed.

Lemma parse_unknown args fl :
  ¬ Forall known args → ∃ opt, parse args fl = inr opt ∧ opt ∈ args ∧ ¬ known opt.
Proof.
  revert fl. induction args as [|arg args IH]; intros fl Hnot.
  { destruct Hnot. constructor. }
  simpl.
  destruct (String.eqb_spec arg "--images-only") as [->|Hi].
  { destruct (IH (Flags true (PPT_ONLY fl))) as (opt & -> & Hin & Hopt).
    - intros H. apply Hnot. constructor; [by left|done].
    - exists opt. split; [done|]. split; [by right|done]. }
  destruct (String.eqb_spec arg "--ppt-only") as [->|Hp].
  { destruct (IH (Flags (IMAGES_ONLY fl) true)) as (opt & -> & Hin & Hopt).
    - intros H. apply Hnot. constructor; [by right|done].
    - exists opt. split; [done|]. split; [by right|done]. }
  exists arg. split; [done|]. split; [by left|]. by intros [?|?].
Qed.

(** Unfolds the script for given flags and splits on the machine. *)
Ltac sh_cases :=
  unfold main, check_dependencies, require, install_node_deps,
    install_python_deps, html_to_images, images_to_ppt, run,
    mbind, mret, sh_bind, sh_ret;
  simpl;
  repeat match goal with
    | |- context [installed ?m ?t] => destruct (installed m t) eqn:?
    | |- context [node_modules ?m] => destruct (node_modules m) eqn:?
    | |- context [decide (status ?m ?j = 0)] =>
        destruct (decide (status m j = 0))
    end;
  simpl.

(** X19. An option the script does not know ends it with status 1 before
    it checks or runs anything, wherever the option stands among the
    arguments. *)
Theorem unknown_option_stops_everything m args :
  ¬ Forall known args → convert_sh m args = (1, []).
Proof.
  intros Hnot. unfold convert_sh.
  by destruct (parse_unknown args (Flags false false) Hnot) as (opt & -> & _).
Qed.

Lemma unknown_option_stops_everything_witness :
  convert_sh (Machine (λ _, true) true (λ _, 0)) ["--images-only"; "--pdf"]
  = (1, []).
Proof.
  apply unknown_option_stops_everything.
  intros H. apply Forall_cons in H as [_ H]. apply Forall_cons in H as [[H|H] _];
    discriminate H.
Defined.

(** X20. The known options may come in any order and any number of times:
    two argument lists with the same known options make the script do the
    same. *)
Theorem options_in_any_order m args1 args2 :
  Forall known args1 → Forall known args2 →
  (∀ arg, arg ∈ args1 ↔ arg ∈ args2) →
  convert_sh m args1 = convert_sh m args2.
Proof.
  intros H1 H2 Hsame. unfold convert_sh.
  rewrite (parse_known _ _ H1), (parse_known _ _ H2). simpl.
  by rewrite (bool_decide_ext _ _ (Hsame "--images-only")),
    (bool_decide_ext _ _ (Hsame "--ppt-only")).
Qed.

Lemma options_in_any_order_witness :
  let m := Machine (λ _, true) false (λ _, 0) in
  convert_sh m ["--ppt-only"; "--images-only"; "--ppt-only"]
  = convert_sh m ["--images-only"; "--ppt-only"].
Proof.
  intros m. apply options_in_any_order.
  - repeat constructor; by (left + right).
  - repeat constructor; by (left + right).
  - intros arg. rewrite !elem_of_cons. tauto.
Defined.

(** X21. The script wants all four tools whatever the mode: when [node],
    [npm], [python3] or [pip3] is missing it ends with status 1 and runs
    nothing, also with [--images-only] or [--ppt-only]. *)
Theorem missing_tool_stops_every_mode m args :
  Forall known args →
  installed m "node" && installed m "npm" && installed m "python3"
    && installed m "pip3" = false →
  convert_sh m args = (1, []).
Proof.
  intros Hknown Htools. unfold convert_sh. rewrite (parse_known _ _ Hknown).
  simpl. destruct (bool_decide _), (bool_decide _); sh_cases;
    try done; simpl in Htools; discriminate Htools.
Qed.

Lemma missing_tool_stops_every_mode_witness :
  let m := Machine (λ tool, negb (String.eqb tool "pip3")) true (λ _, 0) in
  convert_sh m ["--images-only"] = (1, []).
Proof.
  intros m. apply missing_tool_stops_every_mode.
  - repeat constructor; by left.
  - reflexivity.
Defined.

(** X22. With both [--images-only] and [--ppt-only] each stage is switched
    off by the other option: on a machine with the four tools the script
    installs nothing, converts nothing and ends with status 0. *)
Theorem both_options_do_nothing m args :
  Forall known args →
  "--images-only" ∈ args → "--ppt-only" ∈ args →
  installed m "node" && installed m "npm" && installed m "python3"
    && installed m "pip3" = true →
  convert_sh m args = (0, []).
Proof.
  intros Hknown Hi Hp Htools. unfold convert_sh.
  rewrite (parse_known _ _ Hknown). simpl.
  rewrite !bool_decide_true by done.
  sh_cases; try done; simpl in Htools; discriminate Htools.
Qed.

Lemma both_options_do_nothing_witness :
  convert_sh (Machine (λ _, true) false (λ _, 0)) ["--images-only"; "--ppt-only"]
  = (0, []).
Proof.
  apply both_options_do_nothing; try reflexivity.
  - repeat constructor; by (left + right).
  - by left.
  - by right; left.
Defined.

(** X23. The script stops at the first job that fails ([set -e]).  The
    jobs it ran are, in this order, among [npm install], [pip3 install],
    the conversion to images and the conversion to slides; every job but
    the last one succeeded; when the script ends with status 0 the last
    one succeeded too, and when it ends with another status after running
    a job, that status is the status of the last job. *)
Theorem jobs_stop_at_first_failure m args :
  let '(code, ran) := convert_sh m args in
  ran `sublist_of` [NpmInstall; PipInstall; HtmlToImages; ImagesToPpt]
  ∧ (∀ before j after,
       ran = before ++ j :: after → after ≠ [] → status m j = 0)
  ∧ (code = 0 → Forall (λ j, status m j = 0) ran)
  ∧ (code ≠ 0 → ∀ j, last ran = Some j → code = status m j).
Proof.
  unfold convert_sh.
  destruct (decide (Forall known args)) as [Hknown|Hnot].
  2: { destruct (parse_unknown args (Flags false false) Hnot) as (opt & -> & _).
       split; [apply sublist_nil_l|]. split; [by intros [] ??|].
       split; [done|]. by intros _ j. }
  rewrite (parse_known _ _ Hknown). simpl.
  assert (∀ (ran : list job) (code : nat),
            ran `sublist_of` [NpmInstall; PipInstall; HtmlToImages; ImagesToPpt] →
            Forall (λ j, status m j = 0) (removelast ran) →
            (code = 0 → Forall (λ j, status m j = 0) ran) →
            (code ≠ 0 → ∀ j, last ran = Some j → code = status m j) →
            ran `sublist_of` [NpmInstall; PipInstall; HtmlToImages; ImagesToPpt]
            ∧ (∀ before j after,
                 ran = before ++ j :: after → after ≠ [] → status m j = 0)
            ∧ (code = 0 → Forall (λ j, status m j = 0) ran)
            ∧ (code ≠ 0 → ∀ j, last ran = Some j → code = status m j))
    as Hgoal.
  { intros ran code Hsub Hinit H0 Hlast. repeat split; try done.
    intros before j after -> Hafter.
    destruct (exists_last Hafter) as (after' & x & ->).
    rewrite app_comm_cons, app_assoc, removelast_last in Hinit.
    apply Forall_app in Hinit as [_ Hinit].
    by apply Forall_cons in Hinit as [? _]. }
  destruct (bool_decide _), (bool_decide _); sh_cases; apply Hgoal;
    simpl; try done;
    try (by repeat first [apply sublist_nil_l | apply sublist_skip | apply sublist_cons]);
    try (by repeat constructor);
    try (by intros _ j [= <-]).
Qed.

(** X24. Each mode leaves the other stage alone: with [--images-only] the
    script neither installs the Python packages nor converts to slides,
    and with [--ppt-only] it neither installs the Node packages nor
    converts to images. *)
Theorem modes_leave_the_other_stage_alone m args :
  Forall known args →
  ("--images-only" ∈ args →
   (PipInstall ∉ (convert_sh m args).2) ∧ (ImagesToPpt ∉ (convert_sh m args).2))
  ∧ ("--ppt-only" ∈ args →
     (NpmInstall ∉ (convert_sh m args).2) ∧ (HtmlToImages ∉ (convert_sh m args).2)).
Proof.
  intros Hknown. unfold convert_sh. rewrite (parse_known _ _ Hknown). simpl.
  assert (∀ (j : job) (ran : list job),
            bool_decide (j ∈ ran) = false → j ∉ ran) as Hnotin.
  { intros j ran H Hin. by rewrite bool_decide_true in H. }
  split; intros Hin; rewrite (bool_decide_true _ Hin);
    destruct (bool_decide _); sh_cases;
    split; apply Hnotin; reflexivity.
Qed.

Lemma modes_leave_the_other_stage_alone_witness :
  let m := Machine (λ _, true) false (λ _, 0) in
  (convert_sh m ["--images-only"]).2 = [NpmInstall; HtmlToImages]
  ∧ (PipInstall ∉ (convert_sh m ["--images-only"]).2).
Proof.
  intros m. split; [reflexivity|].
  destruct (modes_leave_the_other_stage_alone m ["--images-only"]) as [Hi _].
  - repeat constructor; by left.
  - destruct Hi as [Hpip _]; [by left|exact Hpip].
Defined.

End ConvertShFacts.

(** X5. In every environment, a conversion that throws after its browser
    was launched leaves that browser open: no exit by exception passes
    through [browser.close()]. *)
Theorem failed_conversion_leaves_browser_open E CONFIG htmlFilePath w e w' :
  fault E (trace w) Launch = None →
  convertHtmlToImages E CONFIG htmlFilePath w = (Throw e, w') →
  fresh w ∈ browsers w'.
Proof. apply convert_throw_leaks. Qed.

Lemma failed_conversion_leaves_browser_open_witness :
  let E :=
    {| fault := λ _ c,
         match c with
         | Screenshot (Locator _ 1) _ _ => Some (Error "Target closed")
         | _ => None
         end;
       matched := λ _ _ _, [];
       located := λ _ _ _, 2 |} in
  0 ∈ browsers (convertHtmlToImages E srv "/srv/report.html" initial).2.
Proof.
  intros E.
  apply (failed_conversion_leaves_browser_open E srv "/srv/report.html" initial
           (Error "Target closed")
           (convertHtmlToImages E srv "/srv/report.html" initial).2).
  - reflexivity.
  - vm_compute. reflexivity.
Defined.
